(** * Audio analysis pipeline of idf-camera-playground

    A shallow embedding of [components/audio_processing/audio_processing.c]
    and of the chord recogniser of
    [projects/musical-dna-sequencer/main/main.c], together with that
    application's beat tracker, genre rule, feature code and sample
    conversion.

    C [float] is IEEE-754 binary32 and C [double] is binary64; both are
    modelled with the executable operations of the standard library's
    [SpecFloat] (round to nearest, ties to even), so that every definition
    below can be evaluated on concrete inputs.  Where a statement is about
    the number a [float] stands for, that number is a rational ([F32.value]).
    C [int] and [int64_t] are modelled as [Z] with the two's-complement
    wrap-around written out; the functions of the C library ([cosf],
    [log2f]), [malloc] and the ESP-DSP initialisation are parameters of the
    definitions that call them, as are [log10f], [powf] and the ESP-DSP
    transform routines. *)

From Stdlib Require Import ZArith QArith Qpower Bool Lia Lqa.
From Stdlib Require Import Floats.SpecFloat.
From Stdlib Require Strings.String.
From stdpp Require Import base list.

Local Open Scope Z_scope.

(** ** Machine integers *)

Module Int.

(** Reduction of an integer to the signed [w]-bit range. *)
Definition wrap (w : Z) (z : Z) : Z :=
  (z + 2 ^ (w - 1)) mod 2 ^ w - 2 ^ (w - 1).

Definition wrap32 : Z -> Z := wrap 32.
Definition wrap64 : Z -> Z := wrap 64.

Definition in_int64 (z : Z) : Prop := - 2 ^ 63 <= z < 2 ^ 63.

End Int.

(** ** binary32 arithmetic ([float]) *)

Module F32.

Definition prec : Z := 24.
Definition emax : Z := 128.

Definition float : Type := spec_float.

Definition add : float -> float -> float := SFadd prec emax.
Definition sub : float -> float -> float := SFsub prec emax.
Definition mul : float -> float -> float := SFmul prec emax.
Definition div : float -> float -> float := SFdiv prec emax.

(** [gt a b] is the C comparison [a > b]; it is false when either side is
    a NaN. *)
Definition gt (a b : float) : bool := SFltb b a.
Definition ge (a b : float) : bool := SFleb b a.
Definition lt (a b : float) : bool := SFltb a b.

(** Conversion of an integer to [float] (the C cast [(float)i]). *)
Definition of_Z (z : Z) : float := binary_normalize prec emax z 0 false.

Definition zero : float := S754_zero false.

(** A decimal literal [n/d] written with the [f] suffix is the correctly
    rounded quotient, which is what the division of the two exactly
    representable integers computes. *)
Definition lit (n d : Z) : float := div (of_Z n) (of_Z d).

Definition is_nan (x : float) : bool :=
  match x with S754_nan => true | _ => false end.

Definition is_finite (x : float) : bool :=
  match x with S754_zero _ | S754_finite _ _ _ => true | _ => false end.

(** Sign test used to say that a value is not negative. *)
Definition nonneg (x : float) : bool :=
  match x with
  | S754_zero _ => true
  | S754_finite s _ _ | S754_infinity s => negb s
  | S754_nan => false
  end.

(** [roundf]: the nearest integer, halfway cases away from zero.  The
    result is an integer below [2^24] in magnitude and so exact. *)
Definition roundf (x : float) : float :=
  match x with
  | S754_finite s m (Zneg p) =>
      let d := 2 ^ Zpos p in
      let q := Zpos m / d in
      let r := Zpos m mod d in
      let n := if d <=? 2 * r then q + 1 else q in
      binary_normalize prec emax (cond_Zopp s n) 0 s
  | _ => x
  end.

(** The C cast [(int)x]: truncation towards zero.  The cast of a NaN, of
    an infinity or of a value outside the range of [int] is undefined
    behaviour; the model gives 0 for the first two and the mathematical
    value for the last. *)
Definition to_int (x : float) : Z :=
  match x with
  | S754_finite s m (Zneg p) => cond_Zopp s (Zpos m / 2 ^ Zpos p)
  | S754_finite s m e => cond_Zopp s (Zpos m * 2 ^ e)
  | _ => 0
  end.

(** Whether the conversion [(int)x] is defined: [x] is finite and its
    integral part is an [int]. *)
Definition fits_int (x : float) : bool :=
  is_finite x && (- 2 ^ 31 <=? to_int x) && (to_int x <? 2 ^ 31).

(** The position of a number in the order of the comparisons: the class
    (infinities, negative, zero, positive), then exponent and mantissa.
    Both zeros have the same position. *)
Definition rank (x : float) : Z * Z * Z :=
  match x with
  | S754_infinity true => (-2, 0, 0)
  | S754_finite true m e => (-1, - e, - Zpos m)
  | S754_zero _ => (0, 0, 0)
  | S754_finite false m e => (1, e, Zpos m)
  | S754_infinity false => (2, 0, 0)
  | S754_nan => (3, 0, 0)
  end.

Definition rank_compare (a b : Z * Z * Z) : comparison :=
  let '(a1, a2, a3) := a in
  let '(b1, b2, b3) := b in
  match a1 ?= b1 with
  | Eq => match a2 ?= b2 with Eq => a3 ?= b3 | c => c end
  | c => c
  end.

Definition rank_lt (a b : Z * Z * Z) : Prop :=
  let '(a1, a2, a3) := a in
  let '(b1, b2, b3) := b in
  a1 < b1 \/ (a1 = b1 /\ (a2 < b2 \/ (a2 = b2 /\ a3 < b3))).

(** The rational number a finite [float] stands for; 0 is given for the
    infinities and the NaN, which stand for no number. *)
Definition pow2 (e : Z) : Q := (2 ^ e)%Q.

Definition value (x : float) : Q :=
  match x with
  | S754_finite s m e =>
      ((if s then -1 else 1) * inject_Z (Zpos m) * pow2 e)%Q
  | _ => 0%Q
  end.

(** A well-formed binary32 datum: mantissa and exponent in canonical
    form. *)
Definition well_formed (x : float) : Prop := valid_binary prec emax x = true.

(** The exponent of a finite number is at least that of the subnormals. *)
Definition exp_ok (x : float) : Prop :=
  match x with
  | S754_finite _ _ e => -149 <= e
  | _ => True
  end.

(** A magnitude: a well-formed datum that is not negative. *)
Definition magnitude (x : float) : Prop :=
  nonneg x = true /\ well_formed x.

(** A number above zero, [+Inf] included. *)
Definition above_zero (x : float) : bool :=
  match x with
  | S754_finite false _ _ | S754_infinity false => true
  | _ => false
  end.

(** A number met in an accumulation of magnitudes. *)
Definition datum (x : float) : Prop :=
  nonneg x = true /\ exp_ok x.

(** [c^n] in the rationals. *)
Fixpoint qpow (c : Q) (n : nat) : Q :=
  match n with
  | O => 1%Q
  | S k => (c * qpow c k)%Q
  end.

(** The tolerance of the chroma normalisation, [1e-6]. *)
Definition chroma_tolerance : Q := (1 # 1000000)%Q.

(** The exact sum of the numbers of a list. *)
Definition sum_values (l : list float) : Q :=
  fold_right (fun x acc => (value x + acc)%Q) 0%Q l.

(** The unit roundoff [2^-24] and half of the smallest subnormal,
    [2^-150]. *)
Definition unit_roundoff : Q := pow2 (-24).
Definition half_min_subnormal : Q := pow2 (-150).

(** The position of the discarded part [f] of a shifted mantissa, as its
    round and sticky bits tell it. *)
Definition frac_ok (r s : bool) (f : Q) : Prop :=
  match r, s with
  | false, false => (f == 0)%Q
  | false, true => (0 < f /\ f < 1 # 2)%Q
  | true, false => (f == 1 # 2)%Q
  | true, true => ((1 # 2) < f /\ f < 1)%Q
  end.

(** The record [mrs] stands for the number [t]: mantissa, round and sticky
    bit. *)
Definition repr (mrs : shr_record) (t : Q) : Prop :=
  frac_ok (shr_r mrs) (shr_s mrs) (t - inject_Z (shr_m mrs))%Q.

(** Mantissa and exponent on which [binary_round_aux] decides. *)
Definition round_core (mx ex : Z) (lx : location) : Z * Z :=
  let '(mrs', e') := shr_fexp prec emax mx ex lx in
  let '(mrs'', e'') :=
    shr_fexp prec emax
      (round_nearest_even (shr_m mrs') (loc_of_shr_record mrs'))
      e' loc_Exact in
  (shr_m mrs'', e'').

(** The sign bit is clear or the datum is a NaN: the test [x < 0] fails
    and [x] is not the negative zero. *)
Definition not_negative (x : float) : bool :=
  match x with
  | S754_zero s | S754_infinity s | S754_finite s _ _ => negb s
  | S754_nan => true
  end.

(** [fabsf] of the C library. *)
Definition fabsf : float -> float := SFabs.

(** [sqrtf] of the C library: the correctly rounded square root. *)
Definition sqrtf : float -> float := SFsqrt prec emax.

(** Smallest positive subnormal number, [2^-149]. *)
Definition min_subnormal : float := S754_finite false 1 (-149).

(** [FLT_MAX]. *)
Definition max_float : float := SFmax_float prec emax.

End F32.

#[global] Arguments F32.add : simpl never.
#[global] Arguments F32.sub : simpl never.
#[global] Arguments F32.mul : simpl never.
#[global] Arguments F32.div : simpl never.
#[global] Arguments F32.of_Z : simpl never.
#[global] Arguments F32.lit : simpl never.

(** ** binary64 arithmetic ([double]), as far as the window formulas use it *)

Module F64.

Definition prec : Z := 53.
Definition emax : Z := 1024.

Definition double : Type := spec_float.

Definition mul : double -> double -> double := SFmul prec emax.
Definition div : double -> double -> double := SFdiv prec emax.

Definition of_Z (z : Z) : double := binary_normalize prec emax z 0 false.

(** A finite [float] is exactly representable as a [double]. *)
Definition of_float (x : F32.float) : double := x.

(** The C conversion from [double] to [float]. *)
Definition to_float (x : double) : F32.float :=
  match x with
  | S754_finite s m e =>
      binary_normalize F32.prec F32.emax (cond_Zopp s (Zpos m)) e s
  | _ => x
  end.

(** [M_PI] of [math.h], [0x400921FB54442D18]. *)
Definition M_PI : double := S754_finite false 7074237752028440 (-51).

End F64.

(** ** Error codes *)

(** [esp_err_t].  [esp_err.h] belongs to ESP-IDF; the three codes the audio
    component returns itself are named, any other code (those of ESP-DSP)
    is carried as a number. *)
Inductive esp_err_t : Type :=
| ESP_OK
| ESP_ERR_NO_MEM
| ESP_ERR_INVALID_ARG
| ESP_ERR_OTHER (code : Z).

(** ** Fixed-size arrays *)

(** [arr[i] = v].  An index outside the array is undefined behaviour in C;
    the model leaves the array as it is. *)
Definition array_set {A} (a : list A) (i : Z) (v : A) : list A :=
  if (0 <=? i) && (i <? Z.of_nat (length a))
  then <[Z.to_nat i := v]> a
  else a.

(** [arr[i]] as an rvalue; a read outside the array (undefined behaviour)
    is modelled as [0.0f]. *)
Definition array_get (a : list spec_float) (i : Z) : spec_float :=
  if 0 <=? i then default (S754_zero false) (a !! Z.to_nat i)
  else S754_zero false.

(** [for (i = lo; i < hi; i++) s = body i s;] *)
Definition for_loop {S} (lo hi : Z) (body : Z -> S -> S) (s : S) : S :=
  fold_left (fun s i => body i s) (seqZ lo (hi - lo)) s.

(** [acc = 0.0f; for (i = 0; i < n; i++) acc += a[i];] over a whole
    array. *)
Definition accumulate (a : list F32.float) : F32.float :=
  fold_left F32.add a F32.zero.

(** ** Data model of [audio_processing.h] *)

Record audio_features_t : Type := mk_features {
  energy : F32.float;
  spectral_centroid : F32.float;
  spectral_rolloff : F32.float;
  spectral_spread : F32.float;
  spectral_skewness : F32.float;
  spectral_kurtosis : F32.float;
  zero_crossing_rate : F32.float;
  mfcc : list F32.float;
  chroma : list F32.float;
  feat_tempo : F32.float;
  timestamp : Z
}.

Record beat_detector_t : Type := mk_detector {
  energy_history : list F32.float;
  beat_intervals : list F32.float;
  history_index : Z;
  beat_count : Z;
  tempo : F32.float;
  confidence : F32.float;
  last_beat_time : Z
}.

Record audio_config_t : Type := mk_config {
  sample_rate : Z;
  fft_size : Z;
  window_type : Z;
  hop_size : Z;
  normalize : bool
}.

Definition AUDIO_WINDOW_HANN : Z := 0.
Definition AUDIO_WINDOW_HAMMING : Z := 1.
Definition AUDIO_WINDOW_BLACKMAN : Z := 2.

(** ** Beat detector *)

Module Beat.

(** [memset(detector, 0, sizeof *detector); detector->tempo = 120.0f]. *)
Definition init_state : beat_detector_t :=
  {| energy_history := replicate 16 F32.zero;
     beat_intervals := replicate 8 F32.zero;
     history_index := 0;
     beat_count := 0;
     tempo := F32.of_Z 120;
     confidence := F32.zero;
     last_beat_time := 0 |}.

Definition audio_beat_detector_init (detector : option beat_detector_t)
  : esp_err_t * option beat_detector_t :=
  match detector with
  | None => (ESP_ERR_INVALID_ARG, None)
  | Some _ => (ESP_OK, Some init_state)
  end.

(** The average of the energy ring as the code computes it. *)
Definition ring_mean (hist : list F32.float) : F32.float :=
  F32.div (accumulate (take 16 hist)) (F32.of_Z 16).

(** The tempo update of a detected beat, lines 415-428. *)
Definition update_tempo (d : beat_detector_t) (now : Z)
  : list F32.float * F32.float :=
  if 0 <? beat_count d then
    let interval :=
      F32.div (F32.of_Z (Int.wrap64 (now - last_beat_time d)))
              (F32.of_Z 1000000) in
    let interval_idx := Z.rem (beat_count d) 8 in
    let intervals := array_set (beat_intervals d) interval_idx interval in
    let count := if beat_count d <? 8 then beat_count d else 8 in
    let avg_interval :=
      F32.div (accumulate (take (Z.to_nat count) intervals))
              (F32.of_Z count) in
    (intervals, F32.div (F32.of_Z 60) avg_interval)
  else (beat_intervals d, tempo d).

(** The body of [audio_beat_detector_process] once the three pointers are
    known to be non-null: the new detector and [*beat_detected]. *)
Definition process (d : beat_detector_t) (f : audio_features_t)
  : beat_detector_t * bool :=
  let hist := array_set (energy_history d) (history_index d) (energy f) in
  let idx := Z.rem (Int.wrap32 (history_index d + 1)) 16 in
  let avg_energy := ring_mean hist in
  let beat_threshold := F32.mul (F32.lit 13 10) avg_energy in
  let now := timestamp f in
  if F32.gt (energy f) beat_threshold
     && (200000 <? Int.wrap64 (now - last_beat_time d))
  then
    let '(intervals, new_tempo) := update_tempo d now in
    ({| energy_history := hist;
        beat_intervals := intervals;
        history_index := idx;
        beat_count := Int.wrap32 (beat_count d + 1);
        tempo := new_tempo;
        confidence :=
          F32.div (F32.sub (energy f) avg_energy) avg_energy;
        last_beat_time := now |}, true)
  else
    ({| energy_history := hist;
        beat_intervals := beat_intervals d;
        history_index := idx;
        beat_count := beat_count d;
        tempo := tempo d;
        confidence := confidence d;
        last_beat_time := last_beat_time d |}, false).

Definition audio_beat_detector_process
    (detector : option beat_detector_t)
    (features : option audio_features_t)
    (beat_detected : option bool)
  : esp_err_t * option beat_detector_t * option bool :=
  match detector, features, beat_detected with
  | Some d, Some f, Some _ =>
      let '(d', b) := process d f in (ESP_OK, Some d', Some b)
  | _, _, _ => (ESP_ERR_INVALID_ARG, detector, beat_detected)
  end.

(** A session: the frames are processed in order on one detector.  The
    trace lists, for every call, the detector it started from, the
    detector it left and the flag it reported. *)
Fixpoint trace (d : beat_detector_t) (fs : list audio_features_t)
  : list (beat_detector_t * beat_detector_t * bool) :=
  match fs with
  | [] => []
  | f :: fs' =>
      let '(d', b) := process d f in (d, d', b) :: trace d' fs'
  end.

(** The detector a session leaves behind. *)
Definition run (d : beat_detector_t) (fs : list audio_features_t)
  : beat_detector_t :=
  fold_left (fun d f => fst (process d f)) fs d.

(** The number of calls of a session that reported a beat. *)
Fixpoint beats (d : beat_detector_t) (fs : list audio_features_t) : Z :=
  match fs with
  | [] => 0
  | f :: fs' =>
      let '(d', b) := process d f in
      (if b then 1 else 0) + beats d' fs'
  end.

(** Timestamps are readings of the microsecond clock
    ([esp_timer_get_time]): non-negative 64-bit values. *)
Definition clock_value (t : Z) : Prop := 0 <= t < 2 ^ 63.

Definition frame_ok (f : audio_features_t) : Prop :=
  clock_value (timestamp f).

Definition detector_ok (d : beat_detector_t) : Prop :=
  length (energy_history d) = 16%nat /\
  0 <= history_index d < 16 /\
  clock_value (last_beat_time d).

(** A frame carrying only what the detector reads. *)
Definition frame (e : F32.float) (t : Z) : audio_features_t :=
  {| energy := e; spectral_centroid := F32.zero;
     spectral_rolloff := F32.zero; spectral_spread := F32.zero;
     spectral_skewness := F32.zero; spectral_kurtosis := F32.zero;
     zero_crossing_rate := F32.zero;
     mfcc := replicate 13 F32.zero; chroma := replicate 12 F32.zero;
     feat_tempo := F32.zero; timestamp := t |}.

(** A short session: three loud frames, the second one 100 ms after the
    first. *)
Definition sample_session : list audio_features_t :=
  [ frame (F32.of_Z 1) 300000;
    frame (F32.of_Z 2) 400000;
    frame (F32.of_Z 5) 600000 ].

End Beat.

#[global] Arguments Beat.process : simpl never.
#[global] Arguments Beat.update_tempo : simpl never.
#[global] Arguments Beat.ring_mean : simpl never.

(** ** The audio component: configuration, window cache, features *)

Module Audio.

(** The file-scope variables of [audio_processing.c]. *)
Record globals : Type := mk_globals {
  g_audio_config : audio_config_t;
  g_initialized : bool;
  g_window_coeffs : option (list F32.float)
}.

(** Their values at program start. *)
Definition startup : globals :=
  {| g_audio_config :=
       {| sample_rate := 0; fft_size := 0; window_type := 0;
          hop_size := 0; normalize := false |};
     g_initialized := false;
     g_window_coeffs := None |}.

(** The argument [length * sizeof(float)] of [malloc], a 32-bit
    [size_t]. *)
Definition alloc_size (length : Z) : Z := (length * 4) mod 2 ^ 32.

(** The number of [float]s that [memcpy(dst, src, length * sizeof(float))]
    is asked to copy.  The byte count is a 32-bit [size_t] too, so a
    negative length stands for a copy of almost 4 GB. *)
Definition memcpy_floats (length : Z) : Z := alloc_size length / 4.

(** The test [g_window_coeffs && length == g_audio_config.fft_size &&
    window_type == g_audio_config.window_type] of [audio_apply_window]:
    the cached coefficients when they may be used. *)
Definition cached_coeffs (g : globals) (len wtype : Z)
  : option (list F32.float) :=
  match g_window_coeffs g with
  | Some coeffs =>
      if (len =? fft_size (g_audio_config g))
         && (wtype =? window_type (g_audio_config g))
      then Some coeffs else None
  | None => None
  end.

(** The three window types with a [case] of their own in the [switch]
    of [audio_apply_window]. *)
Definition window_type_is_cosine (window_type : Z) : bool :=
  (window_type =? AUDIO_WINDOW_HANN)
  || (window_type =? AUDIO_WINDOW_HAMMING)
  || (window_type =? AUDIO_WINDOW_BLACKMAN).

Section Environment.

(** [cosf] of the C library. *)
Variable cosf : F32.float -> F32.float.

(** Whether the call [malloc(n)] of this invocation returns a buffer. *)
Variable malloc : Z -> bool.

(** [dsps_fft2r_init_fc32(NULL, n)] of ESP-DSP. *)
Variable dsps_fft2r_init_fc32 : Z -> esp_err_t.

(** [k * M_PI * i / (length - 1)] with [k] the [float] literal [2.0f]
    or [4.0f]: evaluated in [double], converted to [float] for
    [cosf]. *)
Definition phase (k i length : Z) : F32.float :=
  F64.to_float
    (F64.div
       (F64.mul (F64.mul (F64.of_float (F32.of_Z k)) F64.M_PI)
                (F64.of_Z i))
       (F64.of_Z (Int.wrap32 (length - 1)))).

(** The coefficient of index [i] of a window of [length] points. *)
Definition window_coeff (window_type length i : Z) : F32.float :=
  if window_type =? AUDIO_WINDOW_HANN then
    F32.mul (F32.lit 1 2)
            (F32.sub (F32.of_Z 1) (cosf (phase 2 i length)))
  else if window_type =? AUDIO_WINDOW_HAMMING then
    F32.sub (F32.lit 54 100)
            (F32.mul (F32.lit 46 100) (cosf (phase 2 i length)))
  else if window_type =? AUDIO_WINDOW_BLACKMAN then
    let a0 := F32.lit 42 100 in
    let a1 := F32.lit 50 100 in
    let a2 := F32.lit 8 100 in
    F32.add (F32.sub a0 (F32.mul a1 (cosf (phase 2 i length))))
            (F32.mul a2 (cosf (phase 4 i length)))
  else F32.of_Z 1.

(** [generate_window_coeffs]: the old buffer is freed, then the new one
    is requested; every slot of a new buffer is written by the loop of
    the selected case. *)
Definition generate_window_coeffs (window_type length : Z) (g : globals)
  : esp_err_t * globals :=
  if malloc (alloc_size length) then
    (ESP_OK,
     {| g_audio_config := g_audio_config g;
        g_initialized := g_initialized g;
        g_window_coeffs :=
          Some (map (window_coeff window_type length)
                    (seqZ 0 length)) |})
  else
    (ESP_ERR_NO_MEM,
     {| g_audio_config := g_audio_config g;
        g_initialized := g_initialized g;
        g_window_coeffs := None |}).

(** [audio_processing_init]. *)
Definition audio_processing_init (config : option audio_config_t)
    (g : globals) : esp_err_t * globals :=
  match config with
  | None => (ESP_ERR_INVALID_ARG, g)
  | Some c =>
      if (fft_size c <? 64) || (4096 <? fft_size c) then
        (ESP_ERR_INVALID_ARG, g)
      else if (sample_rate c <? 8000) || (96000 <? sample_rate c) then
        (ESP_ERR_INVALID_ARG, g)
      else
        let g1 := {| g_audio_config := c;
                     g_initialized := g_initialized g;
                     g_window_coeffs := g_window_coeffs g |} in
        match dsps_fft2r_init_fc32 (fft_size c) with
        | ESP_OK =>
            match generate_window_coeffs (window_type c) (fft_size c) g1
            with
            | (ESP_OK, g2) =>
                (ESP_OK,
                 {| g_audio_config := g_audio_config g2;
                    g_initialized := true;
                    g_window_coeffs := g_window_coeffs g2 |})
            | (ret, g2) => (ret, g2)
            end
        | ret => (ret, g1)
        end
  end.

(** [audio_apply_window].  [windowed_samples] is the output buffer as
    the caller passes it; the result carries the buffer as the call
    leaves it. *)
Definition audio_apply_window
    (samples windowed_samples : option (list F32.float))
    (length window_type : Z) (g : globals)
  : esp_err_t * option (list F32.float) :=
  match samples, windowed_samples with
  | Some src, Some dst =>
      match cached_coeffs g length window_type with
      | Some coeffs =>
          (ESP_OK,
           Some (for_loop 0 length
                   (fun i out =>
                      array_set out i
                        (F32.mul (array_get src i) (array_get coeffs i)))
                   dst))
      | None =>
          if (window_type =? AUDIO_WINDOW_HANN)
             || (window_type =? AUDIO_WINDOW_HAMMING)
             || (window_type =? AUDIO_WINDOW_BLACKMAN)
          then
            (ESP_OK,
             Some (for_loop 0 length
                     (fun i out =>
                        array_set out i
                          (F32.mul (array_get src i)
                                   (window_coeff window_type length i)))
                     dst))
          else
            (* memcpy(windowed_samples, samples, length * sizeof(float)) *)
            (ESP_OK,
             Some (for_loop 0 (memcpy_floats length)
                     (fun i out => array_set out i (array_get src i))
                     dst))
      end
  | _, _ => (ESP_ERR_INVALID_ARG, windowed_samples)
  end.

End Environment.

(** [(float)i * sample_rate / (2.0f * size)]. *)
Definition bin_freq (i size sample_rate : Z) : F32.float :=
  F32.div (F32.mul (F32.of_Z i) (F32.of_Z sample_rate))
          (F32.mul (F32.of_Z 2) (F32.of_Z size)).

(** The first loop of [calculate_spectral_rolloff]: the sum of the bins
    [1 .. size-1]. *)
Definition total_energy (spectrum : list F32.float) (size : Z)
  : F32.float :=
  for_loop 1 size (fun i acc => F32.add acc (array_get spectrum i))
           F32.zero.

(** The second loop, which returns from inside: [None] when it runs to
    the end. *)
Fixpoint rolloff_scan (spectrum : list F32.float) (size sample_rate : Z)
    (energy_threshold cumulative_energy : F32.float) (bins : list Z)
  : option F32.float :=
  match bins with
  | [] => None
  | i :: rest =>
      let cumulative_energy :=
        F32.add cumulative_energy (array_get spectrum i) in
      if F32.ge cumulative_energy energy_threshold
      then Some (bin_freq i size sample_rate)
      else rolloff_scan spectrum size sample_rate energy_threshold
                        cumulative_energy rest
  end.

(** The bin at which the second loop returns: the same scan, keeping the
    loop index instead of its frequency. *)
Fixpoint rolloff_bin (spectrum : list F32.float)
    (energy_threshold cumulative_energy : F32.float) (bins : list Z)
  : option Z :=
  match bins with
  | [] => None
  | i :: rest =>
      let cumulative_energy :=
        F32.add cumulative_energy (array_get spectrum i) in
      if F32.ge cumulative_energy energy_threshold
      then Some i
      else rolloff_bin spectrum energy_threshold cumulative_energy rest
  end.

Definition calculate_spectral_rolloff (spectrum : list F32.float)
    (size sample_rate : Z) (threshold : F32.float) : F32.float :=
  let energy_threshold :=
    F32.mul threshold (total_energy spectrum size) in
  match rolloff_scan spectrum size sample_rate energy_threshold F32.zero
                     (seqZ 1 (size - 1)) with
  | Some f => f
  | None => F32.div (F32.of_Z sample_rate) (F32.of_Z 2)  (* Nyquist *)
  end.

Section Chroma.

(** [log2f] of the C library. *)
Variable log2f : F32.float -> F32.float.

(** [midi_note = 12.0f * log2f(freq / 440.0f) + 69.0f;
    pitch_class = ((int)roundf(midi_note)) % 12;
    if (pitch_class < 0) pitch_class += 12;] *)
Definition pitch_class (freq : F32.float) : Z :=
  let midi_note :=
    F32.add (F32.mul (F32.of_Z 12)
                     (log2f (F32.div freq (F32.of_Z 440))))
            (F32.of_Z 69) in
  let pc := Z.rem (F32.to_int (F32.roundf midi_note)) 12 in
  if pc <? 0 then pc + 12 else pc.

(** The accumulation loop over the bins [1 .. size-1]. *)
Definition chroma_bins (spectrum : list F32.float)
    (size sample_rate : Z) : list F32.float :=
  for_loop 1 size
    (fun i chroma =>
       let freq := bin_freq i size sample_rate in
       if F32.gt freq (F32.of_Z 80) && F32.lt freq (F32.of_Z 2000)
       then
         let pc := pitch_class freq in
         array_set chroma pc
           (F32.add (array_get chroma pc) (array_get spectrum i))
       else chroma)
    (replicate 12 F32.zero).

(** The normalisation: [if (chroma_sum > 0) chroma[i] /= chroma_sum]. *)
Definition normalize_chroma (chroma : list F32.float)
  : list F32.float :=
  let chroma_sum := accumulate chroma in
  if F32.gt chroma_sum F32.zero
  then map (fun c => F32.div c chroma_sum) chroma
  else chroma.

(** The test [freq > 80.0f && freq < 2000.0f] on bin [i]. *)
Definition in_musical_range (i size sample_rate : Z) : bool :=
  F32.gt (bin_freq i size sample_rate) (F32.of_Z 80)
  && F32.lt (bin_freq i size sample_rate) (F32.of_Z 2000).

(** What the accumulation loop has established before bin [k]. *)
Definition chroma_so_far (spectrum : list F32.float)
    (size sample_rate : Z) (k : Z) (chroma : list F32.float) : Prop :=
  length chroma = 12%nat /\
  Forall F32.datum chroma /\
  (forall i, 1 <= i < k ->
     in_musical_range i size sample_rate = true ->
     F32.above_zero (array_get spectrum i) = true ->
     exists j y, chroma !! j = Some y /\ F32.above_zero y = true).

(** [audio_compute_chroma]; the result carries the output vector. *)
Definition audio_compute_chroma (spectrum : option (list F32.float))
    (spectrum_size sample_rate : Z) (chroma : option (list F32.float))
  : esp_err_t * option (list F32.float) :=
  match spectrum, chroma with
  | Some sp, Some _ =>
      (ESP_OK,
       Some (normalize_chroma
               (chroma_bins sp spectrum_size sample_rate)))
  | _, _ => (ESP_ERR_INVALID_ARG, chroma)
  end.

End Chroma.

(** The rolloff as [audio_extract_features] requests it. *)
Definition spectral_rolloff_85 (spectrum : list F32.float)
    (size sample_rate : Z) : F32.float :=
  calculate_spectral_rolloff spectrum size sample_rate (F32.lit 85 100).

(** The magnitude accumulated over the bins [1 .. i], in the order and
    with the roundings of the loops above. *)
Definition cumulative_energy (spectrum : list F32.float) (i : Z)
  : F32.float :=
  total_energy spectrum (i + 1).

(** The Nyquist frequency, [sample_rate / 2.0f]. *)
Definition nyquist (sample_rate : Z) : F32.float :=
  F32.div (F32.of_Z sample_rate) (F32.of_Z 2).

(** The two range checks [audio_processing_init] makes on a
    configuration. *)
Definition range_ok (c : audio_config_t) : bool :=
  (64 <=? fft_size c) && (fft_size c <=? 4096)
  && (8000 <=? sample_rate c) && (sample_rate c <=? 96000).

(** [n] is a power of two. *)
Definition is_power_of_two (n : Z) : bool :=
  (0 <? n) && (Z.land n (n - 1) =? 0).

(** [calculate_spectral_centroid]: the loop carries
    [(weighted_sum, magnitude_sum)]. *)
Definition centroid_sums (spectrum : list F32.float)
    (size sample_rate : Z) : F32.float * F32.float :=
  for_loop 1 size
    (fun i sums =>
       let freq := bin_freq i size sample_rate in
       (F32.add (fst sums) (F32.mul freq (array_get spectrum i)),
        F32.add (snd sums) (array_get spectrum i)))
    (F32.zero, F32.zero).

Definition calculate_spectral_centroid (spectrum : list F32.float)
    (size sample_rate : Z) : F32.float :=
  let '(weighted_sum, magnitude_sum) :=
    centroid_sums spectrum size sample_rate in
  if F32.gt magnitude_sum F32.zero
  then F32.div weighted_sum magnitude_sum
  else F32.zero.

(** The energy of [audio_extract_features], lines 241-245: the square
    root of the sum of the squares of the bins [1 .. size-1]. *)
Definition sum_of_squares (spectrum : list F32.float) (size : Z)
  : F32.float :=
  for_loop 1 size
    (fun i acc =>
       F32.add acc (F32.mul (array_get spectrum i) (array_get spectrum i)))
    F32.zero.

Definition feature_energy (spectrum : list F32.float) (size : Z)
  : F32.float :=
  F32.sqrtf (sum_of_squares spectrum size).

(** The spectral spread of [audio_extract_features], lines 254-264; the
    loop carries [(spread_sum, magnitude_sum)]. *)
Definition spread_sums (spectrum : list F32.float)
    (size sample_rate : Z) (centroid : F32.float)
  : F32.float * F32.float :=
  for_loop 1 size
    (fun i sums =>
       let freq := bin_freq i size sample_rate in
       let diff := F32.sub freq centroid in
       (F32.add (fst sums)
                (F32.mul (F32.mul diff diff) (array_get spectrum i)),
        F32.add (snd sums) (array_get spectrum i)))
    (F32.zero, F32.zero).

Definition feature_spread (spectrum : list F32.float)
    (size sample_rate : Z) (centroid : F32.float) : F32.float :=
  let '(spread_sum, magnitude_sum) :=
    spread_sums spectrum size sample_rate centroid in
  if F32.gt magnitude_sum F32.zero
  then F32.sqrtf (F32.div spread_sum magnitude_sum)
  else F32.zero.

(** [memset(buf, 0, n * sizeof(float))]. *)
Definition clear (buf : list F32.float) (n : Z) : list F32.float :=
  for_loop 0 n (fun i out => array_set out i F32.zero) buf.

Section Conversion.

(** What the conversion [(int)x] yields when [x] is a NaN, an infinity
    or a number whose integral part is not an [int].  The C standard
    leaves that case undefined and the hardware decides (a fixed pattern
    on some machines, a saturated value on others), so the value is a
    parameter. *)
Variable undefined_int : F32.float -> Z.

(** The cast [(int)x]. *)
Definition float_to_int (x : F32.float) : Z :=
  if F32.fits_int x then F32.to_int x else undefined_int x.

(** [(int)(freq * 2 * spectrum_size / sample_rate)]. *)
Definition filter_bin (freq : F32.float) (spectrum_size sample_rate : Z)
  : Z :=
  float_to_int
    (F32.div (F32.mul (F32.mul freq (F32.of_Z 2)) (F32.of_Z spectrum_size))
             (F32.of_Z sample_rate)).

(** The two bin indices of [audio_frequency_filter] after clamping. *)
Definition low_bin (low_freq : F32.float) (spectrum_size sample_rate : Z)
  : Z :=
  let b := filter_bin low_freq spectrum_size sample_rate in
  if b <? 0 then 0 else b.

Definition high_bin (high_freq : F32.float) (spectrum_size sample_rate : Z)
  : Z :=
  let b := filter_bin high_freq spectrum_size sample_rate in
  if spectrum_size <=? b then Int.wrap32 (spectrum_size - 1) else b.

(** [audio_frequency_filter]; the result carries the output buffer. *)
Definition audio_frequency_filter
    (spectrum filtered_spectrum : option (list F32.float))
    (spectrum_size : Z) (low_freq high_freq : F32.float) (sample_rate : Z)
  : esp_err_t * option (list F32.float) :=
  match spectrum, filtered_spectrum with
  | Some sp, Some out =>
      let lo := low_bin low_freq spectrum_size sample_rate in
      let hi := high_bin high_freq spectrum_size sample_rate in
      (ESP_OK,
       Some (for_loop lo (hi + 1)
               (fun i out => array_set out i (array_get sp i))
               (clear out spectrum_size)))
  | _, _ => (ESP_ERR_INVALID_ARG, filtered_spectrum)
  end.

End Conversion.

(** [audio_compute_psd]; it reads the configured sample rate. *)
Definition audio_compute_psd
    (fft_output psd_output : option (list F32.float)) (size : Z)
    (g : globals) : esp_err_t * option (list F32.float) :=
  match fft_output, psd_output with
  | Some mag, Some out =>
      (ESP_OK,
       Some (for_loop 0 size
               (fun i out =>
                  array_set out i
                    (F32.div (F32.mul (array_get mag i) (array_get mag i))
                             (F32.of_Z (sample_rate (g_audio_config g)))))
               out))
  | _, _ => (ESP_ERR_INVALID_ARG, psd_output)
  end.

Section Transform.

(** Whether the call [malloc(n)] of this invocation returns a buffer. *)
Variable malloc : Z -> bool.

(** The three ESP-DSP routines, each working in place on the complex
    buffer: the code it returns (where the caller looks at it) and the
    buffer it leaves. *)
Variable dsps_fft2r_fc32 : list F32.float -> Z -> esp_err_t * list F32.float.
Variable dsps_bit_rev_fc32 : list F32.float -> Z -> list F32.float.
Variable dsps_cplx2reC_fc32 : list F32.float -> Z -> list F32.float.

(** The interleaved complex input: [input_samples[i]] followed by
    [0.0f], for [i < fft_size]. *)
Definition complex_input (input_samples : list F32.float) (fft_size : Z)
  : list F32.float :=
  concat (map (fun i => [array_get input_samples i; F32.zero])
              (seqZ 0 fft_size)).

(** The magnitude loop, lines 189-193. *)
Definition magnitudes (buf : list F32.float) (fft_size : Z)
    (fft_output : list F32.float) : list F32.float :=
  for_loop 0 (Z.quot fft_size 2)
    (fun i out =>
       let real := array_get buf (i * 2) in
       let imag := array_get buf (i * 2 + 1) in
       array_set out i
         (F32.sqrtf (F32.add (F32.mul real real) (F32.mul imag imag))))
    fft_output.

(** [audio_compute_fft]; the result carries the output buffer. *)
Definition audio_compute_fft
    (input_samples fft_output : option (list F32.float)) (fft_size : Z)
  : esp_err_t * option (list F32.float) :=
  match input_samples, fft_output with
  | Some inp, Some out =>
      if malloc (alloc_size (Int.wrap32 (fft_size * 2))) then
        match dsps_fft2r_fc32 (complex_input inp fft_size) fft_size with
        | (ESP_OK, buf) =>
            let buf := dsps_bit_rev_fc32 buf fft_size in
            let buf := dsps_cplx2reC_fc32 buf fft_size in
            (ESP_OK, Some (magnitudes buf fft_size out))
        | (ret, _) => (ret, Some out)
        end
      else (ESP_ERR_NO_MEM, Some out)
  | _, _ => (ESP_ERR_INVALID_ARG, fft_output)
  end.

End Transform.

Section Features.

(** The outcome of an undefined conversion to [int], as above. *)
Variable undefined_int : F32.float -> Z.

(** [log10f], [powf], [cosf] and [log2f] of the C library. *)
Variable log10f : F32.float -> F32.float.
Variable powf : F32.float -> F32.float -> F32.float.
Variable cosf : F32.float -> F32.float.
Variable log2f : F32.float -> F32.float.

Definition audio_freq_to_mel (freq : F32.float) : F32.float :=
  F32.mul (F32.of_Z 2595)
          (log10f (F32.add (F32.of_Z 1) (F32.div freq (F32.of_Z 700)))).

Definition audio_mel_to_freq (mel : F32.float) : F32.float :=
  F32.mul (F32.of_Z 700)
          (F32.sub (powf (F32.of_Z 10) (F32.div mel (F32.of_Z 2595)))
                   (F32.of_Z 1)).

(** One round of the filter-bank loop of [audio_compute_mfcc], lines
    303-320: the log-compressed output of mel filter [m]. *)
Definition mel_filter (spectrum : list F32.float)
    (spectrum_size sample_rate : Z) (mel_low mel_high : F32.float) (m : Z)
  : F32.float :=
  let mel_center :=
    F32.add mel_low
      (F32.div (F32.mul (F32.sub mel_high mel_low) (F32.of_Z m))
               (F32.of_Z (26 - 1))) in
  let freq_center := audio_mel_to_freq mel_center in
  let bin_center :=
    filter_bin undefined_int freq_center spectrum_size sample_rate in
  let bin_width := Z.quot spectrum_size 26 in
  let sum :=
    for_loop (Int.wrap32 (bin_center - bin_width))
             (Z.min (Int.wrap32 (bin_center + bin_width) + 1) spectrum_size)
      (fun i acc =>
         if 0 <=? i then
           let weight :=
             F32.sub (F32.of_Z 1)
               (F32.div (F32.fabsf (F32.of_Z (Int.wrap32 (i - bin_center))))
                        (F32.of_Z bin_width)) in
           if F32.gt weight F32.zero
           then F32.add acc (F32.mul (array_get spectrum i) weight)
           else acc
         else acc)
      F32.zero in
  log10f (F32.add sum (F32.lit 1 10000000000)).

(** [cosf(M_PI * i * (j + 0.5f) / num_mel_filters)]: the argument is
    evaluated in [double] and converted to [float] for [cosf]. *)
Definition dct_weight (i j : Z) : F32.float :=
  cosf (F64.to_float
          (F64.div
             (F64.mul (F64.mul F64.M_PI (F64.of_Z i))
                      (F64.of_float (F32.add (F32.of_Z j) (F32.lit 1 2))))
             (F64.of_Z 26))).

(** [audio_compute_mfcc]; the result carries the output buffer. *)
Definition audio_compute_mfcc (spectrum : option (list F32.float))
    (spectrum_size sample_rate : Z) (mfcc : option (list F32.float))
  : esp_err_t * option (list F32.float) :=
  match spectrum, mfcc with
  | Some sp, Some out =>
      let mel_low := audio_freq_to_mel (F32.of_Z 80) in
      let mel_high :=
        audio_freq_to_mel (F32.div (F32.of_Z sample_rate) (F32.of_Z 2)) in
      let mel_filterbank :=
        map (mel_filter sp spectrum_size sample_rate mel_low mel_high)
            (seqZ 0 26) in
      (ESP_OK,
       Some (for_loop 0 13
               (fun i out =>
                  array_set out i
                    (for_loop 0 26
                       (fun j acc =>
                          F32.add acc
                            (F32.mul (array_get mel_filterbank j)
                                     (dct_weight i j)))
                       F32.zero))
               out))
  | _, _ => (ESP_ERR_INVALID_ARG, mfcc)
  end.

(** [audio_extract_features]; [now] is the reading of
    [esp_timer_get_time] the call makes.  The structure is cleared
    first, so a field the function does not assign is zero. *)
Definition audio_extract_features (spectrum : option (list F32.float))
    (spectrum_size sample_rate : Z) (features : option audio_features_t)
    (now : Z) : esp_err_t * option audio_features_t :=
  match spectrum, features with
  | Some sp, Some _ =>
      let centroid :=
        calculate_spectral_centroid sp spectrum_size sample_rate in
      (ESP_OK,
       Some {| energy := feature_energy sp spectrum_size;
               spectral_centroid := centroid;
               spectral_rolloff :=
                 calculate_spectral_rolloff sp spectrum_size sample_rate
                                            (F32.lit 85 100);
               spectral_spread :=
                 feature_spread sp spectrum_size sample_rate centroid;
               spectral_skewness := F32.zero;
               spectral_kurtosis := F32.zero;
               zero_crossing_rate := F32.zero;
               mfcc :=
                 default (replicate 13 F32.zero)
                   (snd (audio_compute_mfcc spectrum spectrum_size
                           sample_rate (Some (replicate 13 F32.zero))));
               chroma :=
                 default (replicate 12 F32.zero)
                   (snd (audio_compute_chroma log2f spectrum spectrum_size
                           sample_rate (Some (replicate 12 F32.zero))));
               feat_tempo := F32.zero;
               timestamp := now |})
  | _, _ => (ESP_ERR_INVALID_ARG, features)
  end.

End Features.

(** Sample configurations and environments for evaluation. *)
Definition config_of (rate size wtype : Z) : audio_config_t :=
  {| sample_rate := rate; fft_size := size; window_type := wtype;
     hop_size := size / 2; normalize := false |}.

(** A C library whose [cosf] is never consulted (rectangular window). *)
Definition cosf_unused : F32.float -> F32.float := fun x => x.

Definition malloc_succeeds : Z -> bool := fun _ => true.
Definition malloc_fails : Z -> bool := fun _ => false.

(** An ESP-DSP initialisation that reports success, and one that refuses
    every size with a code of its own. *)
Definition dsps_accepts : Z -> esp_err_t := fun _ => ESP_OK.
Definition dsps_refuses : Z -> esp_err_t := fun _ => ESP_ERR_OTHER 458753.

(** Two outcomes of an undefined conversion to [int] met on hardware:
    the fixed pattern [INT_MIN], and saturation. *)
Definition cast_to_int_min : F32.float -> Z := fun _ => - 2 ^ 31.

Definition cast_saturating (x : F32.float) : Z :=
  match x with
  | S754_finite false _ _ | S754_infinity false => 2 ^ 31 - 1
  | S754_finite true _ _ | S754_infinity true => - 2 ^ 31
  | _ => 0
  end.

(** Globals holding a valid 64-point rectangular window cache. *)
Definition primed : globals :=
  {| g_audio_config := config_of 44100 64 3;
     g_initialized := true;
     g_window_coeffs := Some (replicate 64 (F32.of_Z 1)) |}.

End Audio.

(** ** The chord recogniser of the musical-dna-sequencer project *)

Module Chord.

Definition I2S_SAMPLE_RATE : Z := 44100.
Definition N_FFT : Z := 512.
Definition FREQ_BINS : Z := N_FFT / 2.
Definition CHORD_TEMPLATES : Z := 24.

Record chord_info_t : Type := mk_chord {
  root_note : Z;
  chord_type : Z;
  confidence : F32.float;
  chroma : list F32.float
}.

(** [static chord_info_t current_chord = {0}]. *)
Definition startup : chord_info_t :=
  {| root_note := 0; chord_type := 0; confidence := F32.zero;
     chroma := replicate 12 F32.zero |}.

(** The table [chord_templates], row by row. *)
Definition chord_table : list (list Z) :=
  [ [1;0;0;0;1;0;0;1;0;0;0;0];  (* C major *)
    [0;1;0;0;0;1;0;0;1;0;0;0];  (* C# major *)
    [0;0;1;0;0;0;1;0;0;1;0;0];  (* D major *)
    [0;0;0;1;0;0;0;1;0;0;1;0];  (* D# major *)
    [0;0;0;0;1;0;0;0;1;0;0;1];  (* E major *)
    [1;0;0;0;0;1;0;0;0;1;0;0];  (* F major *)
    [0;1;0;0;0;0;1;0;0;0;1;0];  (* F# major *)
    [0;0;1;0;0;0;0;1;0;0;0;1];  (* G major *)
    [1;0;0;1;0;0;0;0;1;0;0;0];  (* G# major *)
    [0;1;0;0;1;0;0;0;0;1;0;0];  (* A major *)
    [0;0;1;0;0;1;0;0;0;0;1;0];  (* A# major *)
    [0;0;0;1;0;0;1;0;0;0;0;1];  (* B major *)
    [1;0;0;1;0;0;0;1;0;0;0;0];  (* C minor *)
    [0;1;0;0;1;0;0;0;1;0;0;0];  (* C# minor *)
    [0;0;1;0;0;1;0;0;0;1;0;0];  (* D minor *)
    [0;0;0;1;0;0;1;0;0;0;1;0];  (* D# minor *)
    [0;0;0;0;1;0;0;1;0;0;0;1];  (* E minor *)
    [1;0;0;0;0;1;0;0;1;0;0;0];  (* F minor *)
    [0;1;0;0;0;0;1;0;0;1;0;0];  (* F# minor *)
    [0;0;1;0;0;0;0;1;0;0;1;0];  (* G minor *)
    [0;0;0;1;0;0;0;0;1;0;0;1];  (* G# minor *)
    [1;0;0;0;1;0;0;0;0;1;0;0];  (* A minor *)
    [0;1;0;0;0;1;0;0;0;0;1;0];  (* A# minor *)
    [0;0;1;0;0;0;1;0;0;0;0;1]   (* B minor *) ].

Definition chord_templates : list (list F32.float) :=
  map (map F32.of_Z) chord_table.

(** Row [c] of the table. *)
Definition template (c : Z) : list F32.float :=
  if 0 <=? c then default [] (chord_templates !! Z.to_nat c) else [].

(** [correlation = 0; for (i < 12) correlation += chroma[i] *
    chord_templates[c][i];] *)
Definition correlation (chroma : list F32.float) (c : Z) : F32.float :=
  for_loop 0 12
    (fun i acc =>
       F32.add acc (F32.mul (array_get chroma i)
                            (array_get (template c) i)))
    F32.zero.

(** One round of the matching loop on [(best_match, best_chord)]. *)
Definition match_step (chroma : list F32.float) (c : Z)
    (best : F32.float * Z) : F32.float * Z :=
  let correlation := correlation chroma c in
  if F32.gt correlation (fst best) then (correlation, c) else best.

(** The matching loop, lines 361-374: [(best_match, best_chord)]. *)
Definition match_templates (chroma : list F32.float) : F32.float * Z :=
  for_loop 0 CHORD_TEMPLATES (match_step chroma) (F32.zero, 0).

(** What the matching loop has established once the templates
    [0 .. n-1] have been tried. *)
Definition best_so_far (chroma : list F32.float) (n : Z)
    (best : F32.float * Z) : Prop :=
  let '(best_match, best_chord) := best in
  F32.nonneg best_match = true /\
  0 <= best_chord /\
  (forall c, 0 <= c < n ->
     F32.gt (correlation chroma c) best_match = false) /\
  ((best_match = correlation chroma best_chord /\
    best_chord < n /\
    forall c, 0 <= c < best_chord ->
      F32.gt best_match (correlation chroma c) = true)
   \/ (best_match = F32.zero /\ best_chord = 0)).

(** The update of [current_chord], lines 376-390 (the log line has no
    effect on the estimate). *)
Definition update_chord (best : F32.float * Z) (cur : chord_info_t)
  : chord_info_t :=
  let '(best_match, best_chord) := best in
  if F32.gt best_match (F32.lit 3 10) then
    {| root_note := Z.rem best_chord 12;
       chord_type := if 12 <=? best_chord then 1 else 0;
       confidence := best_match;
       chroma := chroma cur |}
  else cur.

(** The recogniser proper: matching and update on a given chroma
    vector. *)
Definition recognize (chroma_in : list F32.float) (cur : chord_info_t)
  : chord_info_t :=
  update_chord (match_templates chroma_in) cur.

Section Libm.

Variable log2f : F32.float -> F32.float.

(** [analyze_chords]: the chroma loop is the one of
    [audio_compute_chroma] at [FREQ_BINS] bins and [I2S_SAMPLE_RATE];
    the normalisation loop also stores each quotient in
    [current_chord.chroma]. *)
Definition analyze_chords (spectrum : list F32.float)
    (current_chord : chord_info_t) : chord_info_t :=
  let raw := Audio.chroma_bins log2f spectrum FREQ_BINS
                               I2S_SAMPLE_RATE in
  let chroma_sum := accumulate raw in
  let '(chroma_v, current_chord) :=
    if F32.gt chroma_sum F32.zero then
      let normalized := map (fun c => F32.div c chroma_sum) raw in
      (normalized,
       {| root_note := root_note current_chord;
          chord_type := chord_type current_chord;
          confidence := confidence current_chord;
          chroma := normalized |})
    else (raw, current_chord) in
  update_chord (match_templates chroma_v) current_chord.

(** The estimate after the frames of a session, starting from the
    zero-initialised [current_chord]. *)
Definition session (spectra : list (list F32.float)) : chord_info_t :=
  fold_left (fun cur spectrum => analyze_chords spectrum cur) spectra
            startup.

(** The winning correlation of a frame. *)
Definition winning_correlation (spectrum : list F32.float)
  : F32.float :=
  fst (match_templates
         (Audio.normalize_chroma
            (Audio.chroma_bins log2f spectrum FREQ_BINS
                               I2S_SAMPLE_RATE))).

End Libm.

(** A reference [log2f] for evaluating the recogniser on concrete
    spectra: the base-2 logarithm of a positive finite number, computed
    bit by bit in fixed point (60 fractional bits) and cut to 20
    fractional bits, which a [float] holds exactly for the magnitudes
    met here.  It is within [2^-19] of the true logarithm. *)
Fixpoint log2_frac_bits (n : nat) (y : Z) (acc : Z) : Z :=
  match n with
  | O => acc
  | S n' =>
      let y2 := (y * y) / 2 ^ 60 in
      if 2 ^ 61 <=? y2
      then log2_frac_bits n' (y2 / 2) (2 * acc + 1)
      else log2_frac_bits n' y2 (2 * acc)
  end.

Definition log2f_ref (x : F32.float) : F32.float :=
  match x with
  | S754_finite false m e =>
      let n := Zpos (digits2_pos m) - 1 in
      let y := Zpos m * 2 ^ (60 - n) in
      let fixed := (e + n) * 2 ^ 20 + log2_frac_bits 20 y 0 in
      binary_normalize F32.prec F32.emax fixed (-20) false
  | S754_zero _ => S754_infinity true
  | S754_infinity false => x
  | _ => S754_nan
  end.

(** The C-major template taken as a chroma vector. *)
Definition c_major_chroma : list F32.float :=
  map F32.of_Z [1;0;0;0;1;0;0;1;0;0;0;0].

(** A chroma entry as the accumulation of magnitudes produces it: a
    finite number that is not negative. *)
Definition chroma_ok (x : F32.float) : Prop :=
  F32.nonneg x = true /\ F32.is_finite x = true.

(** What the display code relies on when it reads [current_chord]: a
    pitch class, a major/minor flag, twelve chroma entries, and a
    confidence that is the initial zero or has passed the 0.3
    threshold. *)
Definition estimate_ok (c : chord_info_t) : Prop :=
  0 <= root_note c < 12 /\
  (chord_type c = 0 \/ chord_type c = 1) /\
  length (chroma c) = 12%nat /\
  (confidence c = F32.zero \/ F32.gt (confidence c) (F32.lit 3 10) = true).

(** A spectrum of [FREQ_BINS] bins that is zero except for the value [v]
    at the listed bins. *)
Definition spectrum_at (bins : list Z) (v : F32.float)
  : list F32.float :=
  map (fun i => if bool_decide (i ∈ bins) then v else F32.zero)
      (seqZ 0 FREQ_BINS).

(** Two bins of the largest finite magnitude, both on pitch class F. *)
Definition saturated_spectrum : list F32.float :=
  spectrum_at [1; 2] F32.max_float.

(** Three bins of equal magnitude falling on the pitch classes C, G and
    E (258 Hz, 775 Hz and 1292 Hz): the raw chroma of this spectrum is
    the C-major template. *)
Definition c_major_spectrum : list F32.float :=
  spectrum_at [3; 9; 15] (F32.of_Z 1).

(** Three bins of equal magnitude falling on the pitch classes D, G and
    B (603 Hz, 775 Hz and 1981 Hz): a G-major frame. *)
Definition g_major_spectrum : list F32.float :=
  spectrum_at [7; 9; 23] (F32.of_Z 1).

(** Seven bins of equal magnitude falling on the seven pitch classes
    E, F, F#, G, G#, A, A#. *)
Definition scattered_spectrum : list F32.float :=
  spectrum_at [15; 1; 17; 9; 19; 5; 11] (F32.of_Z 1).

End Chord.

(** ** The rest of the musical-dna-sequencer application *)

Module Sequencer.

Import Strings.String.
Local Open Scope string_scope.

Definition N_SAMPLES : Z := 1024.
Definition BEAT_HISTORY : Z := 8.
Definition GENRE_FEATURES : Z := 13.

Definition chord_names : list string :=
  [ "C"; "C#"; "D"; "D#"; "E"; "F"; "F#"; "G"; "G#"; "A"; "A#"; "B";
    "Cm"; "C#m"; "Dm"; "D#m"; "Em"; "Fm"; "F#m"; "Gm"; "G#m"; "Am"; "A#m";
    "Bm" ].

Definition genre_names : list string :=
  [ "Rock"; "Pop"; "Jazz"; "Classical"; "Electronic"; "Hip-Hop";
    "Country"; "Blues" ].

Local Close Scope string_scope.

(** The application's own [audio_features_t]. *)
Record audio_features_t : Type := mk_features {
  energy : F32.float;
  spectral_centroid : F32.float;
  spectral_rolloff : F32.float;
  zero_crossing_rate : F32.float;
  mfcc : list F32.float;
  timestamp : Z
}.

Record beat_tracker_t : Type := mk_tracker {
  tempo : F32.float;
  time_signature : Z;
  beat_confidence : F32.float;
  last_beat : Z;
  beat_intervals : list F32.float;
  beat_index : Z
}.

Record genre_analysis_t : Type := mk_genre {
  features : list F32.float;
  predicted_genre : Z;
  confidence : F32.float;
  genre_name : string
}.

(** The three [static] locals of [detect_beats] together with the global
    [beat_tracker]. *)
Record beat_state : Type := mk_beat_state {
  energy_history : list F32.float;
  history_index : Z;
  last_beat_time : Z;
  beat_tracker : beat_tracker_t
}.

(** The state when the analysis task starts: everything zero, then the
    two assignments of [app_main]. *)
Definition beat_startup : beat_state :=
  {| energy_history := replicate 8 F32.zero;
     history_index := 0;
     last_beat_time := 0;
     beat_tracker :=
       {| tempo := F32.of_Z 120;
          time_signature := 4;
          beat_confidence := F32.zero;
          last_beat := 0;
          beat_intervals := replicate 8 F32.zero;
          beat_index := 0 |} |}.

(** [static genre_analysis_t genre_info = {0}]. *)
Definition genre_startup : genre_analysis_t :=
  {| features := replicate 13 F32.zero;
     predicted_genre := 0;
     confidence := F32.zero;
     genre_name := String.EmptyString |}.

(** [(float)(i2s_samples[i] >> 14) / 131072.0f], line 445; the shift of
    a negative [int32_t] is the arithmetic one. *)
Definition sample_to_float (sample : Z) : F32.float :=
  F32.div (F32.of_Z (Z.shiftr sample 14)) (F32.of_Z 131072).

(** The tempo update of a detected beat, lines 307-319. *)
Definition update_tempo (bt : beat_tracker_t) (now : Z)
  : list F32.float * F32.float :=
  if 0 <? beat_index bt then
    let interval :=
      F32.div (F32.of_Z (Int.wrap64 (now - last_beat bt)))
              (F32.of_Z 1000000) in
    let intervals :=
      array_set (beat_intervals bt) (Z.rem (beat_index bt) BEAT_HISTORY)
                interval in
    let count :=
      if beat_index bt <? BEAT_HISTORY then beat_index bt
      else BEAT_HISTORY in
    let avg_interval :=
      F32.div (accumulate (take (Z.to_nat count) intervals))
              (F32.of_Z count) in
    (intervals, F32.div (F32.of_Z 60) avg_interval)
  else (beat_intervals bt, tempo bt).

(** [detect_beats]; [now] is the reading of [esp_timer_get_time] the call
    makes.  The flag tells whether the beat branch was taken. *)
Definition detect_beats (f : audio_features_t) (now : Z) (s : beat_state)
  : beat_state * bool :=
  let hist := array_set (energy_history s) (history_index s) (energy f) in
  let idx := Z.rem (Int.wrap32 (history_index s + 1)) 8 in
  let avg_energy := F32.div (accumulate (take 8 hist)) (F32.of_Z 8) in
  let beat_threshold := F32.mul (F32.lit 13 10) avg_energy in
  let bt := beat_tracker s in
  if F32.gt (energy f) beat_threshold
     && (200000 <? Int.wrap64 (now - last_beat_time s))
  then
    let '(intervals, new_tempo) := update_tempo bt now in
    ({| energy_history := hist;
        history_index := idx;
        last_beat_time := now;
        beat_tracker :=
          {| tempo := new_tempo;
             time_signature := time_signature bt;
             beat_confidence :=
               F32.div (F32.sub (energy f) avg_energy) avg_energy;
             last_beat := now;
             beat_intervals := intervals;
             beat_index := Int.wrap32 (beat_index bt + 1) |} |}, true)
  else
    ({| energy_history := hist;
        history_index := idx;
        last_beat_time := last_beat_time s;
        beat_tracker := bt |}, false).

(** The calls of a session, each with its features and clock reading. *)
Definition run (s : beat_state) (calls : list (audio_features_t * Z))
  : beat_state :=
  fold_left (fun s c => fst (detect_beats (fst c) (snd c) s)) calls s.

(** The number of calls of a session that took the beat branch. *)
Fixpoint beats (s : beat_state) (calls : list (audio_features_t * Z)) : Z :=
  match calls with
  | [] => 0
  | c :: rest =>
      let '(s', b) := detect_beats (fst c) (snd c) s in
      (if b then 1 else 0) + beats s' rest
  end.

(** [classify_genre]. *)
Definition classify_genre (f : audio_features_t) (bt : beat_tracker_t)
    (genre_info : genre_analysis_t) : genre_analysis_t :=
  let copied :=
    for_loop 0 GENRE_FEATURES
      (fun i fs => array_set fs i (array_get (mfcc f) i))
      (features genre_info) in
  let centroid_ratio := F32.div (spectral_centroid f) (F32.of_Z 2000) in
  let energy_level := energy f in
  let '(genre, name) :=
    if F32.gt centroid_ratio (F32.lit 7 10)
       && F32.gt energy_level (F32.lit 5 10)
    then (4, "Electronic"%string)
    else if F32.lt centroid_ratio (F32.lit 3 10)
            && F32.gt energy_level (F32.lit 3 10)
    then (7, "Blues"%string)
    else if F32.gt (tempo bt) (F32.of_Z 120)
            && F32.lt (tempo bt) (F32.of_Z 140)
    then (1, "Pop"%string)
    else (0, "Rock"%string) in
  {| features := copied;
     predicted_genre := genre;
     confidence := F32.lit 6 10;
     genre_name := name |}.

(** The chord the visualisation task prints, lines 510-511; a read
    outside [chord_names] (undefined behaviour) is modelled as the empty
    string. *)
Definition chord_index (c : Chord.chord_info_t) : Z :=
  Int.wrap32 (Chord.root_note c + Int.wrap32 (Chord.chord_type c * 12)).

Definition displayed_chord (c : Chord.chord_info_t) : string :=
  if F32.gt (Chord.confidence c) (F32.lit 3 10)
  then default EmptyString (chord_names !! Z.to_nat (chord_index c))
  else "Unknown"%string.

(** The name [analyze_chords] logs for the winning template, line 387. *)
Definition logged_chord (best_chord : Z) : string :=
  default EmptyString (chord_names !! Z.to_nat best_chord).

(** The application's private [calculate_spectral_centroid], lines
    250-261; the loop carries [(weighted_sum, magnitude_sum)]. *)
Definition calculate_spectral_centroid (spectrum : list F32.float)
  : F32.float :=
  let sums :=
    for_loop 1 Chord.FREQ_BINS
      (fun i sums =>
         let freq :=
           F32.div (F32.mul (F32.of_Z i) (F32.of_Z Chord.I2S_SAMPLE_RATE))
                   (F32.mul (F32.of_Z 2) (F32.of_Z Chord.FREQ_BINS)) in
         (F32.add (fst sums) (F32.mul freq (array_get spectrum i)),
          F32.add (snd sums) (array_get spectrum i)))
      (F32.zero, F32.zero) in
  if F32.gt (snd sums) F32.zero
  then F32.div (fst sums) (snd sums)
  else F32.zero.

(** The second loop of the private [calculate_spectral_rolloff], lines
    273-278, which returns from inside. *)
Fixpoint rolloff_crossing (spectrum : list F32.float)
    (energy_threshold cumulative_energy : F32.float) (bins : list Z)
  : option F32.float :=
  match bins with
  | [] => None
  | i :: rest =>
      let cumulative_energy :=
        F32.add cumulative_energy (array_get spectrum i) in
      if F32.ge cumulative_energy energy_threshold
      then Some (F32.div
                   (F32.mul (F32.of_Z i) (F32.of_Z Chord.I2S_SAMPLE_RATE))
                   (F32.mul (F32.of_Z 2) (F32.of_Z Chord.FREQ_BINS)))
      else rolloff_crossing spectrum energy_threshold cumulative_energy
                            rest
  end.

Definition calculate_spectral_rolloff (spectrum : list F32.float)
  : F32.float :=
  let total_energy :=
    for_loop 1 Chord.FREQ_BINS
      (fun i acc => F32.add acc (array_get spectrum i)) F32.zero in
  let energy_threshold := F32.mul (F32.lit 85 100) total_energy in
  match rolloff_crossing spectrum energy_threshold F32.zero
                         (seqZ 1 (Chord.FREQ_BINS - 1)) with
  | Some f => f
  | None => F32.div (F32.of_Z Chord.I2S_SAMPLE_RATE) (F32.of_Z 2)
  end.

(** The bins of band [i] of the thirteen log-energy bands, lines
    236-237. *)
Definition start_bin (i : Z) : Z := Z.quot (i * Chord.FREQ_BINS) 13.
Definition end_bin (i : Z) : Z := Z.quot ((i + 1) * Chord.FREQ_BINS) 13.

Section LogEnergies.

(** [log10f] of the C library. *)
Variable log10f : F32.float -> F32.float.

(** [extract_audio_features]; [now] is the reading of
    [esp_timer_get_time] the call makes, [old] the structure as the
    caller passes it. *)
Definition extract_audio_features (spec : list F32.float)
    (old : audio_features_t) (now : Z) : audio_features_t :=
  {| energy :=
       F32.sqrtf
         (for_loop 1 Chord.FREQ_BINS
            (fun i acc =>
               F32.add acc (F32.mul (array_get spec i) (array_get spec i)))
            F32.zero);
     spectral_centroid := calculate_spectral_centroid spec;
     spectral_rolloff := calculate_spectral_rolloff spec;
     zero_crossing_rate := F32.lit 1 10;
     mfcc :=
       for_loop 0 13
         (fun i out =>
            let energy :=
              for_loop (start_bin i) (end_bin i)
                (fun j acc => F32.add acc (array_get spec j)) F32.zero in
            array_set out i
              (log10f (F32.add energy (F32.lit 1 10000000000))))
         (mfcc old);
     timestamp := now |}.

End LogEnergies.

(** Two calls for evaluation: a loud frame 300 ms after start and a
    louder one 300 ms later. *)
Definition call (e : F32.float) (now : Z) : audio_features_t * Z :=
  ({| energy := e; spectral_centroid := F32.zero;
      spectral_rolloff := F32.zero; zero_crossing_rate := F32.lit 1 10;
      mfcc := replicate 13 F32.zero; timestamp := now |}, now).

End Sequencer.

(** * Properties *)

(** ** Machine integers and arrays *)

Lemma wrap64_id z : Int.in_int64 z -> Int.wrap64 z = z.
Proof.
  unfold Int.in_int64, Int.wrap64, Int.wrap. intros H.
  rewrite Z.mod_small; lia.
Qed.

Lemma wrap32_id z : - 2 ^ 31 <= z < 2 ^ 31 -> Int.wrap32 z = z.
Proof.
  unfold Int.wrap32, Int.wrap. intros H.
  rewrite Z.mod_small; lia.
Qed.

Lemma clock_diff_wrap a b :
  Beat.clock_value a -> Beat.clock_value b -> Int.wrap64 (a - b) = a - b.
Proof.
  unfold Beat.clock_value. intros Ha Hb.
  apply wrap64_id. unfold Int.in_int64. lia.
Qed.

Lemma array_set_length {A} (a : list A) i v :
  length (array_set a i v) = length a.
Proof.
  unfold array_set. destruct (_ && _); [apply length_insert | reflexivity].
Qed.

Lemma for_loop_empty {S} lo hi (body : Z -> S -> S) s :
  hi <= lo -> for_loop lo hi body s = s.
Proof.
  intros H. unfold for_loop.
  destruct (hi - lo) as [|p|p] eqn:E; try lia; reflexivity.
Qed.

Lemma for_loop_snoc {S} lo hi (body : Z -> S -> S) s :
  lo <= hi ->
  for_loop lo (hi + 1) body s = body hi (for_loop lo hi body s).
Proof.
  intros H. unfold for_loop.
  replace (hi + 1 - lo) with ((hi - lo) + 1) by lia.
  rewrite seqZ_app by lia. rewrite fold_left_app.
  replace (lo + (hi - lo)) with hi by lia. reflexivity.
Qed.

(** ** The beat detector *)

Section BeatFacts.

Import Beat.

Lemma process_fired d f :
  snd (process d f) =
  F32.gt (energy f)
         (F32.mul (F32.lit 13 10)
            (ring_mean (array_set (energy_history d) (history_index d)
                                  (energy f))))
  && (200000 <? Int.wrap64 (timestamp f - last_beat_time d)).
Proof.
  unfold process.
  destruct (F32.gt _ _ && _); [destruct (update_tempo _ _)|]; reflexivity.
Qed.

Lemma process_history d f :
  energy_history (fst (process d f)) =
  array_set (energy_history d) (history_index d) (energy f).
Proof.
  unfold process.
  destruct (F32.gt _ _ && _); [destruct (update_tempo _ _)|]; reflexivity.
Qed.

Lemma process_index d f :
  history_index (fst (process d f)) =
  Z.rem (Int.wrap32 (history_index d + 1)) 16.
Proof.
  unfold process.
  destruct (F32.gt _ _ && _); [destruct (update_tempo _ _)|]; reflexivity.
Qed.

Lemma process_last_beat d f :
  last_beat_time (fst (process d f)) =
  if snd (process d f) then timestamp f else last_beat_time d.
Proof.
  unfold process.
  destruct (F32.gt _ _ && _); [destruct (update_tempo _ _)|]; reflexivity.
Qed.

Lemma process_quiet d f :
  snd (process d f) = false ->
  beat_count (fst (process d f)) = beat_count d /\
  tempo (fst (process d f)) = tempo d /\
  confidence (fst (process d f)) = confidence d /\
  beat_intervals (fst (process d f)) = beat_intervals d /\
  last_beat_time (fst (process d f)) = last_beat_time d.
Proof.
  unfold process.
  destruct (F32.gt _ _ && _); [destruct (update_tempo _ _)|];
    cbn [fst snd beat_count tempo confidence beat_intervals
         last_beat_time]; [discriminate | auto].
Qed.

Lemma process_beat d f :
  snd (process d f) = true ->
  beat_count (fst (process d f)) = Int.wrap32 (beat_count d + 1) /\
  tempo (fst (process d f)) = snd (update_tempo d (timestamp f)) /\
  beat_intervals (fst (process d f)) = fst (update_tempo d (timestamp f)) /\
  confidence (fst (process d f)) =
    (let avg := ring_mean (energy_history (fst (process d f))) in
     F32.div (F32.sub (energy f) avg) avg) /\
  last_beat_time (fst (process d f)) = timestamp f.
Proof.
  unfold process.
  destruct (F32.gt _ _ && _); [destruct (update_tempo _ _)|];
    cbn [fst snd beat_count tempo confidence beat_intervals
         last_beat_time energy_history]; [auto | discriminate].
Qed.

Lemma process_ok d f :
  detector_ok d -> frame_ok f -> detector_ok (fst (process d f)).
Proof.
  intros (Hl & Hi & Ht) Hf. unfold detector_ok.
  rewrite process_history, process_index, process_last_beat.
  rewrite array_set_length. split; [assumption|]. split.
  - rewrite wrap32_id by lia.
    pose proof (Z.rem_bound_pos (history_index d + 1) 16). lia.
  - destruct (snd (process d f)); assumption.
Qed.

(** A call never moves [last_beat_time] backwards, and a call that
    reports a beat moves it to its own timestamp, more than 200 ms
    ahead. *)
Lemma process_refractory d f :
  detector_ok d -> frame_ok f ->
  last_beat_time d <= last_beat_time (fst (process d f)) /\
  (snd (process d f) = true ->
   last_beat_time (fst (process d f)) = timestamp f /\
   200000 < timestamp f - last_beat_time d).
Proof.
  intros (_ & _ & Ht) Hf.
  rewrite process_last_beat. rewrite (process_fired d f).
  rewrite clock_diff_wrap by assumption.
  destruct (F32.gt _ _); simpl; [|split; [lia | discriminate]].
  destruct (200000 <? _) eqn:E; [|split; [lia | discriminate]].
  apply Z.ltb_lt in E. split; [lia|]. intros _. split; [reflexivity | lia].
Qed.

Opaque process.

Lemma trace_cons d f fs :
  trace d (f :: fs) =
  (d, fst (process d f), snd (process d f)) :: trace (fst (process d f)) fs.
Proof.
  change (trace d (f :: fs))
    with (let '(d', b) := process d f in (d, d', b) :: trace d' fs).
  destruct (process d f). reflexivity.
Qed.

Lemma trace_length d fs : length (trace d fs) = length fs.
Proof.
  revert d. induction fs as [|f fs IH]; intros d; [reflexivity|].
  rewrite trace_cons. simpl. rewrite IH. reflexivity.
Qed.

(** Entry [k] of a trace is one call of [process] on its frame. *)
Lemma trace_lookup d fs k pre post b :
  trace d fs !! k = Some (pre, post, b) ->
  exists f, fs !! k = Some f /\
            post = fst (process pre f) /\ b = snd (process pre f).
Proof.
  revert d k. induction fs as [|f fs IH]; intros d k H; [destruct k; discriminate|].
  rewrite trace_cons in H. destruct k as [|k]; simpl in H.
  - inversion H; subst. exists f. auto.
  - apply IH in H. exact H.
Qed.

(** The detector a call starts from is well formed and its
    [last_beat_time] is not before the one of the session's start. *)
Lemma trace_pre_ok d fs k pre post b :
  detector_ok d -> Forall frame_ok fs ->
  trace d fs !! k = Some (pre, post, b) ->
  detector_ok pre /\ last_beat_time d <= last_beat_time pre.
Proof.
  revert d k. induction fs as [|f fs IH]; intros d k Hd Hfs H;
    [destruct k; discriminate|].
  rewrite trace_cons in H. inversion Hfs as [|? ? Hf Hfs']; subst.
  destruct k as [|k]; simpl in H.
  - inversion H; subst. split; [assumption | lia].
  - pose proof (process_refractory d f Hd Hf) as [Hle _].
    destruct (IH _ _ (process_ok d f Hd Hf) Hfs' H) as [Hok Hle'].
    split; [assumption | lia].
Qed.

(** Once a call has reported a beat at time [t], every later call starts
    from a detector whose [last_beat_time] is at least [t]. *)
Lemma trace_after_beat d fs i j fi prei posti prej postj bj :
  detector_ok d -> Forall frame_ok fs -> (i < j)%nat ->
  fs !! i = Some fi ->
  trace d fs !! i = Some (prei, posti, true) ->
  trace d fs !! j = Some (prej, postj, bj) ->
  timestamp fi <= last_beat_time prej.
Proof.
  revert d i j. induction fs as [|f fs IH]; intros d i j Hd Hfs Hij Hfi Hi Hj;
    [destruct i; discriminate|].
  rewrite trace_cons in Hi, Hj. inversion Hfs as [|? ? Hf Hfs']; subst.
  destruct j as [|j]; [lia|]. simpl in Hj.
  destruct i as [|i]; simpl in Hi, Hfi.
  - inversion Hi as [[E1 E2 E3]]. inversion Hfi; subst fi.
    rewrite <- E1 in E3.
    destruct (process_refractory d f Hd Hf) as [_ Hb].
    destruct (Hb E3) as [Hlast _].
    destruct (trace_pre_ok _ _ _ _ _ _ (process_ok d f Hd Hf) Hfs' Hj)
      as [_ Hle].
    lia.
  - eapply (IH (fst (process d f)) i j); eauto using process_ok. lia.
Qed.

End BeatFacts.

Opaque Beat.process.

(** C1.  On one detector, a call reports a beat only if the frame's energy
    exceeds 1.3 times the mean of the 16-slot energy ring taken after the
    frame's energy has been written into it, and the frame's timestamp is
    more than 200000 microseconds after [last_beat_time]; hence of two calls
    whose timestamps differ by less than 200 ms at most one reports a
    beat. *)
Theorem beat_refractory_guard (d0 : beat_detector_t)
    (fs : list audio_features_t) :
  Beat.detector_ok d0 -> Forall Beat.frame_ok fs ->
  (forall k pre post f,
      Beat.trace d0 fs !! k = Some (pre, post, true) -> fs !! k = Some f ->
      F32.gt (energy f)
             (F32.mul (F32.lit 13 10)
                      (Beat.ring_mean (energy_history post))) = true /\
      200000 < timestamp f - last_beat_time pre) /\
  (forall i j fi fj ri rj,
      (i < j)%nat -> fs !! i = Some fi -> fs !! j = Some fj ->
      Beat.trace d0 fs !! i = Some ri -> Beat.trace d0 fs !! j = Some rj ->
      Z.abs (timestamp fj - timestamp fi) < 200000 ->
      ~ (snd ri = true /\ snd rj = true)).
Proof.
  intros Hd Hfs. split.
  - intros k pre post f Hk Hf.
    destruct (trace_lookup _ _ _ _ _ _ Hk) as (f' & Hf' & Hpost & Hb).
    rewrite Hf in Hf'. inversion Hf'; subst f'.
    destruct (trace_pre_ok _ _ _ _ _ _ Hd Hfs Hk) as [Hpre _].
    assert (Hfok : Beat.frame_ok f).
    { eapply Forall_lookup_1; eauto. }
    split.
    + subst post. rewrite process_history.
      symmetry in Hb. rewrite process_fired in Hb.
      apply andb_true_iff in Hb. tauto.
    + destruct (process_refractory pre f Hpre Hfok) as [_ H].
      symmetry in Hb. destruct (H Hb). assumption.
  - intros i j fi fj [[prei posti] bi] [[prej postj] bj] Hij Hfi Hfj Hi Hj Habs.
    simpl. intros [Ebi Ebj]. subst bi bj.
    pose proof (trace_after_beat _ _ _ _ _ _ _ _ _ _ Hd Hfs Hij Hfi Hi Hj)
      as Hle.
    destruct (trace_lookup _ _ _ _ _ _ Hj) as (f' & Hf' & Hpost & Hb).
    rewrite Hfj in Hf'. inversion Hf'; subst f'.
    destruct (trace_pre_ok _ _ _ _ _ _ Hd Hfs Hj) as [Hpre _].
    assert (Hfok : Beat.frame_ok fj).
    { eapply Forall_lookup_1; eauto. }
    destruct (process_refractory prej fj Hpre Hfok) as [_ H].
    symmetry in Hb. destruct (H Hb) as [_ Hgap]. lia.
Qed.

Lemma beat_refractory_guard_witness :
  (forall k pre post f,
      Beat.trace Beat.init_state Beat.sample_session !! k
        = Some (pre, post, true) ->
      Beat.sample_session !! k = Some f ->
      F32.gt (energy f)
             (F32.mul (F32.lit 13 10)
                      (Beat.ring_mean (energy_history post))) = true /\
      200000 < timestamp f - last_beat_time pre) /\
  (forall i j fi fj ri rj,
      (i < j)%nat ->
      Beat.sample_session !! i = Some fi ->
      Beat.sample_session !! j = Some fj ->
      Beat.trace Beat.init_state Beat.sample_session !! i = Some ri ->
      Beat.trace Beat.init_state Beat.sample_session !! j = Some rj ->
      Z.abs (timestamp fj - timestamp fi) < 200000 ->
      ~ (snd ri = true /\ snd rj = true)).
Proof.
  apply (beat_refractory_guard Beat.init_state Beat.sample_session).
  - unfold Beat.detector_ok, Beat.clock_value. simpl. lia.
  - unfold Beat.sample_session, Beat.frame_ok, Beat.clock_value.
    repeat constructor; simpl; lia.
Defined.

Section FirstBeat.

Import Beat.

(** As long as no call has reported a beat, the tempo, the beat counter,
    the confidence and the interval ring are those of the start. *)
Lemma trace_quiet_prefix d fs k pre post b :
  trace d fs !! k = Some (pre, post, b) ->
  (forall i r, (i < k)%nat -> trace d fs !! i = Some r -> snd r = false) ->
  beat_count pre = beat_count d /\ tempo pre = tempo d /\
  confidence pre = confidence d /\ beat_intervals pre = beat_intervals d.
Proof.
  revert d k. induction fs as [|f fs IH]; intros d k H Hq;
    [destruct k; discriminate|].
  rewrite trace_cons in H. destruct k as [|k]; simpl in H.
  - inversion H; subst. auto.
  - assert (Hfirst : snd (process d f) = false).
    { apply (Hq 0%nat (d, fst (process d f), snd (process d f)));
        [lia | rewrite trace_cons; reflexivity]. }
    destruct (process_quiet d f Hfirst) as (E1 & E2 & E3 & E4 & _).
    destruct (IH (fst (process d f)) k H) as (F1 & F2 & F3 & F4).
    { intros i r Hi Hr. apply (Hq (S i) r); [lia|].
      rewrite trace_cons. exact Hr. }
    repeat split; congruence.
Qed.

Lemma update_tempo_idle d now :
  beat_count d <= 0 -> update_tempo d now = (beat_intervals d, tempo d).
Proof.
  intros H. unfold update_tempo.
  destruct (0 <? beat_count d) eqn:E; [apply Z.ltb_lt in E; lia|].
  reflexivity.
Qed.

Lemma process_tempo_changes d f :
  tempo (fst (process d f)) <> tempo d ->
  snd (process d f) = true /\ 0 < beat_count d.
Proof.
  intros H. destruct (snd (process d f)) eqn:Eb.
  - split; [reflexivity|].
    destruct (process_beat d f Eb) as (_ & Et & _).
    destruct (Z_lt_le_dec 0 (beat_count d)) as [|Hle]; [assumption|].
    rewrite (update_tempo_idle d _ Hle) in Et. simpl in Et. contradiction.
  - destruct (process_quiet d f Eb) as (_ & Et & _). contradiction.
Qed.

End FirstBeat.

(** C10.  [audio_beat_detector_init] leaves tempo 120, beat count 0,
    confidence 0 and both rings all zero.  The first beat detected after it
    sets [last_beat_time], [beat_count] and [confidence] and keeps the
    tempo at 120; a call changes the tempo only when it detects a beat and
    [beat_count] is already positive. *)
Theorem init_and_first_beat :
  (forall d, Beat.audio_beat_detector_init (Some d)
             = (ESP_OK, Some Beat.init_state)) /\
  tempo Beat.init_state = F32.of_Z 120 /\
  beat_count Beat.init_state = 0 /\
  confidence Beat.init_state = F32.zero /\
  energy_history Beat.init_state = replicate 16 F32.zero /\
  beat_intervals Beat.init_state = replicate 8 F32.zero /\
  (forall fs k pre post f,
      Beat.trace Beat.init_state fs !! k = Some (pre, post, true) ->
      (forall i r, (i < k)%nat ->
                   Beat.trace Beat.init_state fs !! i = Some r ->
                   snd r = false) ->
      fs !! k = Some f ->
      tempo post = F32.of_Z 120 /\
      beat_count post = 1 /\
      last_beat_time post = timestamp f /\
      confidence post =
        (let avg := Beat.ring_mean (energy_history post) in
         F32.div (F32.sub (energy f) avg) avg)) /\
  (forall d f,
      tempo (fst (Beat.process d f)) <> tempo d ->
      snd (Beat.process d f) = true /\ 0 < beat_count d).
Proof.
  split; [reflexivity|]. do 5 (split; [reflexivity|]). split.
  - intros fs k pre post f Hk Hq Hf.
    destruct (trace_quiet_prefix _ _ _ _ _ _ Hk Hq) as (Ec & Et & _ & _).
    destruct (trace_lookup _ _ _ _ _ _ Hk) as (f' & Hf' & Hpost & Hb).
    rewrite Hf in Hf'. inversion Hf'; subst f'. symmetry in Hb.
    destruct (process_beat pre f Hb) as (Bc & Bt & _ & Bconf & Bl).
    rewrite <- Hpost in Bc, Bt, Bconf, Bl.
    rewrite update_tempo_idle in Bt by (rewrite Ec; simpl; lia).
    simpl in Bt. rewrite Ec in Bc.
    repeat split; try assumption.
    rewrite Bt, Et. reflexivity.
  - apply process_tempo_changes.
Qed.

Lemma init_and_first_beat_witness :
  tempo (snd (fst (default (Beat.init_state, Beat.init_state, false)
                     (Beat.trace Beat.init_state Beat.sample_session !! 0%nat))))
  = F32.of_Z 120.
Proof.
  destruct init_and_first_beat as (_ & _ & _ & _ & _ & _ & H & _).
  destruct (H Beat.sample_session 0%nat Beat.init_state
              (fst (Beat.process Beat.init_state
                      (Beat.frame (F32.of_Z 1) 300000)))
              (Beat.frame (F32.of_Z 1) 300000)) as (Ht & _).
  - vm_compute. reflexivity.
  - intros i r Hi. lia.
  - reflexivity.
  - vm_compute. vm_compute in Ht. exact Ht.
Defined.

(** C6, evaluated.  On a freshly initialised detector, a frame whose energy
    is the smallest positive [float] at time 300000 makes the ring average
    round to zero; the beat fires and the unguarded quotient
    [(energy - avg) / avg] is [+Inf]. *)
Theorem confidence_divides_by_zero :
  let f := Beat.frame F32.min_subnormal 300000 in
  let r := Beat.process Beat.init_state f in
  F32.nonneg (energy f) = true /\
  Beat.ring_mean (energy_history (fst r)) = F32.zero /\
  snd r = true /\
  confidence (fst r) = S754_infinity false.
Proof. vm_compute. repeat split. Qed.

(** ** Construction and the window cache *)

Section AudioInit.

Import Audio.

Variable cosf : F32.float -> F32.float.
Variable malloc : Z -> bool.
Variable dsps_fft2r_init_fc32 : Z -> esp_err_t.

Lemma generate_result wt len g :
  generate_window_coeffs cosf malloc wt len g =
  if malloc (alloc_size len)
  then (ESP_OK,
        {| g_audio_config := g_audio_config g;
           g_initialized := g_initialized g;
           g_window_coeffs :=
             Some (map (window_coeff cosf wt len) (seqZ 0 len)) |})
  else (ESP_ERR_NO_MEM,
        {| g_audio_config := g_audio_config g;
           g_initialized := g_initialized g;
           g_window_coeffs := None |}).
Proof. reflexivity. Qed.

Lemma init_rejected c g :
  range_ok c = false ->
  audio_processing_init cosf malloc dsps_fft2r_init_fc32 (Some c) g
  = (ESP_ERR_INVALID_ARG, g).
Proof.
  unfold range_ok, audio_processing_init. intros H.
  destruct (fft_size c <? 64) eqn:E1; [reflexivity|].
  destruct (4096 <? fft_size c) eqn:E2; [reflexivity|].
  destruct (sample_rate c <? 8000) eqn:E3; [reflexivity|].
  destruct (96000 <? sample_rate c) eqn:E4; [reflexivity|].
  exfalso. apply Z.ltb_ge in E1, E2, E3, E4.
  apply not_true_iff_false in H. apply H.
  repeat (apply andb_true_iff; split); apply Z.leb_le; assumption.
Qed.

Lemma init_accepted c g :
  range_ok c = true ->
  audio_processing_init cosf malloc dsps_fft2r_init_fc32 (Some c) g =
  match dsps_fft2r_init_fc32 (fft_size c) with
  | ESP_OK =>
      if malloc (alloc_size (fft_size c))
      then (ESP_OK,
            {| g_audio_config := c;
               g_initialized := true;
               g_window_coeffs :=
                 Some (map (window_coeff cosf (window_type c) (fft_size c))
                           (seqZ 0 (fft_size c))) |})
      else (ESP_ERR_NO_MEM,
            {| g_audio_config := c;
               g_initialized := g_initialized g;
               g_window_coeffs := None |})
  | ret =>
      (ret, {| g_audio_config := c;
               g_initialized := g_initialized g;
               g_window_coeffs := g_window_coeffs g |})
  end.
Proof.
  unfold range_ok, audio_processing_init. intros H.
  repeat (apply andb_true_iff in H; destruct H as [H ?]).
  apply Z.leb_le in H, H0, H1, H2.
  destruct (fft_size c <? 64) eqn:E1; [apply Z.ltb_lt in E1; lia|].
  destruct (4096 <? fft_size c) eqn:E2; [apply Z.ltb_lt in E2; lia|].
  destruct (sample_rate c <? 8000) eqn:E3; [apply Z.ltb_lt in E3; lia|].
  destruct (96000 <? sample_rate c) eqn:E4; [apply Z.ltb_lt in E4; lia|].
  simpl. destruct (dsps_fft2r_init_fc32 (fft_size c)); try reflexivity.
  rewrite generate_result. simpl.
  destruct (malloc (alloc_size (fft_size c))); reflexivity.
Qed.

End AudioInit.

Lemma range_ok_spec c :
  Audio.range_ok c = false <->
  fft_size c < 64 \/ 4096 < fft_size c \/
  sample_rate c < 8000 \/ 96000 < sample_rate c.
Proof.
  unfold Audio.range_ok. rewrite !andb_false_iff, !Z.leb_gt. tauto.
Qed.

(** C2, as the code has it.  [audio_processing_init] answers
    [ESP_ERR_INVALID_ARG] exactly when the configuration pointer is null,
    [fft_size] is outside [64,4096] or [sample_rate] is outside
    [8000,96000] (or when ESP-DSP itself answers that code); there is no
    power-of-two test.  A rejected call leaves the globals untouched.  A
    configuration that passes the range checks is stored unchanged, and the
    call succeeds exactly when the ESP-DSP initialisation and the allocation
    of the coefficient buffer both succeed. *)
Theorem init_validation (cosf : F32.float -> F32.float) (malloc : Z -> bool)
    (dsps : Z -> esp_err_t) (config : option audio_config_t)
    (g : Audio.globals) :
  let r := Audio.audio_processing_init cosf malloc dsps config g in
  (fst r = ESP_ERR_INVALID_ARG <->
   config = None \/
   exists c, config = Some c /\
     (fft_size c < 64 \/ 4096 < fft_size c \/
      sample_rate c < 8000 \/ 96000 < sample_rate c \/
      dsps (fft_size c) = ESP_ERR_INVALID_ARG)) /\
  (config = None -> snd r = g) /\
  (forall c, config = Some c ->
     (fft_size c < 64 \/ 4096 < fft_size c \/
      sample_rate c < 8000 \/ 96000 < sample_rate c) ->
     snd r = g) /\
  (forall c, config = Some c ->
     64 <= fft_size c <= 4096 -> 8000 <= sample_rate c <= 96000 ->
     Audio.g_audio_config (snd r) = c /\
     (fst r = ESP_OK <->
      dsps (fft_size c) = ESP_OK /\
      malloc (Audio.alloc_size (fft_size c)) = true)).
Proof.
  intros r. subst r. destruct config as [c|].
  - destruct (Audio.range_ok c) eqn:Hr.
    + assert (Hin : 64 <= fft_size c <= 4096 /\
                    8000 <= sample_rate c <= 96000).
      { unfold Audio.range_ok in Hr.
        rewrite !andb_true_iff, !Z.leb_le in Hr. lia. }
      rewrite (init_accepted cosf malloc dsps c g Hr).
      split; [split|split; [|split]].
      * intros H. right. exists c. split; [reflexivity|].
        do 4 right.
        destruct (dsps (fft_size c)); simpl in H; try discriminate;
          [destruct (malloc _); discriminate | reflexivity].
      * intros [H|(c' & Hc & H)]; [discriminate|].
        inversion Hc; subst c'.
        destruct H as [H|[H|[H|[H|H]]]]; try lia.
        rewrite H. reflexivity.
      * discriminate.
      * intros c' Hc H. inversion Hc; subst c'. lia.
      * intros c' Hc _ _. inversion Hc; subst c'. split; [|split].
        -- destruct (dsps (fft_size c)); [destruct (malloc _)| | |];
             reflexivity.
        -- intros H.
           destruct (dsps (fft_size c)); simpl in H; try discriminate.
           destruct (malloc _); [split; reflexivity | discriminate].
        -- intros [Hd Hm]. rewrite Hd, Hm. reflexivity.
    + rewrite (init_rejected cosf malloc dsps c g Hr).
      apply range_ok_spec in Hr. split; [split|split; [|split]].
      * intros _. right. exists c. split; [reflexivity | tauto].
      * reflexivity.
      * discriminate.
      * reflexivity.
      * intros c' Hc H1 H2. inversion Hc; subst c'. lia.
  - simpl. split; [split|split; [|split]]; try discriminate; try reflexivity.
    intros _. left. reflexivity.
Qed.

Lemma init_validation_witness :
  Audio.g_audio_config
    (snd (Audio.audio_processing_init Audio.cosf_unused
            Audio.malloc_succeeds Audio.dsps_accepts
            (Some (Audio.config_of 44100 1024 3)) Audio.startup))
  = Audio.config_of 44100 1024 3.
Proof.
  destruct (init_validation Audio.cosf_unused Audio.malloc_succeeds
              Audio.dsps_accepts (Some (Audio.config_of 44100 1024 3))
              Audio.startup) as (_ & _ & _ & H).
  destruct (H (Audio.config_of 44100 1024 3)) as [E _].
  - reflexivity.
  - simpl. lia.
  - simpl. lia.
  - exact E.
Defined.

(** C2 as stated fails.  A size of 100, which is not a power of two, passes
    the validation: the call returns whatever ESP-DSP answers, success
    included.  And a configuration that passes every check still fails to
    construct when the coefficient buffer cannot be allocated. *)
Lemma init_accepts_size_100 :
  Audio.is_power_of_two 100 = false /\
  fst (Audio.audio_processing_init Audio.cosf_unused Audio.malloc_succeeds
         Audio.dsps_accepts (Some (Audio.config_of 44100 100 3))
         Audio.startup) = ESP_OK /\
  fst (Audio.audio_processing_init Audio.cosf_unused Audio.malloc_succeeds
         Audio.dsps_refuses (Some (Audio.config_of 44100 100 3))
         Audio.startup) = ESP_ERR_OTHER 458753 /\
  Audio.is_power_of_two 1024 = true /\
  fst (Audio.audio_processing_init Audio.cosf_unused Audio.malloc_fails
         Audio.dsps_accepts (Some (Audio.config_of 44100 1024 3))
         Audio.startup) = ESP_ERR_NO_MEM.
Proof. vm_compute. repeat split. Qed.

(** C7, as the code has it.  When [generate_window_coeffs] fails with
    [ESP_ERR_NO_MEM], the old buffer has already been freed and the cache
    pointer is left null; the stored configuration and the initialised flag
    are as they were before the call. *)
Theorem failed_regeneration_empties_cache
    (cosf : F32.float -> F32.float) (malloc : Z -> bool)
    (wtype len : Z) (g : Audio.globals) :
  fst (Audio.generate_window_coeffs cosf malloc wtype len g)
    = ESP_ERR_NO_MEM ->
  let g' := snd (Audio.generate_window_coeffs cosf malloc wtype len g) in
  Audio.g_window_coeffs g' = None /\
  Audio.g_audio_config g' = Audio.g_audio_config g /\
  Audio.g_initialized g' = Audio.g_initialized g.
Proof.
  rewrite generate_result.
  destruct (malloc (Audio.alloc_size len)); simpl; [discriminate|].
  intros _. auto.
Qed.

Lemma failed_regeneration_empties_cache_witness :
  Audio.g_window_coeffs
    (snd (Audio.generate_window_coeffs Audio.cosf_unused Audio.malloc_fails
            3 64 Audio.primed)) = None.
Proof.
  destruct (failed_regeneration_empties_cache Audio.cosf_unused
              Audio.malloc_fails 3 64 Audio.primed) as (H & _).
  - reflexivity.
  - exact H.
Defined.

(** C7 as stated fails: with a valid 64-point cache in place, a
    regeneration whose allocation fails returns [ESP_ERR_NO_MEM] and leaves
    no cached buffer. *)
Lemma failed_regeneration_discards_buffer :
  Audio.g_window_coeffs Audio.primed = Some (replicate 64 (F32.of_Z 1)) /\
  Audio.generate_window_coeffs Audio.cosf_unused Audio.malloc_fails
    3 64 Audio.primed
  = (ESP_ERR_NO_MEM,
     {| Audio.g_audio_config := Audio.g_audio_config Audio.primed;
        Audio.g_initialized := true;
        Audio.g_window_coeffs := None |}).
Proof. split; reflexivity. Qed.

(** ** Window lengths *)

Section WindowLength.

Import Audio.

Variable cosf : F32.float -> F32.float.

Lemma apply_window_null samples out len wtype g :
  samples = None \/ out = None ->
  audio_apply_window cosf samples out len wtype g
  = (ESP_ERR_INVALID_ARG, out).
Proof.
  intros [->| ->]; [reflexivity|]. destruct samples; reflexivity.
Qed.

Lemma apply_window_ok src dst len wtype g :
  fst (audio_apply_window cosf (Some src) (Some dst) len wtype g) = ESP_OK.
Proof.
  unfold audio_apply_window.
  destruct (cached_coeffs g len wtype); [reflexivity|].
  destruct (_ || _); reflexivity.
Qed.

Lemma memcpy_floats_small len :
  0 <= len < 2 ^ 30 -> memcpy_floats len = len.
Proof.
  intros H. unfold memcpy_floats, alloc_size.
  rewrite Z.mod_small by lia. apply Z.div_mul. lia.
Qed.

Lemma memcpy_floats_negative len :
  - 2 ^ 30 <= len < 0 -> memcpy_floats len = 2 ^ 30 + len.
Proof.
  intros H. unfold memcpy_floats, alloc_size.
  replace (len * 4) with ((2 ^ 30 + len) * 4 + (-1) * 2 ^ 32) by lia.
  rewrite Z_mod_plus_full, Z.mod_small by lia. apply Z.div_mul. lia.
Qed.

Lemma apply_window_zero_length src dst wtype g :
  audio_apply_window cosf (Some src) (Some dst) 0 wtype g
  = (ESP_OK, Some dst).
Proof.
  unfold audio_apply_window.
  destruct (cached_coeffs g 0 wtype); [|destruct (_ || _)]; reflexivity.
Qed.

Lemma apply_window_no_iteration src dst len wtype g :
  len <= 0 ->
  cached_coeffs g len wtype <> None
  \/ (window_type_is_cosine wtype = true) ->
  audio_apply_window cosf (Some src) (Some dst) len wtype g
  = (ESP_OK, Some dst).
Proof.
  intros H Hb. unfold audio_apply_window.
  destruct (cached_coeffs g len wtype) as [coeffs|];
    [rewrite for_loop_empty by lia; reflexivity|].
  destruct Hb as [Hb|Hb]; [contradiction|].
  unfold window_type_is_cosine in Hb. rewrite Hb.
  rewrite for_loop_empty by lia. reflexivity.
Qed.

End WindowLength.

(** ** Spectral rolloff *)

Section Rolloff.

Import Audio.

Variable spectrum : list F32.float.
Variables size sample_rate : Z.
Variable energy_threshold : F32.float.

Lemma total_energy_step i :
  1 <= i ->
  total_energy spectrum (i + 1)
  = F32.add (total_energy spectrum i) (array_get spectrum i).
Proof. intros H. unfold total_energy. rewrite for_loop_snoc by lia. reflexivity. Qed.

(** The scan over the bins [lo .. lo+n-1], entered with the magnitude
    accumulated below [lo], stops at the first bin whose accumulated
    magnitude reaches the threshold. *)
Lemma rolloff_scan_first (n : nat) : forall lo,
  1 <= lo ->
  match rolloff_scan spectrum size sample_rate energy_threshold
          (total_energy spectrum lo) (seqZ lo (Z.of_nat n)) with
  | Some r =>
      exists i, lo <= i < lo + Z.of_nat n /\
        F32.ge (cumulative_energy spectrum i) energy_threshold = true /\
        (forall j, lo <= j < i ->
           F32.ge (cumulative_energy spectrum j) energy_threshold = false) /\
        r = bin_freq i size sample_rate
  | None =>
      forall i, lo <= i < lo + Z.of_nat n ->
        F32.ge (cumulative_energy spectrum i) energy_threshold = false
  end.
Proof.
  induction n as [|n IH]; intros lo Hlo.
  - simpl. intros i Hi. lia.
  - rewrite seqZ_cons by lia. simpl rolloff_scan.
    rewrite <- total_energy_step by assumption.
    replace (Z.pred (Z.of_nat (S n))) with (Z.of_nat n) by lia.
    destruct (F32.ge (total_energy spectrum (lo + 1)) energy_threshold)
      eqn:E.
    + exists lo. unfold cumulative_energy.
      repeat split; try assumption; try lia.
    + specialize (IH (Z.succ lo) ltac:(lia)).
      replace (Z.succ lo) with (lo + 1) in IH by lia.
      destruct (rolloff_scan _ _ _ _ _ _) as [r|].
      * destruct IH as (i & Hi & Hge & Hlt & Hr).
        exists i. repeat split; try assumption; try lia.
        intros j Hj. destruct (Z.eq_dec j lo) as [->|Hne];
          [exact E | apply Hlt; lia].
      * intros i Hi. destruct (Z.eq_dec i lo) as [->|Hne];
          [exact E | apply IH; lia].
Qed.

End Rolloff.

(** The silent spectrum: the threshold is 0 and the first bin reaches it. *)
Lemma rolloff_of_silence (size sample_rate : Z) (spectrum : list F32.float) :
  2 <= size -> Forall (fun x => x = F32.zero) spectrum ->
  Audio.spectral_rolloff_85 spectrum size sample_rate
  = Audio.bin_freq 1 size sample_rate.
Proof.
  intros Hs Hz.
  assert (Hget : forall i, array_get spectrum i = F32.zero).
  { intros i. unfold array_get. destruct (0 <=? i); [|reflexivity].
    match goal with
    | |- context [default _ ?o] => destruct o as [x|] eqn:E
    end; [|reflexivity].
    simpl. eapply Forall_lookup_1 in Hz; eauto. }
  assert (Htot : forall n : nat,
             Audio.total_energy spectrum (1 + Z.of_nat n) = F32.zero).
  { induction n as [|n IH]; [reflexivity|].
    replace (1 + Z.of_nat (S n)) with ((1 + Z.of_nat n) + 1) by lia.
    rewrite total_energy_step by lia. rewrite IH, Hget. reflexivity. }
  unfold Audio.spectral_rolloff_85, Audio.calculate_spectral_rolloff.
  assert (Hall : Audio.total_energy spectrum size = F32.zero).
  { replace size with (1 + Z.of_nat (Z.to_nat (size - 1))) by lia.
    apply Htot. }
  rewrite Hall. rewrite seqZ_cons by lia. simpl Audio.rolloff_scan.
  rewrite Hget. reflexivity.
Qed.

(** A flat spectrum of 256 bins at 44100 Hz: the rolloff is bin 217, less
    than one bin (86.1 Hz) away from 0.85 times Nyquist. *)
Example rolloff_of_flat_spectrum :
  let rolloff :=
    Audio.spectral_rolloff_85 (replicate 256 (F32.of_Z 1)) 256 44100 in
  rolloff = Audio.bin_freq 217 256 44100 /\
  F32.lt (F32.sub (F32.mul (F32.lit 85 100) (Audio.nyquist 44100)) rolloff)
         (Audio.bin_freq 1 256 44100) = true /\
  F32.gt (F32.mul (F32.lit 85 100) (Audio.nyquist 44100)) rolloff = true.
Proof. vm_compute. repeat split. Qed.

(** ** The order of [float] comparisons *)

Section FloatOrder.

(** On numbers, [SFcompare] is the lexicographic comparison of the
    ranks. *)
Lemma compare_rank a b :
  F32.is_nan a = false -> F32.is_nan b = false ->
  SFcompare a b = Some (F32.rank_compare (F32.rank a) (F32.rank b)).
Proof.
  intros Ha Hb.
  destruct a as [sa|sa| |sa ma ea]; try discriminate;
  destruct b as [sb|sb| |sb mb eb]; try discriminate;
  destruct sa; destruct sb; try reflexivity.
  - simpl. rewrite Z.compare_opp, (Z.compare_antisym ea eb).
    destruct (ea ?= eb); reflexivity.
Qed.

Lemma rank_compare_lt a b :
  F32.rank_compare a b = Lt <-> F32.rank_lt a b.
Proof.
  destruct a as [[a1 a2] a3], b as [[b1 b2] b3]. simpl.
  destruct (Z.compare_spec a1 b1); [|split; [lia | reflexivity]|split; [discriminate | lia]].
  destruct (Z.compare_spec a2 b2); [|split; [lia | reflexivity]|split; [discriminate | lia]].
  destruct (Z.compare_spec a3 b3); split; intros; try discriminate; try reflexivity; lia.
Qed.

Lemma rank_compare_le a b :
  (F32.rank_compare a b = Lt \/ F32.rank_compare a b = Eq)
  <-> ~ F32.rank_lt b a.
Proof.
  destruct a as [[a1 a2] a3], b as [[b1 b2] b3]. simpl.
  destruct (Z.compare_spec a1 b1); [|split; [lia | auto]|split; [intros [|]; discriminate | lia]].
  destruct (Z.compare_spec a2 b2); [|split; [lia | auto]|split; [intros [|]; discriminate | lia]].
  destruct (Z.compare_spec a3 b3); split; intros; auto; try lia.
  destruct H2; discriminate.
Qed.

(** [a > b] and [a >= b] on numbers, through the ranks. *)
Lemma gt_rank a b :
  F32.is_nan a = false -> F32.is_nan b = false ->
  (F32.gt a b = true <-> F32.rank_lt (F32.rank b) (F32.rank a)).
Proof.
  intros Ha Hb. unfold F32.gt, SFltb. rewrite compare_rank by assumption.
  rewrite <- rank_compare_lt.
  destruct (F32.rank_compare _ _); split; intros; try discriminate; reflexivity.
Qed.

Lemma ge_rank a b :
  F32.is_nan a = false -> F32.is_nan b = false ->
  (F32.ge a b = true <-> ~ F32.rank_lt (F32.rank a) (F32.rank b)).
Proof.
  intros Ha Hb. unfold F32.ge, SFleb. rewrite compare_rank by assumption.
  rewrite <- rank_compare_le.
  destruct (F32.rank_compare _ _); split; intros H; auto;
    try discriminate; destruct H; discriminate.
Qed.

Lemma nonneg_not_nan x : F32.nonneg x = true -> F32.is_nan x = false.
Proof. destruct x; simpl; auto; discriminate. Qed.

End FloatOrder.

Section SignFacts.

Lemma shr_1_nonneg mrs : 0 <= shr_m mrs -> 0 <= shr_m (shr_1 mrs).
Proof.
  destruct mrs as [m r s]. simpl.
  destruct m as [|p|p]; [intros _; simpl; lia| |lia].
  intros _. destruct p; simpl; lia.
Qed.

Lemma iter_shr_1_nonneg p : forall mrs,
  0 <= shr_m mrs -> 0 <= shr_m (SpecFloat.iter_pos shr_1 p mrs).
Proof.
  induction p as [p IH|p IH|]; intros mrs H; simpl.
  - apply IH, IH, shr_1_nonneg, H.
  - apply IH, IH, H.
  - apply shr_1_nonneg, H.
Qed.

Lemma shr_nonneg mrs e n : 0 <= shr_m mrs -> 0 <= shr_m (fst (shr mrs e n)).
Proof.
  intros H. unfold shr. destruct n; simpl; try assumption.
  apply iter_shr_1_nonneg, H.
Qed.

Lemma shr_record_of_loc_m m l : shr_m (shr_record_of_loc m l) = m.
Proof. destruct l as [|[]]; reflexivity. Qed.

Lemma shr_fexp_nonneg m e l :
  0 <= m -> 0 <= shr_m (fst (shr_fexp F32.prec F32.emax m e l)).
Proof.
  intros H. unfold shr_fexp. apply shr_nonneg.
  rewrite shr_record_of_loc_m. exact H.
Qed.

Lemma round_nearest_even_nonneg m l : 0 <= m -> 0 <= round_nearest_even m l.
Proof.
  intros H. unfold round_nearest_even.
  destruct l as [|[]]; try destruct (Z.even m); lia.
Qed.

(** Rounding a non-negative mantissa with a positive sign bit gives a
    number that is not negative (and not a NaN). *)
Lemma binary_round_aux_nonneg m e l :
  0 <= m ->
  F32.nonneg (binary_round_aux F32.prec F32.emax false m e l) = true.
Proof.
  intros H. unfold binary_round_aux.
  pose proof (shr_fexp_nonneg m e l H) as H1.
  destruct (shr_fexp F32.prec F32.emax m e l) as [mrs' e'].
  simpl in H1.
  pose proof (shr_fexp_nonneg
                (round_nearest_even (shr_m mrs') (loc_of_shr_record mrs'))
                e' loc_Exact
                (round_nearest_even_nonneg _ _ H1)) as H2.
  destruct (shr_fexp F32.prec F32.emax _ e' loc_Exact) as [mrs'' e''].
  simpl in H2.
  destruct (shr_m mrs'') as [|p|p]; [reflexivity| |lia].
  destruct (e'' <=? _); reflexivity.
Qed.

Lemma binary_round_nonneg m e :
  F32.nonneg (binary_round F32.prec F32.emax false m e) = true.
Proof.
  unfold binary_round.
  destruct (shl_align m e _) as [mz ez].
  apply binary_round_aux_nonneg. lia.
Qed.

Lemma add_nonneg a b :
  F32.nonneg a = true -> F32.nonneg b = true ->
  F32.nonneg (F32.add a b) = true.
Proof.
  unfold F32.add.
  destruct a as [sa|sa| |sa ma ea]; try discriminate;
  destruct b as [sb|sb| |sb mb eb]; try discriminate;
  simpl; intros Ha Hb;
  try (destruct sa; try discriminate);
  try (destruct sb; try discriminate); try reflexivity.
  unfold binary_normalize. simpl.
  apply binary_round_nonneg.
Qed.

(** The product of a finite non-negative number by a table entry. *)
Lemma mul_template_nonneg x t :
  F32.nonneg x = true -> F32.is_finite x = true ->
  t = F32.of_Z 0 \/ t = F32.of_Z 1 ->
  F32.nonneg (F32.mul x t) = true.
Proof.
  intros Hx Hf [->| ->]; unfold F32.mul.
  - destruct x as [sx|sx| |sx mx ex]; try discriminate; reflexivity.
  - destruct x as [sx|sx| |sx mx ex]; try discriminate; [reflexivity|].
    destruct sx; [discriminate|].
    change (F32.of_Z 1) with (S754_finite false 8388608 (-23)).
    unfold SFmul. apply binary_round_aux_nonneg. lia.
Qed.

End SignFacts.

(** ** The chord recogniser *)

Lemma for_loop_invariant {S} (P : S -> Prop) lo hi (body : Z -> S -> S) s :
  P s ->
  (forall i s, lo <= i < hi -> P s -> P (body i s)) ->
  P (for_loop lo hi body s).
Proof.
  intros Hs Hstep. unfold for_loop.
  assert (Hin : forall i, i ∈ seqZ lo (hi - lo) -> lo <= i < hi).
  { intros i Hi. apply elem_of_seqZ in Hi. lia. }
  revert s Hs Hin. induction (seqZ lo (hi - lo)) as [|i l IH]; intros s Hs Hin.
  - exact Hs.
  - simpl. apply IH.
    + apply Hstep; [apply Hin; left | exact Hs].
    + intros j Hj. apply Hin. right. exact Hj.
Qed.

Lemma array_get_cases (a : list F32.float) i :
  array_get a i = F32.zero \/ array_get a i ∈ a.
Proof.
  unfold array_get. destruct (0 <=? i); [|left; reflexivity].
  match goal with
  | |- context [default _ ?o] => destruct o as [x|] eqn:E
  end; [right|left; reflexivity].
  simpl. eapply list_elem_of_lookup_2. exact E.
Qed.

Section RankOrder.

Lemma rank_lt_irrefl a : ~ F32.rank_lt a a.
Proof. destruct a as [[a1 a2] a3]. simpl. lia. Qed.

Lemma rank_lt_trans a b c :
  F32.rank_lt a b -> F32.rank_lt b c -> F32.rank_lt a c.
Proof.
  destruct a as [[a1 a2] a3], b as [[b1 b2] b3], c as [[c1 c2] c3].
  simpl. lia.
Qed.

Lemma rank_le_lt_trans a b c :
  ~ F32.rank_lt b a -> F32.rank_lt b c -> F32.rank_lt a c.
Proof.
  destruct a as [[a1 a2] a3], b as [[b1 b2] b3], c as [[c1 c2] c3].
  simpl. lia.
Qed.

Lemma rank_lt_le_trans a b c :
  F32.rank_lt a b -> ~ F32.rank_lt c b -> F32.rank_lt a c.
Proof.
  destruct a as [[a1 a2] a3], b as [[b1 b2] b3], c as [[c1 c2] c3].
  simpl. lia.
Qed.

Lemma rank_le_trans a b c :
  ~ F32.rank_lt b a -> ~ F32.rank_lt c b -> ~ F32.rank_lt c a.
Proof.
  destruct a as [[a1 a2] a3], b as [[b1 b2] b3], c as [[c1 c2] c3].
  simpl. lia.
Qed.

Lemma rank_nonneg x :
  F32.nonneg x = true -> ~ F32.rank_lt (F32.rank x) (F32.rank F32.zero).
Proof.
  destruct x as [s|s| |s m e]; simpl; try discriminate;
    try (destruct s; simpl; try discriminate); lia.
Qed.

Lemma gt_false_rank a b :
  F32.is_nan a = false -> F32.is_nan b = false ->
  (F32.gt a b = false <-> ~ F32.rank_lt (F32.rank b) (F32.rank a)).
Proof.
  intros Ha Hb. rewrite <- (gt_rank a b Ha Hb).
  destruct (F32.gt a b); split; intros H; auto; try discriminate.
  exfalso. apply H. reflexivity.
Qed.

End RankOrder.

Section ChordFacts.

Import Chord.

Lemma template_entry c i :
  array_get (template c) i = F32.of_Z 0 \/
  array_get (template c) i = F32.of_Z 1.
Proof.
  assert (Htab : Forall (Forall (fun t => t = F32.of_Z 0 \/ t = F32.of_Z 1))
                        chord_templates).
  { unfold chord_templates, chord_table.
    cbn [map].
    repeat first [left; reflexivity | right; reflexivity | constructor]. }
  generalize (array_get_cases (template c) i).
  unfold template. destruct (0 <=? c); [|intros [H|H]; [auto | inversion H]].
  destruct (chord_templates !! Z.to_nat c) as [row|] eqn:E;
    [|intros [H|H]; [auto | inversion H]].
  cbn [default]. intros [H|H]; [left; exact H|].
  eapply Forall_lookup_1 in Htab; [|exact E].
  eapply Forall_forall in Htab; [exact Htab | exact H].
Qed.

Variable chroma : list F32.float.
Hypothesis chroma_valid : Forall chroma_ok chroma.

Lemma chroma_entry i : chroma_ok (array_get chroma i).
Proof.
  destruct (array_get_cases chroma i) as [H|H].
  - rewrite H. split; reflexivity.
  - eapply Forall_forall in chroma_valid; eauto.
Qed.

Lemma correlation_nonneg c : F32.nonneg (correlation chroma c) = true.
Proof.
  unfold correlation. apply for_loop_invariant; [reflexivity|].
  intros i acc _ Hacc. apply add_nonneg; [exact Hacc|].
  destruct (chroma_entry i) as [Hn Hf].
  apply mul_template_nonneg; [exact Hn | exact Hf | apply template_entry].
Qed.

Lemma correlation_not_nan c : F32.is_nan (correlation chroma c) = false.
Proof. apply nonneg_not_nan, correlation_nonneg. Qed.

Lemma best_so_far_step n best :
  0 <= n -> best_so_far chroma n best ->
  best_so_far chroma (n + 1) (match_step chroma n best).
Proof.
  destruct best as [bm bc]. intros Hn (Hnn & Hbc & Hmax & Hcase).
  unfold match_step. cbn [fst].
  pose proof (nonneg_not_nan _ Hnn) as Hbm.
  pose proof (correlation_not_nan n) as Hcn.
  destruct (F32.gt (correlation chroma n) bm) eqn:E.
  - apply gt_rank in E; [|assumption|assumption].
    unfold best_so_far. split; [apply correlation_nonneg|].
    split; [lia|]. split.
    + intros c Hc. apply gt_false_rank;
        [apply correlation_not_nan | assumption |].
      destruct (Z.eq_dec c n) as [->|Hne]; [apply rank_lt_irrefl|].
      specialize (Hmax c ltac:(lia)).
      apply gt_false_rank in Hmax;
        [|apply correlation_not_nan | assumption].
      intros H. apply Hmax. eapply rank_lt_trans; eassumption.
    + left. split; [reflexivity|]. split; [lia|].
      intros c Hc. specialize (Hmax c ltac:(lia)).
      apply gt_false_rank in Hmax;
        [|apply correlation_not_nan | assumption].
      apply gt_rank; [assumption | apply correlation_not_nan |].
      eapply rank_le_lt_trans; eassumption.
  - unfold best_so_far. split; [assumption|]. split; [assumption|]. split.
    + intros c Hc. destruct (Z.eq_dec c n) as [->|Hne]; [exact E|].
      apply Hmax. lia.
    + destruct Hcase as [(H1 & H2 & H3)|H]; [left|right; exact H].
      split; [assumption|]. split; [lia | assumption].
Qed.

Lemma best_so_far_all : best_so_far chroma 24 (match_templates chroma).
Proof.
  unfold match_templates, CHORD_TEMPLATES.
  assert (H : forall n : nat, (n <= 24)%nat ->
              best_so_far chroma (Z.of_nat n)
                (for_loop 0 (Z.of_nat n) (match_step chroma) (F32.zero, 0))).
  { induction n as [|n IH]; intros Hn.
    - simpl. split; [reflexivity|]. split; [lia|]. split; [intros; lia|].
      right. split; reflexivity.
    - replace (Z.of_nat (S n)) with (Z.of_nat n + 1) by lia.
      rewrite for_loop_snoc by lia.
      apply best_so_far_step; [lia | apply IH; lia]. }
  apply (H 24%nat). lia.
Qed.

(** The winner is the first template of maximal correlation. *)
Lemma match_templates_first_maximum :
  let best_match := fst (match_templates chroma) in
  let best_chord := snd (match_templates chroma) in
  0 <= best_chord < 24 /\
  (forall c, 0 <= c < 24 ->
     F32.ge (correlation chroma best_chord) (correlation chroma c) = true) /\
  (forall c, 0 <= c < best_chord ->
     F32.gt (correlation chroma best_chord) (correlation chroma c) = true) /\
  (best_match = correlation chroma best_chord \/ best_match = F32.zero).
Proof.
  pose proof best_so_far_all as H.
  destruct (match_templates chroma) as [bm bc]. cbn [fst snd].
  destruct H as (Hnn & Hbc & Hmax & [(H1 & H2 & H3)|(H1 & H2)]).
  - split; [lia|]. split; [|split; [|left; exact H1]].
    + intros c Hc. rewrite <- H1.
      apply ge_rank; [apply nonneg_not_nan, Hnn | apply correlation_not_nan|].
      apply gt_false_rank;
        [apply correlation_not_nan | apply nonneg_not_nan, Hnn|].
      apply Hmax, Hc.
    + intros c Hc. rewrite <- H1. apply H3, Hc.
  - subst bm bc. split; [lia|]. split; [|split; [intros; lia | right; reflexivity]].
    intros c Hc.
    apply ge_rank; [apply correlation_not_nan | apply correlation_not_nan|].
    pose proof (Hmax c Hc) as Hc0. pose proof (Hmax 0 ltac:(lia)) as H00.
    apply gt_false_rank in Hc0; [|apply correlation_not_nan | reflexivity].
    pose proof (rank_nonneg _ (correlation_nonneg 0)) as Hz.
    eapply rank_le_trans; eassumption.
Qed.

End ChordFacts.

(** C9, as the code has it.  When the winning correlation does not exceed
    0.3, [analyze_chords] leaves [root_note], [chord_type] and [confidence]
    as they were; when it does, the confidence becomes that correlation.
    The chroma snapshot does not depend on the correlation: it is
    overwritten with the normalised chroma of the frame whenever the
    accumulated chroma sum is positive, and kept otherwise. *)
Theorem weak_match_keeps_chord (log2f : F32.float -> F32.float)
    (spectrum : list F32.float) (cur : Chord.chord_info_t) :
  let r := Chord.analyze_chords log2f spectrum cur in
  let raw := Audio.chroma_bins log2f spectrum Chord.FREQ_BINS
                               Chord.I2S_SAMPLE_RATE in
  let w := Chord.winning_correlation log2f spectrum in
  (F32.gt w (F32.lit 3 10) = false ->
   Chord.root_note r = Chord.root_note cur /\
   Chord.chord_type r = Chord.chord_type cur /\
   Chord.confidence r = Chord.confidence cur) /\
  (F32.gt w (F32.lit 3 10) = true -> Chord.confidence r = w) /\
  Chord.chroma r =
    if F32.gt (accumulate raw) F32.zero
    then map (fun c => F32.div c (accumulate raw)) raw
    else Chord.chroma cur.
Proof.
  intros r raw w. subst r w.
  unfold Chord.analyze_chords, Chord.winning_correlation,
    Audio.normalize_chroma.
  fold raw.
  destruct (F32.gt (accumulate raw) F32.zero);
    unfold Chord.update_chord;
    destruct (Chord.match_templates _) as [bm bc]; cbn [fst];
    destruct (F32.gt bm (F32.lit 3 10)); cbn;
    repeat split; intros; try discriminate; reflexivity.
Qed.

Lemma weak_match_keeps_chord_witness :
  Chord.root_note
    (Chord.analyze_chords Chord.log2f_ref Chord.scattered_spectrum
       Chord.startup) = 0.
Proof.
  destruct (weak_match_keeps_chord Chord.log2f_ref Chord.scattered_spectrum
              Chord.startup) as (H & _).
  destruct H as (H & _).
  - vm_compute. reflexivity.
  - rewrite H. reflexivity.
Defined.

(** C9 as stated fails.  Seven equal bins spread over seven neighbouring
    pitch classes give a winning correlation of 2/7, below 0.3: root, type
    and confidence stay, but the chroma snapshot is replaced. *)
Lemma weak_match_overwrites_chroma :
  let r := Chord.analyze_chords Chord.log2f_ref Chord.scattered_spectrum
                                Chord.startup in
  F32.gt (Chord.winning_correlation Chord.log2f_ref Chord.scattered_spectrum)
         (F32.lit 3 10) = false /\
  Chord.root_note r = Chord.root_note Chord.startup /\
  Chord.chord_type r = Chord.chord_type Chord.startup /\
  Chord.confidence r = Chord.confidence Chord.startup /\
  Chord.chroma r <> Chord.chroma Chord.startup.
Proof. vm_compute. repeat split. discriminate. Qed.

(** ** The numbers behind the [float] operations *)

Section PowersOfTwo.

Lemma pow2_pos e : (0 < F32.pow2 e)%Q.
Proof. unfold F32.pow2. apply Qpower_0_lt. reflexivity. Qed.

Lemma pow2_add a b : (F32.pow2 (a + b) == F32.pow2 a * F32.pow2 b)%Q.
Proof. unfold F32.pow2. apply Qpower_plus. discriminate. Qed.

Lemma pow2_succ e : (F32.pow2 (e + 1) == 2 * F32.pow2 e)%Q.
Proof. rewrite pow2_add. unfold F32.pow2 at 2. simpl. ring. Qed.

Lemma pow2_pred e : (F32.pow2 (e - 1) == (1 # 2) * F32.pow2 e)%Q.
Proof.
  replace e with ((e - 1) + 1) at 2 by lia. rewrite pow2_succ. field.
Qed.

Lemma pow2_Z n : 0 <= n -> (F32.pow2 n == inject_Z (2 ^ n))%Q.
Proof.
  intros H. unfold F32.pow2.
  rewrite <- (Z2Nat.id n H). generalize (Z.to_nat n). clear. intros k.
  induction k as [|k IH].
  - reflexivity.
  - rewrite Nat2Z.inj_succ. unfold Z.succ.
    rewrite Qpower_plus by discriminate. rewrite IH.
    rewrite Z.pow_add_r by lia. rewrite inject_Z_mult.
    change (2 ^ 1)%Q with 2%Q. change (2 ^ 1) with 2. reflexivity.
Qed.

Lemma pow2_le a b : a <= b -> (F32.pow2 a <= F32.pow2 b)%Q.
Proof.
  intros H. replace b with (a + (b - a)) by lia.
  pose proof (pow2_add a (b - a)) as E1.
  pose proof (pow2_Z (b - a) ltac:(lia)) as E2.
  assert (1 <= 2 ^ (b - a)) by (apply Z.pow_le_mono_r with (a := 2) (b := 0) (c := b - a); lia).
  assert (H1 : (1 <= inject_Z (2 ^ (b - a)))%Q).
  { change 1%Q with (inject_Z 1). rewrite <- Zle_Qle. assumption. }
  pose proof (pow2_pos a). nra.
Qed.

(** The number of binary digits of a positive mantissa. *)
Lemma digits2_bounds m :
  2 ^ (Zpos (digits2_pos m) - 1) <= Zpos m < 2 ^ Zpos (digits2_pos m).
Proof.
  induction m as [m IH|m IH|]; simpl digits2_pos.
  - rewrite Pos2Z.inj_succ.
    replace (Z.succ (Zpos (digits2_pos m)) - 1) with (Z.succ (Zpos (digits2_pos m) - 1)) by lia.
    rewrite !Z.pow_succ_r by lia. lia.
  - rewrite Pos2Z.inj_succ.
    replace (Z.succ (Zpos (digits2_pos m)) - 1) with (Z.succ (Zpos (digits2_pos m) - 1)) by lia.
    rewrite !Z.pow_succ_r by lia. lia.
  - simpl. lia.
Qed.

Lemma Zdigits2_bounds m :
  0 < m -> 2 ^ (Zdigits2 m - 1) <= m < 2 ^ Zdigits2 m.
Proof.
  destruct m as [|p|p]; try lia. intros _. apply digits2_bounds.
Qed.

Lemma Zdigits2_nonneg m : 0 <= Zdigits2 m.
Proof. destruct m; simpl; lia. Qed.

Lemma Zdigits2_le m k : 0 <= k -> 0 <= m < 2 ^ k -> Zdigits2 m <= k.
Proof.
  intros Hk [H0 H]. destruct (Z.eq_dec m 0) as [->|Hne]; [simpl; lia|].
  pose proof (Zdigits2_bounds m ltac:(lia)) as [Hlo _].
  pose proof (Zdigits2_nonneg m).
  destruct (Z_le_gt_dec (Zdigits2 m) k) as [|Hgt]; [assumption|].
  assert (2 ^ k <= 2 ^ (Zdigits2 m - 1)) by (apply Z.pow_le_mono_r; lia).
  lia.
Qed.

End PowersOfTwo.

Section Shifting.

Lemma inject_xO p : (inject_Z (Zpos p~0) == 2 * inject_Z (Zpos p))%Q.
Proof. rewrite Pos2Z.inj_xO, inject_Z_mult. reflexivity. Qed.

Lemma inject_xI p : (inject_Z (Zpos p~1) == 2 * inject_Z (Zpos p) + 1)%Q.
Proof. rewrite Pos2Z.inj_xI, inject_Z_plus, inject_Z_mult. reflexivity. Qed.

(** One shift to the right halves the number a record stands for. *)
Lemma shr_1_repr mrs t :
  0 <= shr_m mrs -> F32.repr mrs t -> F32.repr (shr_1 mrs) (t * (1 # 2))%Q.
Proof.
  destruct mrs as [m r s]. unfold F32.repr. cbn [shr_m shr_r shr_s].
  intros Hm H. destruct m as [|p|p]; [| |lia].
  - cbn [shr_1 shr_m shr_r shr_s].
    change (inject_Z 0) with 0%Q in *.
    destruct r, s; unfold F32.frac_ok in *; cbn [orb]; lra.
  - destruct p as [p|p|].
    + cbn [shr_1 shr_m shr_r shr_s]. pose proof (inject_xI p) as E.
      destruct r, s; unfold F32.frac_ok in *; cbn [orb]; lra.
    + cbn [shr_1 shr_m shr_r shr_s]. pose proof (inject_xO p) as E.
      destruct r, s; unfold F32.frac_ok in *; cbn [orb]; lra.
    + cbn [shr_1 shr_m shr_r shr_s].
      change (inject_Z 1) with 1%Q in *. change (inject_Z 0) with 0%Q.
      destruct r, s; unfold F32.frac_ok in *; cbn [orb]; lra.
Qed.

Lemma iter_shr_1_repr p : forall mrs t,
  0 <= shr_m mrs -> F32.repr mrs t ->
  F32.repr (SpecFloat.iter_pos shr_1 p mrs) (t * F32.pow2 (- Zpos p))%Q.
Proof.
  assert (Hhalf : (F32.pow2 (-1) == 1 # 2)%Q) by reflexivity.
  assert (Hext : forall mrs a b, (a == b)%Q -> F32.repr mrs a -> F32.repr mrs b).
  { intros mrs a b E. unfold F32.repr, F32.frac_ok.
    destruct (shr_r mrs), (shr_s mrs); lra. }
  induction p as [p IH|p IH|]; intros mrs t Hm H; cbn [SpecFloat.iter_pos].
  - apply Hext with
      (a := (t * (1 # 2) * F32.pow2 (- Zpos p) * F32.pow2 (- Zpos p))%Q).
    + replace (- Zpos p~1) with (-1 + (- Zpos p + - Zpos p)) by lia.
      rewrite !pow2_add, Hhalf. ring.
    + apply IH; [apply iter_shr_1_nonneg, shr_1_nonneg, Hm|].
      apply IH; [apply shr_1_nonneg, Hm|].
      apply shr_1_repr; assumption.
  - apply Hext with (a := (t * F32.pow2 (- Zpos p) * F32.pow2 (- Zpos p))%Q).
    + replace (- Zpos p~0) with (- Zpos p + - Zpos p) by lia.
      rewrite !pow2_add. ring.
    + apply IH; [apply iter_shr_1_nonneg, Hm|].
      apply IH; assumption.
  - apply Hext with (a := (t * (1 # 2))%Q); [reflexivity|].
    apply shr_1_repr; assumption.
Qed.

(** [shr mrs e n] keeps the number [t * 2^e]: the new record stands for
    [t] scaled to the new exponent, which is [e + max n 0]. *)
Lemma shr_repr mrs e n t :
  0 <= shr_m mrs -> F32.repr mrs t ->
  snd (shr mrs e n) = e + Z.max n 0 /\
  F32.repr (fst (shr mrs e n)) (t * F32.pow2 (- Z.max n 0))%Q.
Proof.
  intros Hm H. unfold shr. destruct n as [|p|p]; cbn [fst snd].
  - split; [lia|]. unfold F32.repr in *.
    change (F32.pow2 (- Z.max 0 0)) with 1%Q.
    destruct (shr_r mrs), (shr_s mrs); unfold F32.frac_ok in *; lra.
  - split; [lia|]. replace (Z.max (Zpos p) 0) with (Zpos p) by lia.
    apply iter_shr_1_repr; assumption.
  - split; [lia|]. unfold F32.repr in *.
    replace (Z.max (Zneg p) 0) with 0 by lia.
    change (F32.pow2 (- 0)) with 1%Q.
    destruct (shr_r mrs), (shr_s mrs); unfold F32.frac_ok in *; lra.
Qed.

Lemma repr_of_loc_bounds m l t :
  F32.repr (shr_record_of_loc m l) t ->
  (inject_Z m <= t /\ t < inject_Z m + 1)%Q.
Proof.
  unfold F32.repr.
  destruct l as [|[]]; cbn [shr_record_of_loc shr_m shr_r shr_s];
    unfold F32.frac_ok; lra.
Qed.

Lemma repr_bounds mrs t :
  F32.repr mrs t ->
  (inject_Z (shr_m mrs) <= t /\ t < inject_Z (shr_m mrs) + 1)%Q.
Proof.
  unfold F32.repr. destruct (shr_r mrs), (shr_s mrs); unfold F32.frac_ok; lra.
Qed.

(** Rounding to nearest moves the number by at most one half. *)
Lemma round_nearest_even_repr mrs t :
  F32.repr mrs t ->
  let mr := round_nearest_even (shr_m mrs) (loc_of_shr_record mrs) in
  (inject_Z mr - t <= 1 # 2 /\ t - inject_Z mr <= 1 # 2)%Q /\
  shr_m mrs <= mr <= shr_m mrs + 1 /\
  (shr_r mrs = false -> shr_s mrs = false -> (inject_Z mr == t)%Q).
Proof.
  destruct mrs as [m r s]. unfold F32.repr. cbn [shr_m shr_r shr_s].
  intros H. cbn zeta.
  pose proof (inject_Z_plus m 1) as E. change (inject_Z 1) with 1%Q in E.
  destruct r, s; cbn [loc_of_shr_record round_nearest_even];
    unfold F32.frac_ok in H;
    try destruct (Z.even m); repeat split; try lia; try lra;
    intros; try discriminate; try lra; rewrite E; lra.
Qed.

End Shifting.

Section Rounding.

Lemma fexp_eq e : fexp F32.prec F32.emax e = Z.max (e - 24) (-149).
Proof. reflexivity. Qed.

Lemma shr_nonpos mrs e n : n <= 0 -> shr mrs e n = (mrs, e).
Proof. intros H. destruct n; try reflexivity. lia. Qed.

Lemma inject_Z_lt_inv a b : (inject_Z a < inject_Z b)%Q -> a < b.
Proof. intros H. rewrite Zlt_Qlt. exact H. Qed.

(** The second alignment of [binary_round_aux] changes the mantissa only
    when rounding has carried into a 25th bit, and then exactly. *)
Lemma renormalize (mr e' : Z) :
  0 <= mr <= 2 ^ 24 -> -149 <= e' ->
  let r := shr_fexp F32.prec F32.emax mr e' loc_Exact in
  (inject_Z (shr_m (fst r)) * F32.pow2 (snd r)
   == inject_Z mr * F32.pow2 e')%Q /\
  0 <= shr_m (fst r) < 2 ^ 24 /\ -149 <= snd r /\
  (0 < mr -> 0 < shr_m (fst r)).
Proof.
  intros Hm He. cbn zeta. unfold shr_fexp. rewrite fexp_eq.
  destruct (Z.eq_dec mr (2 ^ 24)) as [->|Hne].
  - change (Zdigits2 (2 ^ 24)) with 25.
    replace (Z.max (25 + e' - 24) (-149) - e') with 1 by lia.
    cbn [shr shr_record_of_loc SpecFloat.iter_pos shr_1 fst snd shr_m].
    change (2 ^ 24) with 16777216.
    cbn [shr_1 shr_m fst snd].
    repeat split; try lia.
    rewrite pow2_succ.
    change (inject_Z 16777216) with (2 * inject_Z 8388608)%Q. ring.
  - assert (Hd : Zdigits2 mr <= 24) by (apply Zdigits2_le; lia).
    rewrite shr_nonpos by lia. cbn [fst snd].
    rewrite shr_record_of_loc_m. repeat split; try lia. 
Qed.

(** The mantissa and exponent [binary_round_aux] decides on stand for a
    number within half a unit of the last place of the number given, and
    for that very number when no bit is dropped. *)
Lemma round_core_spec (mx ex : Z) (lx : location) (t : Q) :
  0 <= mx -> F32.repr (shr_record_of_loc mx lx) t ->
  let e' := Z.max ex (fexp F32.prec F32.emax (Zdigits2 mx + ex)) in
  let m'' := fst (F32.round_core mx ex lx) in
  let e'' := snd (F32.round_core mx ex lx) in
  0 <= m'' < 2 ^ 24 /\ -149 <= e'' /\
  (inject_Z m'' * F32.pow2 e'' - t * F32.pow2 ex <= F32.pow2 (e' - 1))%Q /\
  (t * F32.pow2 ex - inject_Z m'' * F32.pow2 e'' <= F32.pow2 (e' - 1))%Q /\
  (lx = loc_Exact -> fexp F32.prec F32.emax (Zdigits2 mx + ex) <= ex ->
   (inject_Z m'' * F32.pow2 e'' == t * F32.pow2 ex)%Q).
Proof.
  intros Hmx Hrep. cbn zeta.
  set (d := Zdigits2 mx). set (fe := fexp F32.prec F32.emax (d + ex)).
  set (n := Z.max (fe - ex) 0).
  assert (Hfe : fe = Z.max (d + ex - 24) (-149)) by apply fexp_eq.
  assert (He' : Z.max ex fe = ex + n) by (unfold n; lia).
  (* first alignment *)
  assert (Hm0 : 0 <= shr_m (shr_record_of_loc mx lx))
    by (rewrite shr_record_of_loc_m; exact Hmx).
  destruct (shr_repr (shr_record_of_loc mx lx) ex (fe - ex) t Hm0 Hrep)
    as [Hs1 Hr1].
  fold n in Hs1, Hr1.
  unfold F32.round_core.
  change (shr_fexp F32.prec F32.emax mx ex lx)
    with (shr (shr_record_of_loc mx lx) ex (fe - ex)).
  destruct (shr (shr_record_of_loc mx lx) ex (fe - ex)) as [mrs' e1] eqn:E1.
  cbn [fst snd] in Hs1, Hr1. subst e1.
  set (t' := (t * F32.pow2 (- n))%Q) in *.
  assert (Hm' : 0 <= shr_m mrs').
  { pose proof (shr_nonneg (shr_record_of_loc mx lx) ex (fe - ex) Hm0) as H.
    rewrite E1 in H. exact H. }
  (* the scaled number is below 2^24 *)
  assert (Ht : (t < F32.pow2 d)%Q).
  { destruct (repr_of_loc_bounds _ _ _ Hrep) as [_ Hlt].
    assert (Hd : mx + 1 <= 2 ^ d).
    { destruct (Z.eq_dec mx 0) as [->|Hne]; [reflexivity|].
      pose proof (Zdigits2_bounds mx ltac:(lia)). fold d in H. lia. }
    pose proof (pow2_Z d (Zdigits2_nonneg mx)) as Ed.
    assert (Hq : (inject_Z (mx + 1) <= inject_Z (2 ^ d))%Q)
      by (rewrite <- Zle_Qle; exact Hd).
    rewrite inject_Z_plus in Hq. change (inject_Z 1) with 1%Q in Hq. lra. }
  assert (Ht' : (t' < F32.pow2 24)%Q).
  { unfold t'. pose proof (pow2_pos (- n)) as Hp.
    pose proof (pow2_add d (- n)) as Ea.
    pose proof (pow2_le (d + - n) 24 ltac:(unfold n; lia)) as Hle.
    nra. }
  destruct (repr_bounds _ _ Hr1) as [Hlo Hhi].
  assert (Hm24 : shr_m mrs' < 2 ^ 24).
  { apply inject_Z_lt_inv. pose proof (pow2_Z 24 ltac:(lia)) as E24. lra. }
  (* rounding *)
  destruct (round_nearest_even_repr _ _ Hr1) as ((Hup & Hdn) & Hmr & Hex).
  set (mr := round_nearest_even (shr_m mrs') (loc_of_shr_record mrs')) in *.
  (* second alignment *)
  destruct (renormalize mr (ex + n) ltac:(lia) ltac:(unfold n; lia))
    as (Hval & Hrange & Hexp & _).
  destruct (shr_fexp F32.prec F32.emax mr (ex + n) loc_Exact)
    as [mrs'' e''] eqn:E2.
  cbn [fst snd] in *.
  assert (Hscale : (t' * F32.pow2 (ex + n) == t * F32.pow2 ex)%Q).
  { unfold t'. pose proof (pow2_add (- n) (ex + n)) as Ea.
    replace (- n + (ex + n)) with ex in Ea by lia.
    rewrite <- Qmult_assoc, <- Ea. reflexivity. }
  pose proof (pow2_pos (ex + n)) as Hp.
  pose proof (pow2_pred (ex + n)) as Hhalf.
  rewrite He'.
  split; [exact Hrange|]. split; [exact Hexp|].
  split; [|split].
  - rewrite Hval, <- Hscale. nra.
  - rewrite Hval, <- Hscale. nra.
  - intros Hl Hns. rewrite Hval, <- Hscale.
    assert (Hn0 : n = 0) by (unfold n; lia).
    assert (Hsame : mrs' = shr_record_of_loc mx loc_Exact).
    { rewrite shr_nonpos in E1 by lia. inversion E1. subst lx. reflexivity. }
    assert (Heq : (inject_Z mr == t')%Q).
    { apply Hex; rewrite Hsame; reflexivity. }
    rewrite Heq. reflexivity.
Qed.

End Rounding.

Section Addition.

Lemma binary_round_aux_core s mx ex lx :
  binary_round_aux F32.prec F32.emax s mx ex lx =
  match fst (F32.round_core mx ex lx) with
  | Z0 => S754_zero s
  | Zpos m =>
      if snd (F32.round_core mx ex lx) <=? 104
      then S754_finite s m (snd (F32.round_core mx ex lx))
      else S754_infinity s
  | Zneg _ => S754_nan
  end.
Proof.
  unfold binary_round_aux, F32.round_core.
  destruct (shr_fexp F32.prec F32.emax mx ex lx) as [mrs' e'].
  destruct (shr_fexp F32.prec F32.emax _ e' loc_Exact) as [mrs'' e''].
  reflexivity.
Qed.

Lemma iter_xO_value d : forall m,
  Zpos (Pos.iter xO m d) = Zpos m * 2 ^ Zpos d.
Proof.
  induction d as [|d IH] using Pos.peano_ind; intros m.
  - simpl. lia.
  - rewrite Pos.iter_succ, Pos2Z.inj_xO, IH, Pos2Z.inj_succ.
    rewrite Z.pow_succ_r by lia. lia.
Qed.

(** [shl_align] lowers the exponent and keeps the number. *)
Lemma shl_align_value m e e0 :
  let r := shl_align m e e0 in
  snd r = Z.min e e0 /\
  (inject_Z (Zpos (fst r)) * F32.pow2 (snd r)
   == inject_Z (Zpos m) * F32.pow2 e)%Q.
Proof.
  cbn zeta. unfold shl_align. destruct (e0 - e) as [|p|p] eqn:E; cbn [fst snd].
  - split; [lia | reflexivity].
  - split; [lia | reflexivity].
  - split; [lia|]. rewrite iter_xO_value, inject_Z_mult.
    pose proof (pow2_Z (Zpos p) ltac:(lia)) as Ep.
    pose proof (pow2_add (Zpos p) e0) as Ea.
    replace (Zpos p + e0) with e in Ea by lia.
    rewrite <- Ep, Ea. ring.
Qed.

(** Rounding a positive mantissa whose exponent is not below that of the
    subnormals: the relative error is at most the unit roundoff. *)
Lemma round_core_exact_relative (m : positive) (e : Z) :
  -149 <= e ->
  let v := (inject_Z (Zpos m) * F32.pow2 e)%Q in
  let m'' := fst (F32.round_core (Zpos m) e loc_Exact) in
  let e'' := snd (F32.round_core (Zpos m) e loc_Exact) in
  0 < m'' < 2 ^ 24 /\ -149 <= e'' /\
  (v * (1 - F32.unit_roundoff) <= inject_Z m'' * F32.pow2 e'')%Q /\
  (inject_Z m'' * F32.pow2 e'' <= v * (1 + F32.unit_roundoff))%Q.
Proof.
  intros He. cbn zeta.
  assert (Hrep : F32.repr (shr_record_of_loc (Zpos m) loc_Exact)
                          (inject_Z (Zpos m))).
  { unfold F32.repr, F32.frac_ok. cbn. lra. }
  destruct (round_core_spec (Zpos m) e loc_Exact _ ltac:(lia) Hrep)
    as (Hm & He'' & Hup & Hdn & Hex).
  set (m'' := fst (F32.round_core (Zpos m) e loc_Exact)) in *.
  set (e'' := snd (F32.round_core (Zpos m) e loc_Exact)) in *.
  set (d := Zdigits2 (Zpos m)) in *.
  set (v := (inject_Z (Zpos m) * F32.pow2 e)%Q) in *.
  assert (Hu : (F32.unit_roundoff == 1 # 16777216)%Q) by reflexivity.
  assert (Hv : (0 < v)%Q).
  { unfold v. pose proof (pow2_pos e).
    assert ((0 < inject_Z (Zpos m))%Q) by (rewrite <- (Zlt_Qlt 0); lia).
    nra. }
  assert (Hbounds :
    (v * (1 - F32.unit_roundoff) <= inject_Z m'' * F32.pow2 e'')%Q /\
    (inject_Z m'' * F32.pow2 e'' <= v * (1 + F32.unit_roundoff))%Q).
  { change F32.unit_roundoff with (1 # 16777216)%Q.
    destruct (Z_le_gt_dec (fexp F32.prec F32.emax (d + e)) e) as [Hns|Hsh].
    - specialize (Hex eq_refl Hns). rewrite Hex. fold v. split; lra.
    - rewrite fexp_eq in Hsh, Hup, Hdn.
      replace (Z.max e (Z.max (d + e - 24) (-149))) with (d + e - 24)
        in Hup, Hdn by lia.
      (* v >= 2^(d-1+e) and the half unit is 2^(d+e-25) *)
      pose proof (Zdigits2_bounds (Zpos m) ltac:(lia)) as [Hlo _].
      fold d in Hlo.
      assert (Hd : 1 <= d) by (unfold d; simpl; lia).
      assert (Hq : (F32.pow2 (d - 1) <= inject_Z (Zpos m))%Q).
      { rewrite pow2_Z by lia. rewrite <- Zle_Qle. exact Hlo. }
      pose proof (pow2_add (d - 1) e) as E1.
      pose proof (pow2_add (-24) (d - 1 + e)) as E2.
      replace (-24 + (d - 1 + e)) with (d + e - 24 - 1) in E2 by lia.
      pose proof (pow2_pos e). pose proof (pow2_pos (d - 1)).
      assert (Hvlo : (F32.pow2 (d - 1 + e) <= v)%Q).
      { unfold v. rewrite E1. apply Qmult_le_compat_r; [exact Hq|].
        apply Qlt_le_weak. assumption. }
      change (F32.pow2 (-24)) with (1 # 16777216)%Q in E2.
      fold v in Hup, Hdn. split; lra. }
  split; [|split; [exact He''|exact Hbounds]].
  split; [|lia].
  destruct Hbounds as [Hlow _].
  change F32.unit_roundoff with (1 # 16777216)%Q in Hlow.
  assert (Hpos : (0 < inject_Z m'' * F32.pow2 e'')%Q) by lra.
  pose proof (pow2_pos e'').
  destruct (Z_lt_le_dec 0 m'') as [|Hle]; [assumption|exfalso].
  assert ((inject_Z m'' <= inject_Z 0)%Q) by (rewrite <- Zle_Qle; lia).
  change (inject_Z 0) with 0%Q in *. nra.
Qed.

End Addition.

Section AdditionValue.

Lemma value_nonneg x : F32.nonneg x = true -> (0 <= F32.value x)%Q.
Proof.
  destruct x as [s|s| |s m e]; simpl; try lra.
  destruct s; [discriminate|]. intros _.
  pose proof (pow2_pos e).
  assert ((0 < inject_Z (Zpos m))%Q) by (rewrite <- (Zlt_Qlt 0); lia).
  nra.
Qed.

Lemma binary_round_core m e :
  binary_round F32.prec F32.emax false m e =
  binary_round_aux F32.prec F32.emax false
    (Zpos (fst (shl_align m e (fexp F32.prec F32.emax
                                 (Zpos (digits2_pos m) + e)))))
    (snd (shl_align m e (fexp F32.prec F32.emax (Zpos (digits2_pos m) + e))))
    loc_Exact.
Proof. unfold binary_round. destruct (shl_align _ _ _). reflexivity. Qed.

(** The rounding of a positive number [m * 2^e], [e >= -149], when it does
    not overflow. *)
Lemma binary_round_value (m : positive) (e : Z) :
  -149 <= e ->
  let z := binary_round F32.prec F32.emax false m e in
  let v := (inject_Z (Zpos m) * F32.pow2 e)%Q in
  F32.is_finite z = true ->
  F32.exp_ok z /\ F32.above_zero z = true /\
  (v * (1 - F32.unit_roundoff) <= F32.value z)%Q /\
  (F32.value z <= v * (1 + F32.unit_roundoff))%Q.
Proof.
  intros He. cbn zeta. rewrite binary_round_core.
  destruct (shl_align_value m e
              (fexp F32.prec F32.emax (Zpos (digits2_pos m) + e)))
    as [Hs Hv].
  set (sz := shl_align m e _) in *.
  assert (He2 : -149 <= snd sz) by (rewrite Hs, fexp_eq; lia).
  destruct (round_core_exact_relative (fst sz) (snd sz) He2)
    as (Hm & He'' & Hlo & Hhi).
  rewrite binary_round_aux_core.
  set (m'' := fst (F32.round_core (Zpos (fst sz)) (snd sz) loc_Exact)) in *.
  set (e'' := snd (F32.round_core (Zpos (fst sz)) (snd sz) loc_Exact)) in *.
  destruct m'' as [|p|p] eqn:Em; try lia.
  destruct (e'' <=? 104); [|discriminate]. intros _.
  cbn [F32.exp_ok F32.above_zero F32.value].
  split; [exact He''|]. split; [reflexivity|].
  rewrite <- Hv. split; lra.
Qed.

Lemma add_finite a b :
  F32.is_finite (F32.add a b) = true ->
  F32.is_finite a = true /\ F32.is_finite b = true.
Proof.
  unfold F32.add.
  destruct a as [sa|sa| |sa ma ea], b as [sb|sb| |sb mb eb]; simpl;
    try destruct sa; try destruct sb; simpl; auto.
Qed.

(** Adding two numbers that are not negative: the result, when finite, is
    their sum up to a relative error of one unit roundoff. *)
Lemma add_value a b :
  F32.nonneg a = true -> F32.nonneg b = true ->
  F32.exp_ok a -> F32.exp_ok b ->
  F32.is_finite (F32.add a b) = true ->
  F32.exp_ok (F32.add a b) /\
  ((F32.value a + F32.value b) * (1 - F32.unit_roundoff)
   <= F32.value (F32.add a b))%Q /\
  (F32.value (F32.add a b)
   <= (F32.value a + F32.value b) * (1 + F32.unit_roundoff))%Q /\
  (F32.above_zero a = true \/ F32.above_zero b = true ->
   F32.above_zero (F32.add a b) = true).
Proof.
  intros Ha Hb Ea Eb Hfin.
  destruct (add_finite a b Hfin) as [Fa Fb].
  pose proof (value_nonneg a Ha) as Va. pose proof (value_nonneg b Hb) as Vb.
  assert (Hu : (F32.unit_roundoff == 1 # 16777216)%Q) by reflexivity.
  destruct a as [sa|sa| |sa ma ea]; try discriminate;
  destruct b as [sb|sb| |sb mb eb]; try discriminate.
  - (* zero + zero *)
    assert (Hz : exists s, F32.add (S754_zero sa) (S754_zero sb) = S754_zero s).
    { destruct sa, sb; eexists; reflexivity. }
    destruct Hz as [s ->]. cbn [F32.value F32.exp_ok F32.above_zero].
    repeat split; try lra; try (intros [H|H]; discriminate).
  - (* zero + finite *)
    change (F32.add (S754_zero sa) (S754_finite sb mb eb))
      with (S754_finite sb mb eb).
    change (F32.value (S754_zero sa)) with 0%Q in *.
    repeat split; try assumption; try (rewrite Hu; lra);
      try (intros [H|H]; [discriminate | exact H]).
  - (* finite + zero *)
    change (F32.add (S754_finite sa ma ea) (S754_zero sb))
      with (S754_finite sa ma ea).
    change (F32.value (S754_zero sb)) with 0%Q in *.
    repeat split; try assumption; try (rewrite Hu; lra);
      try (intros [H|H]; [exact H | discriminate]).
  - (* finite + finite *)
    destruct sa; [discriminate|]. destruct sb; [discriminate|].
    cbn [F32.exp_ok] in Ea, Eb.
    destruct (shl_align_value ma ea (Z.min ea eb)) as [Hsa Hva].
    destruct (shl_align_value mb eb (Z.min ea eb)) as [Hsb Hvb].
    set (pa := fst (shl_align ma ea (Z.min ea eb))) in *.
    set (pb := fst (shl_align mb eb (Z.min ea eb))) in *.
    assert (Hadd : F32.add (S754_finite false ma ea) (S754_finite false mb eb)
                   = binary_round F32.prec F32.emax false (pa + pb)
                                  (Z.min ea eb)) by reflexivity.
    rewrite Hadd in Hfin |- *.
    destruct (binary_round_value (pa + pb) (Z.min ea eb) ltac:(lia) Hfin)
      as (Hexp & Hpos & Hlo & Hhi).
    assert (Hsum : (inject_Z (Zpos (pa + pb)) * F32.pow2 (Z.min ea eb)
                    == F32.value (S754_finite false ma ea)
                       + F32.value (S754_finite false mb eb))%Q).
    { cbn [F32.value]. rewrite Pos2Z.inj_add, inject_Z_plus.
      rewrite Hsa in Hva. rewrite Hsb in Hvb.
      replace (Z.min ea (Z.min ea eb)) with (Z.min ea eb) in Hva by lia.
      replace (Z.min eb (Z.min ea eb)) with (Z.min ea eb) in Hvb by lia.
      rewrite <- Hva, <- Hvb. ring. }
    rewrite Hsum in Hlo, Hhi.
    repeat split; try assumption. intros _. exact Hpos.
Qed.

End AdditionValue.

Section Division.

Lemma frac_lt (f c M R : Q) :
  (0 < M -> f * M == R -> R < c * M -> f < c)%Q.
Proof. intros HM E H. apply (Qmult_lt_r _ _ M HM). rewrite E. exact H. Qed.

Lemma frac_gt (f c M R : Q) :
  (0 < M -> f * M == R -> c * M < R -> c < f)%Q.
Proof. intros HM E H. apply (Qmult_lt_r _ _ M HM). rewrite E. exact H. Qed.

Lemma frac_le (f c M R : Q) :
  (0 < M -> f * M == R -> c * M <= R -> c <= f)%Q.
Proof. intros HM E H. apply (Qmult_le_r _ _ M HM). rewrite E. exact H. Qed.

Lemma frac_eq (f c M R : Q) :
  (0 < M -> f * M == R -> R == c * M -> f == c)%Q.
Proof.
  intros HM E H. apply (Qmult_inj_r _ _ M); [lra|]. rewrite E. exact H.
Qed.

(** The location computed from a remainder [r] of a division by [mb]
    describes the fraction [r / mb]. *)
Lemma new_location_repr (mb r q : Z) (t : Q) :
  0 < mb -> 0 <= r < mb ->
  ((t - inject_Z q) * inject_Z mb == inject_Z r)%Q ->
  F32.repr (shr_record_of_loc q (new_location mb r)) t.
Proof.
  intros Hmb Hr Ht.
  assert (HM : (0 < inject_Z mb)%Q) by (rewrite <- (Zlt_Qlt 0); exact Hmb).
  set (f := (t - inject_Z q)%Q) in *.
  set (M := inject_Z mb) in *. set (R := inject_Z r) in *.
  assert (Hcmp : forall a b : Z,
             (a < b -> (inject_Z a < inject_Z b)%Q) /\
             (a = b -> (inject_Z a == inject_Z b)%Q)).
  { intros a b. split; [rewrite <- Zlt_Qlt; auto | intros ->; reflexivity]. }
  assert (H2r : (inject_Z (2 * r) == 2 * R)%Q)
    by (rewrite inject_Z_mult; reflexivity).
  assert (H2r1 : (inject_Z (2 * r + 1) == 2 * R + 1)%Q)
    by (rewrite inject_Z_plus, inject_Z_mult; reflexivity).
  assert (Hrlt : (R < M)%Q) by (apply Hcmp; lia).
  assert (Hflt : (f < 1)%Q) by (apply (frac_lt f 1 M R); [assumption..|lra]).
  assert (Hexact : r = 0 -> (f == 0)%Q).
  { intros Hr0. apply (frac_eq f 0 M R); [assumption..|].
    unfold R. rewrite Hr0. reflexivity. }
  assert (Hfpos : r <> 0 -> (0 < f)%Q).
  { intros Hr0. assert (HR : (0 < R)%Q) by (apply (Hcmp 0 r); lia).
    apply (frac_gt f 0 M R); [assumption..|lra]. }
  unfold F32.repr, new_location.
  destruct (Z.even mb) eqn:Ev.
  - unfold new_location_even.
    destruct (r =? 0) eqn:Er0;
      [apply Z.eqb_eq in Er0|apply Z.eqb_neq in Er0].
    + cbn [shr_record_of_loc shr_m shr_r shr_s F32.frac_ok]. fold f. auto.
    + destruct (Z.compare_spec (2 * r) mb) as [E|E|E];
        cbn [shr_record_of_loc shr_m shr_r shr_s F32.frac_ok]; fold f.
      * apply Hcmp in E. fold M in E.
        apply (frac_eq f (1 # 2) M R); [assumption..|lra].
      * apply Hcmp in E. fold M in E. split; [auto|].
        apply (frac_lt f (1 # 2) M R); [assumption..|lra].
      * apply Hcmp in E. fold M in E. split; [|assumption].
        apply (frac_gt f (1 # 2) M R); [assumption..|lra].
  - unfold new_location_odd.
    destruct (r =? 0) eqn:Er0;
      [apply Z.eqb_eq in Er0|apply Z.eqb_neq in Er0].
    + cbn [shr_record_of_loc shr_m shr_r shr_s F32.frac_ok]. fold f. auto.
    + assert (Hodd : 2 * r <> mb).
      { intros <-. rewrite Z.even_mul in Ev. discriminate. }
      destruct (Z.compare_spec (2 * r + 1) mb) as [E|E|E];
        cbn [shr_record_of_loc shr_m shr_r shr_s F32.frac_ok]; fold f.
      * apply Hcmp in E. fold M in E. split; [auto|].
        apply (frac_lt f (1 # 2) M R); [assumption..|lra].
      * apply Hcmp in E. fold M in E. split; [auto|].
        apply (frac_lt f (1 # 2) M R); [assumption..|lra].
      * assert (E' : mb < 2 * r) by lia.
        apply Hcmp in E'. fold M in E'. split; [|assumption].
        apply (frac_gt f (1 # 2) M R); [assumption..|lra].
Qed.

(** The integer quotient, exponent and location prepared for the rounding
    of a quotient stand for the exact quotient. *)
Lemma div_core_spec (ma mb : positive) (ea eb : Z) :
  let c := SFdiv_core_binary F32.prec F32.emax (Zpos ma) ea (Zpos mb) eb in
  let q := fst (fst c) in
  let e' := snd (fst c) in
  let E := Zpos (digits2_pos ma) + ea - (Zpos (digits2_pos mb) + eb) in
  exists t : Q,
    0 <= q /\ F32.repr (shr_record_of_loc q (snd c)) t /\
    (t * F32.pow2 e' * (inject_Z (Zpos mb) * F32.pow2 eb)
     == inject_Z (Zpos ma) * F32.pow2 ea)%Q /\
    e' <= fexp F32.prec F32.emax E /\
    (F32.pow2 (E - 1 - e') <= t)%Q.
Proof.
  cbn zeta. unfold SFdiv_core_binary.
  change (Zdigits2 (Zpos ma)) with (Zpos (digits2_pos ma)).
  change (Zdigits2 (Zpos mb)) with (Zpos (digits2_pos mb)).
  set (d1 := Zpos (digits2_pos ma)). set (d2 := Zpos (digits2_pos mb)).
  set (e' := Z.min (fexp F32.prec F32.emax (d1 + ea - (d2 + eb))) (ea - eb)).
  set (s := ea - eb - e').
  assert (Hs : 0 <= s) by (unfold s, e'; lia).
  set (m' := match s with
             | 0 => Zpos ma
             | Zpos _ => Z.shiftl (Zpos ma) s
             | Zneg _ => 0
             end).
  assert (Hm' : m' = Zpos ma * 2 ^ s).
  { unfold m'. destruct s as [|p|p]; [lia| |lia].
    apply Z.shiftl_mul_pow2. lia. }
  assert (Hm'pos : 0 < m').
  { rewrite Hm'. apply Z.mul_pos_pos; [lia|]. apply Z.pow_pos_nonneg; lia. }
  pose proof (Z_div_mod m' (Zpos mb) ltac:(lia)) as Hdiv.
  destruct (Z.div_eucl m' (Zpos mb)) as [q r]. cbn [fst snd].
  destruct Hdiv as [Hqr Hr].
  assert (Hq : 0 <= q) by nia.
  set (M := inject_Z (Zpos mb)).
  assert (HM : (0 < M)%Q) by (unfold M; rewrite <- (Zlt_Qlt 0); lia).
  set (t := (inject_Z m' / M)%Q).
  assert (HtM : (t * M == inject_Z m')%Q) by (unfold t; field; lra).
  exists t. split; [exact Hq|]. split; [|split; [|split]].
  - apply new_location_repr; [lia | exact Hr |].
    fold M. rewrite Hqr in HtM.
    rewrite inject_Z_plus, inject_Z_mult in HtM. fold M in HtM. lra.
  - pose proof (pow2_Z s Hs) as Es.
    pose proof (pow2_add s (e' + eb)) as Ea1.
    pose proof (pow2_add e' eb) as Ea2.
    replace (s + (e' + eb)) with ea in Ea1 by (unfold s; lia).
    rewrite Hm', inject_Z_mult in HtM.
    transitivity (t * M * (F32.pow2 e' * F32.pow2 eb))%Q; [ring|].
    rewrite HtM, Ea1, Ea2, Es. ring.
  - unfold e'. lia.
  - pose proof (digits2_bounds ma) as [Hlo _]. fold d1 in Hlo.
    pose proof (digits2_bounds mb) as [_ Hhi]. fold d2 in Hhi.
    assert (Hd1 : 1 <= d1) by (unfold d1; lia).
    assert (Hd2 : 1 <= d2) by (unfold d2; lia).
    assert (HtM' : (t * M == inject_Z (Zpos ma) * F32.pow2 s)%Q).
    { rewrite HtM, Hm', inject_Z_mult, (pow2_Z s Hs). reflexivity. }
    assert (Ht0 : (0 <= t)%Q).
    { apply (frac_le t 0 M (inject_Z m')); [assumption..|].
      assert ((inject_Z 0 <= inject_Z m')%Q) by (rewrite <- Zle_Qle; lia).
      change (inject_Z 0) with 0%Q in *. lra. }
    assert (HMle : (M <= F32.pow2 d2)%Q).
    { rewrite (pow2_Z d2) by lia. unfold M. rewrite <- Zle_Qle. lia. }
    assert (Hmale : (F32.pow2 (d1 - 1) <= inject_Z (Zpos ma))%Q).
    { rewrite (pow2_Z (d1 - 1)) by lia. rewrite <- Zle_Qle. exact Hlo. }
    pose proof (pow2_pos d2) as Hp2. pose proof (pow2_pos s) as Hps.
    pose proof (pow2_pos (d1 - 1)) as Hp1.
    apply (Qmult_le_r _ _ (F32.pow2 d2) Hp2).
    replace (d1 + ea - (d2 + eb) - 1 - e') with ((d1 - 1) + s + - d2)
      by (unfold s; lia).
    rewrite !pow2_add.
    assert (Hinv : (F32.pow2 (- d2) * F32.pow2 d2 == 1)%Q).
    { rewrite <- pow2_add. replace (- d2 + d2) with 0 by lia. reflexivity. }
    apply Qle_trans with (y := (F32.pow2 (d1 - 1) * F32.pow2 s)%Q).
    { rewrite <- !Qmult_assoc, Hinv. lra. }
    apply Qle_trans with (y := (t * M)%Q).
    { rewrite HtM'. apply Qmult_le_compat_r; lra. }
    rewrite (Qmult_comm t M), (Qmult_comm t (F32.pow2 d2)).
    apply Qmult_le_compat_r; assumption.
Qed.

Lemma value_above_zero x :
  F32.above_zero x = true -> F32.is_finite x = true -> (0 < F32.value x)%Q.
Proof.
  destruct x as [s|s| |s m e]; simpl; try discriminate.
  destruct s; [discriminate|]. intros _ _.
  pose proof (pow2_pos e).
  assert ((0 < inject_Z (Zpos m))%Q) by (rewrite <- (Zlt_Qlt 0); lia).
  nra.
Qed.

(** The quotient of a number that is not negative by a positive one, when
    the exact quotient [x] is at most 2: the result is finite, not
    negative, and within [u * x + 2^-150] of [x]. *)
Lemma div_value a b (x : Q) :
  F32.nonneg a = true -> F32.is_finite a = true ->
  F32.above_zero b = true -> F32.is_finite b = true ->
  (x * F32.value b == F32.value a)%Q -> (x <= 2)%Q ->
  F32.is_finite (F32.div a b) = true /\
  F32.nonneg (F32.div a b) = true /\
  (F32.value (F32.div a b) - x
   <= F32.unit_roundoff * x + F32.half_min_subnormal)%Q /\
  (x - F32.value (F32.div a b)
   <= F32.unit_roundoff * x + F32.half_min_subnormal)%Q.
Proof.
  intros Ha Fa Hb Fb Hx Hx2.
  pose proof (value_above_zero b Hb Fb) as Vb.
  pose proof (value_nonneg a Ha) as Va.
  assert (Hx0 : (0 <= x)%Q).
  { apply (frac_le x 0 (F32.value b) (F32.value a)); [assumption..|lra]. }
  change F32.unit_roundoff with (1 # 16777216)%Q.
  assert (Heta : (0 < F32.half_min_subnormal)%Q) by apply pow2_pos.
  assert (Heta1 : (F32.half_min_subnormal <= 1 # 2)%Q)
    by (vm_compute; discriminate).
  destruct b as [sb|sb| |sb mb eb]; try discriminate.
  destruct sb; [discriminate|].
  destruct a as [sa|sa| |sa ma ea]; try discriminate.
  - (* zero / positive *)
    change (F32.div (S754_zero sa) (S754_finite false mb eb))
      with (S754_zero (xorb sa false)).
    assert (Hx00 : (x == 0)%Q).
    { apply (frac_eq x 0 (F32.value (S754_finite false mb eb))
               (F32.value (S754_zero sa))); [assumption..|].
      cbn [F32.value]. lra. }
    cbn [F32.is_finite F32.nonneg F32.value].
    repeat split; lra.
  - destruct sa; [discriminate|].
    destruct (div_core_spec ma mb ea eb)
      as (t & Hq & Hrep & Heq & He' & Ht).
    set (c := SFdiv_core_binary F32.prec F32.emax (Zpos ma) ea (Zpos mb) eb)
      in *.
    assert (Hz : F32.div (S754_finite false ma ea) (S754_finite false mb eb)
                 = binary_round_aux F32.prec F32.emax false
                     (fst (fst c)) (snd (fst c)) (snd c)).
    { unfold F32.div, SFdiv. fold c. destruct c as [[mz ez] lz]. reflexivity. }
    rewrite Hz. clear Hz.
    set (q := fst (fst c)) in *. set (e' := snd (fst c)) in *.
    set (E := Zpos (digits2_pos ma) + ea - (Zpos (digits2_pos mb) + eb)) in *.
    assert (Hxt : (x == t * F32.pow2 e')%Q).
    { apply (Qmult_inj_r _ _ (F32.value (S754_finite false mb eb))); [lra|].
      rewrite Hx. cbn [F32.value]. rewrite Heq. ring. }
    destruct (round_core_spec q e' (snd c) t Hq Hrep)
      as (Hm & Hexp & Hup & Hdn & _).
    rewrite binary_round_aux_core.
    set (m'' := fst (F32.round_core q e' (snd c))) in *.
    set (e'' := snd (F32.round_core q e' (snd c))) in *.
    set (er := Z.max e' (fexp F32.prec F32.emax (Zdigits2 q + e'))) in *.
    rewrite <- Hxt in Hup, Hdn.
    (* the half unit against the tolerance *)
    assert (Herr : (F32.pow2 (er - 1)
                    <= (1 # 16777216) * x + F32.half_min_subnormal)%Q).
    { destruct (Z_le_gt_dec er (-149)) as [Hsub|Hnorm].
      - pose proof (pow2_le (er - 1) (-150) ltac:(lia)) as Hle.
        unfold F32.half_min_subnormal. lra.
      - assert (Hbig : (F32.pow2 (er + 23 - e') <= t)%Q).
        { unfold er in Hnorm |- *. rewrite fexp_eq in Hnorm |- *.
          destruct (Z_le_gt_dec (Z.max (Zdigits2 q + e' - 24) (-149)) e')
            as [Hns|Hsh].
          - replace (Z.max e' (Z.max (Zdigits2 q + e' - 24) (-149)))
              with e' in * by lia.
            rewrite fexp_eq in He'.
            eapply Qle_trans; [|exact Ht]. apply pow2_le. lia.
          - assert (Hq0 : 0 < q).
            { destruct (Z.eq_dec q 0) as [E0|E0]; [|lia].
              rewrite E0 in Hsh, Hnorm. simpl Zdigits2 in Hsh, Hnorm. lia. }
            replace (Z.max e' (Z.max (Zdigits2 q + e' - 24) (-149)))
              with (Zdigits2 q + e' - 24) in * by lia.
            replace (Zdigits2 q + e' - 24 + 23 - e') with (Zdigits2 q - 1)
              by lia.
            pose proof (Zdigits2_bounds q Hq0) as [Hlo _].
            assert (1 <= Zdigits2 q) by (destruct q; simpl; lia).
            destruct (repr_of_loc_bounds _ _ _ Hrep) as [Hqt _].
            rewrite (pow2_Z (Zdigits2 q - 1)) by lia.
            eapply Qle_trans; [|exact Hqt]. rewrite <- Zle_Qle. exact Hlo. }
        pose proof (pow2_add (er + 23 - e') e') as Ea.
        replace (er + 23 - e' + e') with (er + 23) in Ea by lia.
        pose proof (pow2_add (-24) (er + 23)) as Eb.
        replace (-24 + (er + 23)) with (er - 1) in Eb by lia.
        change (F32.pow2 (-24)) with (1 # 16777216)%Q in Eb.
        pose proof (pow2_pos e') as Hpe.
        assert (Hx23 : (F32.pow2 (er + 23) <= x)%Q).
        { rewrite Hxt, Ea. apply Qmult_le_compat_r; lra. }
        lra. }
    assert (Hbound : (inject_Z m'' * F32.pow2 e'' < 3)%Q) by lra.
    destruct m'' as [|p|p] eqn:Em; [| |lia].
    + cbn [F32.is_finite F32.nonneg F32.value].
      change (inject_Z 0) with 0%Q in Hup, Hdn.
      repeat split; lra.
    + assert (He104 : e'' <= 104).
      { destruct (Z_le_gt_dec e'' 104) as [|Hgt]; [assumption|exfalso].
        pose proof (pow2_le 2 e'' ltac:(lia)) as Hle.
        change (F32.pow2 2) with 4%Q in Hle.
        assert ((inject_Z 1 <= inject_Z (Zpos p))%Q)
          by (rewrite <- Zle_Qle; lia).
        change (inject_Z 1) with 1%Q in *.
        pose proof (pow2_pos e''). nra. }
      destruct (Z.leb_spec e'' 104) as [_|Hgt]; [|lia].
      cbn [F32.is_finite F32.nonneg F32.value negb].
      repeat split; lra.
Qed.

End Division.

Section Accumulation.

Lemma qpow_nonneg c n : (0 <= c)%Q -> (0 <= F32.qpow c n)%Q.
Proof.
  intros Hc. induction n as [|n IH]; simpl; [lra|].
  apply Qmult_le_0_compat; assumption.
Qed.

Lemma sum_values_nonneg l :
  Forall F32.datum l -> (0 <= F32.sum_values l)%Q.
Proof.
  induction 1 as [|x l [Hx _] _ IH]; simpl; [lra|].
  pose proof (value_nonneg x Hx). lra.
Qed.

Lemma add_exp_ok a b :
  F32.datum a -> F32.datum b -> F32.datum (F32.add a b).
Proof.
  intros [Ha Ea] [Hb Eb]. split; [apply add_nonneg; assumption|].
  destruct (F32.is_finite (F32.add a b)) eqn:F.
  - apply add_value; assumption.
  - destruct (F32.add a b); try discriminate; exact I.
Qed.

Lemma add_above_zero a b :
  F32.datum a -> F32.datum b ->
  F32.above_zero a = true \/ F32.above_zero b = true ->
  F32.above_zero (F32.add a b) = true.
Proof.
  intros [Ha Ea] [Hb Eb] H.
  destruct (F32.is_finite (F32.add a b)) eqn:F.
  - apply add_value; assumption.
  - pose proof (add_nonneg a b Ha Hb) as Hn.
    destruct (F32.add a b) as [s|s| |s m e]; try discriminate.
    destruct s; [discriminate | reflexivity].
Qed.

Lemma fold_add_finite l : forall acc,
  F32.is_finite (fold_left F32.add l acc) = true ->
  F32.is_finite acc = true /\ Forall (fun x => F32.is_finite x = true) l.
Proof.
  induction l as [|x l IH]; intros acc H; simpl in H.
  - split; [exact H | constructor].
  - destruct (IH _ H) as [Hacc Hl].
    destruct (add_finite acc x Hacc) as [Ha Hx].
    split; [exact Ha | constructor; assumption].
Qed.

(** The running sum of an accumulation against the exact sum. *)
Lemma fold_add_value l : forall acc,
  F32.datum acc -> Forall F32.datum l ->
  F32.is_finite (fold_left F32.add l acc) = true ->
  let total := fold_left F32.add l acc in
  let exact := (F32.value acc + F32.sum_values l)%Q in
  F32.datum total /\
  (exact * F32.qpow (1 - F32.unit_roundoff) (length l)
   <= F32.value total)%Q /\
  (F32.value total
   <= exact * F32.qpow (1 + F32.unit_roundoff) (length l))%Q.
Proof.
  assert (Hu : (F32.unit_roundoff == 1 # 16777216)%Q) by reflexivity.
  induction l as [|x l IH]; intros acc Hacc Hl Hfin; cbn zeta.
  - simpl. split; [exact Hacc|]. split; lra.
  - inversion Hl as [|? ? Hx Hl']; subst.
    cbn [fold_left] in Hfin |- *.
    destruct (fold_add_finite l _ Hfin) as [Hfa _].
    destruct Hacc as [Na Ea]. destruct Hx as [Nx Ex].
    destruct (add_value acc x Na Nx Ea Ex Hfa) as (Eadd & Hlo & Hhi & _).
    pose proof (add_nonneg acc x Na Nx) as Nadd.
    destruct (IH (F32.add acc x) (conj Nadd Eadd) Hl' Hfin)
      as (Hd & Ilo & Ihi).
    split; [exact Hd|].
    pose proof (sum_values_nonneg l Hl') as Hs.
    pose proof (value_nonneg acc Na) as Va.
    pose proof (value_nonneg x Nx) as Vx.
    set (cl := F32.qpow (1 - F32.unit_roundoff) (length l)) in *.
    set (ch := F32.qpow (1 + F32.unit_roundoff) (length l)) in *.
    assert (Hcl : (0 <= cl)%Q) by (apply qpow_nonneg; rewrite Hu; lra).
    assert (Hch : (0 <= ch)%Q) by (apply qpow_nonneg; rewrite Hu; lra).
    cbn [length F32.qpow F32.sum_values fold_right]. fold cl ch.
    set (va := F32.value acc) in *. set (vx := F32.value x) in *.
    set (sl := F32.sum_values l) in *.
    set (vs := F32.value (F32.add acc x)) in *.
    rewrite Hu in *.
    split.
    + apply Qle_trans with (y := ((vs + sl) * cl)%Q); [|exact Ilo].
      assert (((va + (vx + sl)) * (1 - (1 # 16777216))) <= vs + sl)%Q by lra.
      rewrite Qmult_assoc.
      apply Qmult_le_compat_r; assumption.
    + apply Qle_trans with (y := ((vs + sl) * ch)%Q); [exact Ihi|].
      assert ((vs + sl <= (va + (vx + sl)) * (1 + (1 # 16777216))))%Q by lra.
      rewrite Qmult_assoc.
      apply Qmult_le_compat_r; assumption.
Qed.

End Accumulation.

Section Normalisation.

Lemma frac_le_upper (f c M R : Q) :
  (0 < M -> f * M == R -> R <= c * M -> f <= c)%Q.
Proof. intros HM E H. apply (Qmult_le_r _ _ M HM). rewrite E. exact H. Qed.

Lemma sum_values_cons x l :
  F32.sum_values (x :: l) = (F32.value x + F32.sum_values l)%Q.
Proof. reflexivity. Qed.

Lemma value_le_sum l x :
  Forall F32.datum l -> x ∈ l -> (F32.value x <= F32.sum_values l)%Q.
Proof.
  induction 1 as [|y l [Hy _] Hl IH]; intros Hin; [inversion Hin|].
  simpl. pose proof (sum_values_nonneg l Hl).
  pose proof (value_nonneg y Hy).
  apply elem_of_cons in Hin. destruct Hin as [->|Hin]; [lra|].
  specialize (IH Hin). lra.
Qed.

(** Dividing every entry of a list by a positive number [S] that is not
    much smaller than any of them. *)
Lemma map_div_sum (S : F32.float) l :
  F32.above_zero S = true -> F32.is_finite S = true ->
  Forall (fun r => F32.nonneg r = true /\ F32.is_finite r = true /\
                   (F32.value r <= 2 * F32.value S)%Q) l ->
  let out := map (fun c => F32.div c S) l in
  let n := inject_Z (Z.of_nat (length l)) in
  Forall (fun x => F32.nonneg x = true /\ F32.is_finite x = true) out /\
  (F32.sum_values out * F32.value S
   <= (1 + (1 # 16777216)) * F32.sum_values l
      + n * (1 # 1000000000000) * F32.value S)%Q /\
  ((1 - (1 # 16777216)) * F32.sum_values l
   - n * (1 # 1000000000000) * F32.value S
   <= F32.sum_values out * F32.value S)%Q.
Proof.
  intros HS FS. pose proof (value_above_zero S HS FS) as VS.
  assert (Heta : (F32.half_min_subnormal <= 1 # 1000000000000)%Q)
    by (vm_compute; discriminate).
  induction 1 as [|r l (Nr & Fr & Hr) Hl IH]; cbn zeta.
  - cbn [map length F32.sum_values fold_right].
    change (inject_Z (Z.of_nat 0)) with 0%Q.
    split; [constructor|]. split; lra.
  - destruct IH as (Hout & Hup & Hdn).
    set (x := (F32.value r / F32.value S)%Q).
    assert (HxS : (x * F32.value S == F32.value r)%Q)
      by (unfold x; field; lra).
    assert (Hx2 : (x <= 2)%Q)
      by (apply (frac_le_upper x 2 (F32.value S) (F32.value r));
          assumption).
    assert (Hx0 : (0 <= x)%Q).
    { apply (frac_le x 0 (F32.value S) (F32.value r)); [assumption..|].
      pose proof (value_nonneg r Nr). lra. }
    destruct (div_value r S x Nr Fr HS FS HxS Hx2) as (Fq & Nq & Qup & Qdn).
    change F32.unit_roundoff with (1 # 16777216)%Q in Qup, Qdn.
    cbn [map length]. rewrite !sum_values_cons.
    rewrite Nat2Z.inj_succ. unfold Z.succ. rewrite inject_Z_plus.
    change (inject_Z 1) with 1%Q.
    set (vq := F32.value (F32.div r S)) in *.
    set (so := F32.sum_values (map (fun c => F32.div c S) l)) in *.
    set (sl := F32.sum_values l) in *.
    set (n := inject_Z (Z.of_nat (length l))) in *.
    set (vS := F32.value S) in *. set (vr := F32.value r) in *.
    assert (Q1 : (vq * vS <= (1 + (1 # 16777216)) * vr
                             + (1 # 1000000000000) * vS)%Q).
    { assert (H1 : (vq <= (1 + (1 # 16777216)) * x + (1 # 1000000000000))%Q)
        by lra.
      apply (Qmult_le_compat_r _ _ vS) in H1; [|lra].
      assert (E : (((1 + (1 # 16777216)) * x + (1 # 1000000000000)) * vS
                   == (1 + (1 # 16777216)) * (x * vS)
                      + (1 # 1000000000000) * vS)%Q) by ring.
      rewrite E, HxS in H1. exact H1. }
    assert (Q2 : ((1 - (1 # 16777216)) * vr - (1 # 1000000000000) * vS
                  <= vq * vS)%Q).
    { assert (H1 : ((1 - (1 # 16777216)) * x - (1 # 1000000000000) <= vq)%Q)
        by lra.
      apply (Qmult_le_compat_r _ _ vS) in H1; [|lra].
      assert (E : (((1 - (1 # 16777216)) * x - (1 # 1000000000000)) * vS
                   == (1 - (1 # 16777216)) * (x * vS)
                      - (1 # 1000000000000) * vS)%Q) by ring.
      rewrite E, HxS in H1. exact H1. }
    split; [constructor; [split; assumption | exact Hout]|].
    split; lra.
Qed.

(** The normalised chroma vector: twelve numbers that are not negative and
    whose exact sum is within [1e-6] of 1. *)
Lemma normalize_sum (raw : list F32.float) :
  length raw = 12%nat -> Forall F32.datum raw ->
  F32.is_finite (accumulate raw) = true ->
  F32.above_zero (accumulate raw) = true ->
  let out := map (fun c => F32.div c (accumulate raw)) raw in
  Forall (fun x => F32.nonneg x = true /\ F32.is_finite x = true) out /\
  (1 - F32.chroma_tolerance <= F32.sum_values out)%Q /\
  (F32.sum_values out <= 1 + F32.chroma_tolerance)%Q.
Proof.
  intros Hlen Hraw Hfin Hpos. cbn zeta.
  assert (Hz : F32.datum F32.zero) by (split; [reflexivity | exact I]).
  destruct (fold_add_value raw F32.zero Hz Hraw Hfin) as (_ & Hlo & Hhi).
  fold (accumulate raw) in Hlo, Hhi. rewrite Hlen in Hlo, Hhi.
  change (F32.value F32.zero) with 0%Q in Hlo, Hhi.
  assert (N1 : (1 - (72 # 100000000)
                <= F32.qpow (1 - F32.unit_roundoff) 12)%Q)
    by (vm_compute; discriminate).
  assert (N2 : (F32.qpow (1 + F32.unit_roundoff) 12
                <= 1 + (72 # 100000000))%Q)
    by (vm_compute; discriminate).
  pose proof (sum_values_nonneg raw Hraw) as Hs.
  pose proof (value_above_zero _ Hpos Hfin) as VS.
  set (S := accumulate raw) in *. set (vS := F32.value S) in *.
  set (sl := F32.sum_values raw) in *.
  assert (Hlo' : (sl * (1 - (72 # 100000000)) <= vS)%Q).
  { set (A := F32.qpow (1 - F32.unit_roundoff) 12) in *.
    assert (H1 : ((1 - (72 # 100000000)) * sl <= A * sl)%Q)
      by (apply Qmult_le_compat_r; [exact N1 | exact Hs]).
    assert (E1 : ((0 + sl) * A == A * sl)%Q) by ring.
    assert (E2 : (sl * (1 - (72 # 100000000))
                  == (1 - (72 # 100000000)) * sl)%Q) by ring.
    rewrite E2. rewrite E1 in Hlo. eapply Qle_trans; eassumption. }
  assert (Hhi' : (vS <= sl * (1 + (72 # 100000000)))%Q).
  { set (B := F32.qpow (1 + F32.unit_roundoff) 12) in *.
    assert (H1 : (B * sl <= (1 + (72 # 100000000)) * sl)%Q)
      by (apply Qmult_le_compat_r; [exact N2 | exact Hs]).
    assert (E1 : ((0 + sl) * B == B * sl)%Q) by ring.
    assert (E2 : (sl * (1 + (72 # 100000000))
                  == (1 + (72 # 100000000)) * sl)%Q) by ring.
    rewrite E2. rewrite E1 in Hhi. eapply Qle_trans; eassumption. }
  destruct (fold_add_finite raw F32.zero Hfin) as [_ Hfr].
  destruct (map_div_sum S raw Hpos Hfin) as (Hout & Hup & Hdn).
  { apply Forall_forall. intros r Hr.
    pose proof (proj1 (Forall_forall _ _) Hraw r Hr) as [Nr _].
    pose proof (proj1 (Forall_forall _ _) Hfr r Hr) as Fr.
    pose proof (value_le_sum raw r Hraw Hr) as Hle. fold sl in Hle.
    repeat split; try assumption. fold vS. lra. }
  rewrite Hlen in Hup, Hdn.
  change (inject_Z (Z.of_nat 12)) with 12%Q in Hup, Hdn.
  fold vS sl in Hup, Hdn.
  set (so := F32.sum_values (map (fun c => F32.div c S) raw)) in *.
  unfold F32.chroma_tolerance.
  split; [exact Hout|]. split.
  - apply (Qmult_le_r _ _ vS VS). lra.
  - apply (Qmult_le_r _ _ vS VS). lra.
Qed.

End Normalisation.

(** ** Chroma normalisation *)

Section ChromaFacts.

Lemma for_loop_invariant_indexed {St} (P : Z -> St -> Prop) lo hi
    (body : Z -> St -> St) s :
  lo <= hi -> P lo s ->
  (forall i s, lo <= i < hi -> P i s -> P (i + 1) (body i s)) ->
  P hi (for_loop lo hi body s).
Proof.
  intros Hle H0 Hstep.
  assert (H : forall n : nat, lo + Z.of_nat n <= hi ->
              P (lo + Z.of_nat n) (for_loop lo (lo + Z.of_nat n) body s)).
  { induction n as [|n IH]; intros Hn.
    - replace (lo + Z.of_nat 0) with lo by lia.
      rewrite for_loop_empty by lia. exact H0.
    - replace (lo + Z.of_nat (S n)) with ((lo + Z.of_nat n) + 1) by lia.
      rewrite for_loop_snoc by lia.
      apply Hstep; [lia | apply IH; lia]. }
  specialize (H (Z.to_nat (hi - lo))).
  replace (lo + Z.of_nat (Z.to_nat (hi - lo))) with hi in H by lia.
  apply H. lia.
Qed.

Lemma well_formed_exp_ok x : F32.well_formed x -> F32.exp_ok x.
Proof.
  unfold F32.well_formed. destruct x as [s|s| |s m e]; simpl; auto.
  unfold bounded, canonical_mantissa. intros H.
  apply andb_true_iff in H. destruct H as [H _].
  apply Z.eqb_eq in H. rewrite fexp_eq in H. lia.
Qed.

Lemma magnitude_datum x : F32.magnitude x -> F32.datum x.
Proof. intros [H1 H2]. split; [exact H1 | apply well_formed_exp_ok, H2]. Qed.

Lemma zero_datum : F32.datum F32.zero.
Proof. split; [reflexivity | exact I]. Qed.

Lemma array_get_datum (a : list F32.float) i :
  Forall F32.datum a -> F32.datum (array_get a i).
Proof.
  intros H. destruct (array_get_cases a i) as [-> | Hin];
    [apply zero_datum|].
  eapply Forall_forall in H; eauto.
Qed.

Lemma array_get_lookup (a : list F32.float) i y :
  0 <= i -> a !! Z.to_nat i = Some y -> array_get a i = y.
Proof.
  intros Hi E. unfold array_get.
  destruct (Z.leb_spec 0 i); [|lia].
  match goal with
  | |- default _ ?o = _ => assert (Ho : o = Some y) by exact E; rewrite Ho
  end. reflexivity.
Qed.

Lemma array_set_Forall {A} (P : A -> Prop) (a : list A) i v :
  Forall P a -> P v -> Forall P (array_set a i v).
Proof.
  intros Ha Hv. unfold array_set. destruct (_ && _); [|exact Ha].
  apply Forall_insert; assumption.
Qed.

Lemma pitch_class_range log2f freq :
  0 <= Audio.pitch_class log2f freq < 12.
Proof.
  unfold Audio.pitch_class.
  set (n := F32.to_int _).
  pose proof (Z.rem_bound_abs n 12 ltac:(lia)) as H.
  destruct (Z.ltb_spec (Z.rem n 12) 0); lia.
Qed.

Variable log2f : F32.float -> F32.float.
Variable spectrum : list F32.float.
Variables size sample_rate : Z.
Hypothesis spectrum_valid : Forall F32.magnitude spectrum.

Lemma spectrum_datum i : F32.datum (array_get spectrum i).
Proof.
  apply array_get_datum.
  eapply Forall_impl; [exact spectrum_valid|]. apply magnitude_datum.
Qed.

(** One round of the accumulation loop. *)
Lemma chroma_step i chroma :
  1 <= i ->
  Audio.chroma_so_far spectrum size sample_rate i chroma ->
  Audio.chroma_so_far spectrum size sample_rate (i + 1)
    (if Audio.in_musical_range i size sample_rate
     then array_set chroma
            (Audio.pitch_class log2f (Audio.bin_freq i size sample_rate))
            (F32.add (array_get chroma
                        (Audio.pitch_class log2f
                           (Audio.bin_freq i size sample_rate)))
                     (array_get spectrum i))
     else chroma).
Proof.
  intros Hi (Hlen & Hall & Hpos).
  destruct (Audio.in_musical_range i size sample_rate) eqn:Hr.
  - set (pc := Audio.pitch_class log2f (Audio.bin_freq i size sample_rate)).
    pose proof (pitch_class_range log2f
                  (Audio.bin_freq i size sample_rate)) as Hpc.
    fold pc in Hpc.
    pose proof (array_get_datum chroma pc Hall) as Hold.
    pose proof (spectrum_datum i) as Hx.
    assert (Hpcn : (Z.to_nat pc < length chroma)%nat) by lia.
    assert (Hset : forall v, array_set chroma pc v = <[Z.to_nat pc := v]> chroma).
    { intros v. unfold array_set.
      destruct (Z.leb_spec 0 pc); [|lia].
      destruct (Z.ltb_spec pc (Z.of_nat (length chroma))); [reflexivity|lia]. }
    split; [rewrite array_set_length; exact Hlen|].
    split; [apply array_set_Forall; [exact Hall | apply add_exp_ok; assumption]|].
    intros j Hj Hjr Hja. rewrite Hset.
    destruct (Z.eq_dec j i) as [->|Hne].
    + exists (Z.to_nat pc), (F32.add (array_get chroma pc) (array_get spectrum i)).
      split; [apply list_lookup_insert_eq; exact Hpcn|].
      apply add_above_zero; auto.
    + destruct (Hpos j ltac:(lia) Hjr Hja) as (k & y & Hk & Hy).
      destruct (Nat.eq_dec k (Z.to_nat pc)) as [->|Hk'].
      * exists (Z.to_nat pc),
          (F32.add (array_get chroma pc) (array_get spectrum i)).
        split; [apply list_lookup_insert_eq; exact Hpcn|].
        apply add_above_zero; [assumption..|]. left.
        rewrite (array_get_lookup chroma pc y); [exact Hy | lia | exact Hk].
      * exists k, y. split; [|exact Hy].
        rewrite list_lookup_insert_ne by auto. exact Hk.
  - split; [exact Hlen|]. split; [exact Hall|].
    intros j Hj Hjr Hja. destruct (Z.eq_dec j i) as [->|Hne];
      [rewrite Hr in Hjr; discriminate|].
    apply (Hpos j); [lia | assumption..].
Qed.

Lemma chroma_bins_so_far :
  Audio.chroma_so_far spectrum size sample_rate (Z.max size 1)
    (Audio.chroma_bins log2f spectrum size sample_rate).
Proof.
  unfold Audio.chroma_bins.
  assert (H0 : Audio.chroma_so_far spectrum size sample_rate 1
                 (replicate 12 F32.zero)).
  { split; [reflexivity|]. split.
    - apply Forall_replicate, zero_datum.
    - intros i Hi. lia. }
  destruct (Z_le_gt_dec size 1) as [Hs|Hs].
  - rewrite for_loop_empty by lia.
    replace (Z.max size 1) with 1 by lia. exact H0.
  - replace (Z.max size 1) with size by lia.
    apply (for_loop_invariant_indexed
             (Audio.chroma_so_far spectrum size sample_rate)); [lia|exact H0|].
    intros i chroma Hi Hc. apply chroma_step; [lia | exact Hc].
Qed.

End ChromaFacts.

Lemma fold_add_above l : forall acc,
  F32.datum acc -> Forall F32.datum l ->
  F32.above_zero acc = true \/
  (exists j y, l !! j = Some y /\ F32.above_zero y = true) ->
  F32.above_zero (fold_left F32.add l acc) = true.
Proof.
  induction l as [|x l IH]; intros acc Hacc Hl H.
  - destruct H as [H|(j & y & Hj & _)]; [exact H | destruct j; discriminate].
  - inversion Hl as [|? ? Hx Hl']; subst. cbn [fold_left].
    apply IH; [apply add_exp_ok; assumption | exact Hl'|].
    destruct H as [H|(j & y & Hj & Hy)].
    + left. apply add_above_zero; auto.
    + destruct j as [|j]; simpl in Hj.
      * inversion Hj; subst. left. apply add_above_zero; auto.
      * right. exists j, y. auto.
Qed.

Lemma above_zero_gt x : F32.above_zero x = true -> F32.gt x F32.zero = true.
Proof.
  destruct x as [s|s| |s m e]; simpl; try discriminate;
    destruct s; try discriminate; reflexivity.
Qed.

Lemma chroma_of_silence log2f (spectrum : list F32.float) size sample_rate :
  Forall (fun x => x = F32.zero) spectrum ->
  Audio.chroma_bins log2f spectrum size sample_rate = replicate 12 F32.zero.
Proof.
  intros Hz. unfold Audio.chroma_bins.
  apply (for_loop_invariant (fun c => c = replicate 12 F32.zero));
    [reflexivity|].
  intros i c _ ->. destruct (_ && _); [|reflexivity].
  set (pc := Audio.pitch_class _ _).
  assert (Hs : array_get spectrum i = F32.zero).
  { destruct (array_get_cases spectrum i) as [H|H]; [exact H|].
    eapply Forall_forall in Hz; eauto. }
  assert (Hc : array_get (replicate 12 F32.zero) pc = F32.zero).
  { destruct (array_get_cases (replicate 12 F32.zero) pc) as [H|H];
      [exact H|].
    apply elem_of_replicate in H. apply H. }
  rewrite Hs, Hc. change (F32.add F32.zero F32.zero) with F32.zero.
  unfold array_set. destruct (_ && _); [|reflexivity].
  apply insert_replicate.
Qed.

(** C3, as the code has it.  On a spectrum of well-formed magnitudes,
    [audio_compute_chroma] produces a 12-bin vector.  Whenever some bin with
    frequency strictly between 80 Hz and 2000 Hz has a nonzero magnitude and
    the accumulated chroma total has not overflowed, the entries are finite
    and not negative and their sum is within 1e-6 of 1.  For the all-zero
    spectrum every entry is zero and so is the sum. *)
Theorem chroma_normalized (log2f : F32.float -> F32.float)
    (spectrum buffer : list F32.float) (size sample_rate : Z) :
  Forall F32.magnitude spectrum ->
  let raw := Audio.chroma_bins log2f spectrum size sample_rate in
  exists chroma,
    Audio.audio_compute_chroma log2f (Some spectrum) size sample_rate
                               (Some buffer) = (ESP_OK, Some chroma) /\
    length chroma = 12%nat /\
    (F32.is_finite (accumulate raw) = true ->
     (exists i, 1 <= i < size /\
        Audio.in_musical_range i size sample_rate = true /\
        F32.above_zero (array_get spectrum i) = true) ->
     Forall (fun x => F32.nonneg x = true /\ F32.is_finite x = true) chroma /\
     (1 - F32.chroma_tolerance <= F32.sum_values chroma)%Q /\
     (F32.sum_values chroma <= 1 + F32.chroma_tolerance)%Q) /\
    (Forall (fun x => x = F32.zero) spectrum ->
     chroma = replicate 12 F32.zero /\ (F32.sum_values chroma == 0)%Q).
Proof.
  intros Hsp raw.
  exists (Audio.normalize_chroma raw). split; [reflexivity|].
  destruct (chroma_bins_so_far log2f spectrum size sample_rate Hsp)
    as (Hlen & Hall & Hpos).
  fold raw in Hlen, Hall, Hpos.
  split; [|split].
  - unfold Audio.normalize_chroma. destruct (F32.gt _ _); [|exact Hlen].
    rewrite length_map. exact Hlen.
  - intros Hfin (i & Hi & Hr & Ha).
    assert (Habove : F32.above_zero (accumulate raw) = true).
    { apply fold_add_above; [apply zero_datum | exact Hall|].
      right. apply (Hpos i); [lia | assumption..]. }
    unfold Audio.normalize_chroma. rewrite (above_zero_gt _ Habove).
    apply normalize_sum; assumption.
  - intros Hz. subst raw.
    rewrite (chroma_of_silence log2f spectrum size sample_rate Hz).
    split; reflexivity.
Qed.

Lemma chroma_normalized_witness :
  exists chroma,
    Audio.audio_compute_chroma Chord.log2f_ref (Some Chord.scattered_spectrum)
      256 44100 (Some (replicate 12 F32.zero)) = (ESP_OK, Some chroma) /\
    (F32.sum_values chroma <= 1 + F32.chroma_tolerance)%Q.
Proof.
  destruct (chroma_normalized Chord.log2f_ref Chord.scattered_spectrum
              (replicate 12 F32.zero) 256 44100) as (chroma & H1 & _ & H2 & _).
  - apply Forall_forall. intros x Hx.
    apply list_elem_of_fmap in Hx. destruct Hx as (i & -> & _).
    destruct (bool_decide _); split; reflexivity.
  - exists chroma. split; [exact H1|].
    destruct H2 as (_ & _ & H); [vm_compute; reflexivity | |exact H].
    exists 1. split; [lia|]. split; vm_compute; reflexivity.
Defined.

(** C3 as stated fails.  With two bins of the largest finite magnitude in
    the musical range, the accumulated total overflows to [+Inf]; the
    normalised vector then holds a NaN, and no entry is positive. *)
Lemma chroma_overflow :
  Forall F32.magnitude Chord.saturated_spectrum /\
  Audio.in_musical_range 1 256 44100 = true /\
  F32.above_zero (array_get Chord.saturated_spectrum 1) = true /\
  Audio.audio_compute_chroma Chord.log2f_ref (Some Chord.saturated_spectrum)
    256 44100 (Some (replicate 12 F32.zero))
  = (ESP_OK,
     Some [F32.zero; F32.zero; F32.zero; F32.zero; F32.zero; S754_nan;
           F32.zero; F32.zero; F32.zero; F32.zero; F32.zero; F32.zero]) /\
  F32.nonneg S754_nan = false /\
  (F32.sum_values
     [F32.zero; F32.zero; F32.zero; F32.zero; F32.zero; S754_nan;
      F32.zero; F32.zero; F32.zero; F32.zero; F32.zero; F32.zero] == 0)%Q.
Proof.
  split; [|vm_compute; repeat split].
  apply Forall_forall. intros x Hx.
  apply list_elem_of_fmap in Hx. destruct Hx as (i & -> & _).
  destruct (bool_decide _); split; reflexivity.
Qed.

(** ** Sessions of the beat detector *)

Section BeatSessions.

Import Beat.

Lemma run_cons d f fs : run d (f :: fs) = run (fst (process d f)) fs.
Proof. reflexivity. Qed.

Lemma run_snoc d fs f : run d (fs ++ [f]) = fst (process (run d fs) f).
Proof. unfold run. rewrite fold_left_app. reflexivity. Qed.

Lemma beats_cons d f fs :
  beats d (f :: fs) =
  (if snd (process d f) then 1 else 0) + beats (fst (process d f)) fs.
Proof. simpl. destruct (process d f). reflexivity. Qed.

Lemma beats_nonneg fs : forall d, 0 <= beats d fs.
Proof.
  induction fs as [|f fs IH]; intros d; [simpl; lia|].
  rewrite beats_cons. specialize (IH (fst (process d f))).
  destruct (snd (process d f)); lia.
Qed.

Lemma beats_snoc fs : forall d f,
  beats d (fs ++ [f]) =
  beats d fs + (if snd (process (run d fs) f) then 1 else 0).
Proof.
  induction fs as [|g fs IH]; intros d f.
  - simpl app. rewrite beats_cons. simpl. lia.
  - change ((g :: fs) ++ [f]) with (g :: (fs ++ [f])).
    rewrite !beats_cons, run_cons, IH. lia.
Qed.

Lemma step_index d f :
  0 <= history_index d < 16 ->
  history_index (fst (process d f)) = (history_index d + 1) mod 16.
Proof.
  intros H. rewrite process_index, wrap32_id by lia.
  apply Z.rem_mod_nonneg; lia.
Qed.

Lemma run_index fs : forall d,
  0 <= history_index d < 16 ->
  history_index (run d fs) =
  (history_index d + Z.of_nat (length fs)) mod 16.
Proof.
  induction fs as [|f fs IH]; intros d H.
  - simpl. rewrite Z.add_0_r, Z.mod_small; lia.
  - rewrite run_cons, IH.
    + rewrite step_index by exact H.
      rewrite Zplus_mod_idemp_l. f_equal. simpl length. lia.
    + rewrite step_index by exact H. apply Z.mod_pos_bound. lia.
Qed.

Lemma run_history_length fs : forall d,
  length (energy_history (run d fs)) = length (energy_history d).
Proof.
  induction fs as [|f fs IH]; intros d; [reflexivity|].
  rewrite run_cons, IH, process_history. apply array_set_length.
Qed.

(** The energy ring is a ring: after any session the write position has
    advanced by the number of frames modulo 16, and each of the last 16
    frames' energies sits in the slot it was written to. *)
Theorem energy_ring_holds_last_frames (d : beat_detector_t)
    (fs : list audio_features_t) :
  length (energy_history d) = 16%nat ->
  0 <= history_index d < 16 ->
  history_index (run d fs) =
    (history_index d + Z.of_nat (length fs)) mod 16 /\
  forall (k : nat) f,
    fs !! k = Some f ->
    (length fs - k <= 16)%nat ->
    energy_history (run d fs)
      !! Z.to_nat ((history_index d + Z.of_nat k) mod 16)
    = Some (energy f).
Proof.
  intros Hl Hi. split; [apply run_index; exact Hi|].
  induction fs as [|g fs IH] using rev_ind; intros k f Hk Hlast.
  - destruct k; discriminate.
  - rewrite run_snoc, process_history.
    rewrite length_app in Hlast. simpl in Hlast.
    pose proof (run_index fs d Hi) as Eidx.
    pose proof (run_history_length fs d) as Elen. rewrite Hl in Elen.
    assert (Hb : forall n, 0 <= (history_index d + n) mod 16 < 16).
    { intros n. apply Z.mod_pos_bound. lia. }
    unfold array_set. rewrite Elen, Eidx.
    replace ((0 <=? _) && (_ <? Z.of_nat 16)) with true
      by (symmetry; apply andb_true_iff; split;
          [apply Z.leb_le | apply Z.ltb_lt]; apply Hb).
    destruct (decide (k = length fs)) as [->|Hne].
    + rewrite lookup_app_r in Hk by lia.
      rewrite Nat.sub_diag in Hk. inversion Hk; subst g.
      apply list_lookup_insert_eq. rewrite Elen.
      specialize (Hb (Z.of_nat (length fs))). lia.
    + assert (Hlt : (k < length fs)%nat).
      { apply lookup_lt_Some in Hk. rewrite length_app in Hk.
        simpl in Hk. lia. }
      rewrite lookup_app_l in Hk by exact Hlt.
      rewrite list_lookup_insert_ne; [apply IH; [exact Hk | lia]|].
      intros E. apply Z2Nat.inj in E; try apply Hb.
      rewrite (Z.mod_eq (history_index d + Z.of_nat (length fs)) 16),
        (Z.mod_eq (history_index d + Z.of_nat k) 16) in E by lia.
      lia.
Qed.

Lemma energy_ring_holds_last_frames_witness :
  history_index (run init_state sample_session) = 3 /\
  energy_history (run init_state sample_session) !! 2%nat
    = Some (F32.of_Z 5).
Proof.
  destruct (energy_ring_holds_last_frames init_state sample_session)
    as [E H]; [reflexivity | simpl; lia |].
  split; [exact E|].
  apply (H 2%nat (frame (F32.of_Z 5) 600000)); [reflexivity | simpl; lia].
Defined.

Lemma run_beat_count fs : forall d,
  0 <= beat_count d -> beat_count d + beats d fs < 2 ^ 31 ->
  beat_count (run d fs) = beat_count d + beats d fs.
Proof.
  induction fs as [|f fs IH]; intros d H0 Hmax; [simpl; lia|].
  rewrite beats_cons in *. rewrite run_cons.
  pose proof (beats_nonneg fs (fst (process d f))) as Hn.
  destruct (snd (process d f)) eqn:Eb.
  - destruct (process_beat d f Eb) as (Ec & _).
    rewrite wrap32_id in Ec by lia. rewrite IH; lia.
  - destruct (process_quiet d f Eb) as (Ec & _). rewrite IH; lia.
Qed.

(** [beat_count] is the number of beats reported: after any session it
    has grown by exactly the number of calls that set [*beat_detected],
    as long as the counter stays below [INT_MAX]. *)
Theorem beat_count_counts_reports (d : beat_detector_t)
    (fs : list audio_features_t) :
  0 <= beat_count d -> beat_count d + beats d fs < 2 ^ 31 ->
  beat_count (run d fs) = beat_count d + beats d fs /\
  0 <= beats d fs <= Z.of_nat (length fs).
Proof.
  intros H0 Hmax. split; [apply run_beat_count; assumption|].
  split; [apply beats_nonneg|].
  clear. revert d. induction fs as [|f fs IH]; intros d; [simpl; lia|].
  rewrite beats_cons. specialize (IH (fst (process d f))).
  simpl length. destruct (snd (process d f)); lia.
Qed.

Lemma beat_count_counts_reports_witness :
  beat_count (run init_state sample_session) = 0 + 2 /\
  0 <= beats init_state sample_session <= 3.
Proof.
  apply (beat_count_counts_reports init_state sample_session);
    vm_compute; [discriminate | reflexivity].
Defined.

(** A session without a reported beat leaves everything but the energy
    ring and its index as it was. *)
Lemma run_quiet fs : forall d,
  beats d fs = 0 ->
  beat_count (run d fs) = beat_count d /\
  tempo (run d fs) = tempo d /\
  beat_intervals (run d fs) = beat_intervals d /\
  last_beat_time (run d fs) = last_beat_time d.
Proof.
  induction fs as [|f fs IH]; intros d H; [simpl; auto|].
  rewrite beats_cons in H. rewrite run_cons.
  pose proof (beats_nonneg fs (fst (process d f))) as Hn.
  destruct (snd (process d f)) eqn:Eb; [lia|].
  destruct (process_quiet d f Eb) as (E1 & E2 & _ & E3 & E4).
  destruct (IH (fst (process d f))) as (F1 & F2 & F3 & F4); [lia|].
  repeat split; congruence.
Qed.

(** The first beat after a start with [beat_count = 0] leaves the
    interval ring and the tempo alone. *)
Lemma run_first_beat fs : forall d,
  beat_count d = 0 -> beats d fs <= 1 ->
  beat_count (run d fs) = beats d fs /\
  beat_intervals (run d fs) = beat_intervals d.
Proof.
  induction fs as [|f fs IH]; intros d H0 H1; [simpl; auto|].
  rewrite beats_cons in *. rewrite run_cons.
  pose proof (beats_nonneg fs (fst (process d f))) as Hn.
  destruct (snd (process d f)) eqn:Eb.
  - destruct (process_beat d f Eb) as (Ec & _ & Ei & _).
    rewrite update_tempo_idle in Ei by lia. simpl in Ei.
    rewrite H0 in Ec. change (Int.wrap32 (0 + 1)) with 1 in Ec.
    destruct (run_quiet fs (fst (process d f))) as (F1 & _ & F3 & _);
      [lia|].
    split; [|congruence].
    rewrite F1, Ec. lia.
  - destruct (process_quiet d f Eb) as (Ec & _ & _ & Ei & _).
    destruct (IH (fst (process d f))) as (F1 & F2); [congruence | lia |].
    split; [lia | congruence].
Qed.

(** The tempo a detector with one counted beat and an unwritten slot 0
    computes: the mean is taken over slot 0 alone, the fresh interval
    goes to slot 1. *)
Lemma update_tempo_second d now :
  beat_count d = 1 -> beat_intervals d !! 0%nat = Some F32.zero ->
  snd (update_tempo d now) = S754_infinity false.
Proof.
  intros Hc Hz. unfold update_tempo. rewrite Hc.
  change (0 <? 1) with true. change (1 <? 8) with true.
  change (Z.rem 1 8) with 1. cbn [snd]. change (Z.to_nat 1) with 1%nat.
  assert (E : take 1 (array_set (beat_intervals d) 1
                (F32.div (F32.of_Z (Int.wrap64 (now - last_beat_time d)))
                         (F32.of_Z 1000000))) = [F32.zero]).
  { unfold array_set. destruct (_ && _).
    - destruct (beat_intervals d) as [|x l]; [discriminate|].
      simpl in Hz. inversion Hz; subst x.
      destruct l; reflexivity.
    - destruct (beat_intervals d) as [|x l]; [discriminate|].
      simpl in Hz. inversion Hz; subst x. reflexivity. }
  rewrite E. vm_compute. reflexivity.
Qed.

(** After [audio_beat_detector_init], the call that reports the second
    beat of a session always sets [tempo] to [+Inf]: the interval just
    measured is stored in slot [beat_count % 8 = 1], but the mean is taken
    over the first [beat_count = 1] slots, that is over slot 0, which
    nothing has written yet, and [60.0f / 0.0f] is [+Inf]. *)
Theorem second_beat_tempo_is_infinite (fs : list audio_features_t)
    (f : audio_features_t) :
  beats init_state fs = 1 ->
  snd (process (run init_state fs) f) = true ->
  tempo (fst (process (run init_state fs) f)) = S754_infinity false.
Proof.
  intros H1 Hb.
  destruct (run_first_beat fs init_state) as (Ec & Ei);
    [reflexivity | lia |].
  destruct (process_beat _ f Hb) as (_ & Et & _).
  rewrite Et. apply update_tempo_second; [lia|].
  rewrite Ei. reflexivity.
Qed.

Lemma second_beat_tempo_is_infinite_witness :
  tempo (run init_state sample_session) = S754_infinity false.
Proof.
  apply (second_beat_tempo_is_infinite
           [frame (F32.of_Z 1) 300000; frame (F32.of_Z 2) 400000]
           (frame (F32.of_Z 5) 600000));
    vm_compute; reflexivity.
Defined.

(** [last_beat_time] never moves backwards over a session, whatever the
    order of the frames' timestamps; it stays where it was when no call
    reports a beat and is the timestamp of one of the frames
    otherwise. *)
Theorem last_beat_time_monotone (d : beat_detector_t)
    (fs : list audio_features_t) :
  detector_ok d -> Forall frame_ok fs ->
  last_beat_time d <= last_beat_time (run d fs) /\
  (beats d fs = 0 -> last_beat_time (run d fs) = last_beat_time d) /\
  (0 < beats d fs ->
   exists f, f ∈ fs /\ last_beat_time (run d fs) = timestamp f).
Proof.
  intros Hd Hfs. split; [|split].
  - revert d Hd. induction Hfs as [|f fs Hf Hfs IH]; intros d Hd;
      [simpl; lia|].
    rewrite run_cons.
    destruct (process_refractory d f Hd Hf) as [Hle _].
    specialize (IH _ (process_ok d f Hd Hf)). lia.
  - intros H0. apply run_quiet. exact H0.
  - clear Hd Hfs. revert d.
    induction fs as [|f fs IH] using rev_ind; intros d Hpos;
      [simpl in Hpos; lia|].
    rewrite beats_snoc in Hpos. rewrite run_snoc.
    destruct (snd (process (run d fs) f)) eqn:Eb.
    + destruct (process_beat _ f Eb) as (_ & _ & _ & _ & Et).
      exists f. split; [apply elem_of_app; right; left | exact Et].
    + destruct (process_quiet _ f Eb) as (_ & _ & _ & _ & Et).
      destruct (IH d) as (g & Hg & Eg); [lia|].
      exists g. split; [apply elem_of_app; left; exact Hg | congruence].
Qed.

Lemma last_beat_time_monotone_witness :
  0 <= last_beat_time (run init_state sample_session).
Proof.
  apply (last_beat_time_monotone init_state sample_session).
  - unfold detector_ok, clock_value. simpl. lia.
  - unfold sample_session, frame_ok, clock_value.
    repeat constructor; simpl; lia.
Defined.

End BeatSessions.

(** ** Loops that fill a buffer *)

Lemma array_set_lookup {A} (a : list A) i v (j : nat) :
  array_set a i v !! j =
  if bool_decide (i = Z.of_nat j) then (fun _ => v) <$> a !! j else a !! j.
Proof.
  unfold array_set.
  destruct (Z.leb_spec 0 i) as [H0|H0];
    [destruct (Z.ltb_spec i (Z.of_nat (length a))) as [H1|H1]|];
    cbn [andb]; case_bool_decide as E.
  - subst i. rewrite Nat2Z.id.
    destruct (lookup_lt_is_Some_2 a j) as [x Hx]; [lia|].
    rewrite Hx. apply list_lookup_insert_eq.
    apply lookup_lt_Some in Hx. exact Hx.
  - apply list_lookup_insert_ne. lia.
  - subst i. rewrite (lookup_ge_None_2 a j) by lia. reflexivity.
  - reflexivity.
  - lia.
  - reflexivity.
Qed.

Lemma for_loop_writes {A} (f : Z -> A) lo hi (a : list A) (j : nat) :
  for_loop lo hi (fun i out => array_set out i (f i)) a !! j =
  if (lo <=? Z.of_nat j) && (Z.of_nat j <? hi)
  then (fun _ => f (Z.of_nat j)) <$> a !! j
  else a !! j.
Proof.
  destruct (Z_le_gt_dec lo hi) as [Hle|Hgt].
  - revert j.
    apply (for_loop_invariant_indexed
             (fun k s => forall j : nat,
                s !! j =
                if (lo <=? Z.of_nat j) && (Z.of_nat j <? k)
                then (fun _ => f (Z.of_nat j)) <$> a !! j
                else a !! j)); [exact Hle | |].
    + intros j. destruct (Z.leb_spec lo (Z.of_nat j));
        destruct (Z.ltb_spec (Z.of_nat j) lo); try reflexivity; lia.
    + intros i s Hi IH j. rewrite array_set_lookup, IH.
      case_bool_decide as E.
      * subst i.
        destruct (Z.leb_spec lo (Z.of_nat j)); [|lia].
        destruct (Z.ltb_spec (Z.of_nat j) (Z.of_nat j)); [lia|].
        destruct (Z.ltb_spec (Z.of_nat j) (Z.of_nat j + 1)); [|lia].
        reflexivity.
      * destruct (Z.leb_spec lo (Z.of_nat j));
          destruct (Z.ltb_spec (Z.of_nat j) i);
          destruct (Z.ltb_spec (Z.of_nat j) (i + 1));
          try reflexivity; lia.
  - rewrite for_loop_empty by lia.
    destruct (Z.leb_spec lo (Z.of_nat j));
      destruct (Z.ltb_spec (Z.of_nat j) hi); try reflexivity; lia.
Qed.

Lemma for_loop_writes_length {A} (f : Z -> A) lo hi (a : list A) :
  length (for_loop lo hi (fun i out => array_set out i (f i)) a) = length a.
Proof.
  apply (for_loop_invariant (fun s => length s = length a));
    [reflexivity|].
  intros i s _ H. rewrite array_set_length. exact H.
Qed.

(** ** Frequency filter *)

Section FrequencyFilter.

Import Audio.

Variable cast : F32.float -> Z.
Variables (sp out : list F32.float) (size : Z).
Variables (low_freq high_freq : F32.float) (rate : Z).

Lemma low_bin_nonneg : 0 <= low_bin cast low_freq size rate.
Proof.
  unfold low_bin.
  destruct (Z.ltb_spec (filter_bin cast low_freq size rate) 0); lia.
Qed.

Lemma high_bin_below_size :
  0 <= size < 2 ^ 31 -> high_bin cast high_freq size rate < size.
Proof.
  intros H. unfold high_bin.
  destruct (Z.leb_spec size (filter_bin cast high_freq size rate)); [|lia].
  rewrite wrap32_id by lia. lia.
Qed.

Lemma filter_lookup (j : nat) :
  0 <= size < 2 ^ 31 ->
  for_loop (low_bin cast low_freq size rate)
           (high_bin cast high_freq size rate + 1)
    (fun i o => array_set o i (array_get sp i)) (clear out size) !! j =
  if Z.of_nat j <? size
  then (fun _ => if (low_bin cast low_freq size rate <=? Z.of_nat j)
                    && (Z.of_nat j <=? high_bin cast high_freq size rate)
                 then array_get sp (Z.of_nat j) else F32.zero) <$> out !! j
  else out !! j.
Proof.
  intros Hs. pose proof low_bin_nonneg as Hlo.
  pose proof (high_bin_below_size Hs) as Hhi.
  rewrite for_loop_writes. unfold clear. rewrite for_loop_writes.
  destruct (Z.leb_spec (low_bin cast low_freq size rate) (Z.of_nat j));
    cbn [andb];
    destruct (Z.ltb_spec (Z.of_nat j)
                (high_bin cast high_freq size rate + 1));
    destruct (Z.leb_spec (Z.of_nat j) (high_bin cast high_freq size rate));
    try lia;
    destruct (Z.leb_spec 0 (Z.of_nat j)); try lia; cbn [andb];
    destruct (Z.ltb_spec (Z.of_nat j) size); try lia;
    try reflexivity;
    unfold F32.float in *; destruct (out !! j); reflexivity.
Qed.

(** Where the conversion is defined, the bin is the integral part of
    the scaled frequency, whatever the hardware does elsewhere. *)
Lemma filter_bin_defined freq :
  F32.fits_int
    (F32.div (F32.mul (F32.mul freq (F32.of_Z 2)) (F32.of_Z size))
             (F32.of_Z rate)) = true ->
  filter_bin cast freq size rate =
  F32.to_int
    (F32.div (F32.mul (F32.mul freq (F32.of_Z 2)) (F32.of_Z size))
             (F32.of_Z rate)) /\
  - 2 ^ 31 <= filter_bin cast freq size rate < 2 ^ 31.
Proof.
  intros H. unfold filter_bin, float_to_int. rewrite H.
  split; [reflexivity|].
  unfold F32.fits_int in H.
  apply andb_true_iff in H. destruct H as [H H2].
  apply andb_true_iff in H. destruct H as [_ H1].
  apply Z.leb_le in H1. apply Z.ltb_lt in H2. lia.
Qed.

End FrequencyFilter.



(** The same call on the two kinds of machine: all zero where the
    conversion gives [INT_MIN], bins 1 to 3 where it saturates. *)
Example frequency_filter_out_of_range :
  Audio.audio_frequency_filter Audio.cast_to_int_min
    (Some (map F32.of_Z [1; 2; 3; 4])) (Some (replicate 4 (F32.of_Z 9)))
    4 (F32.of_Z 1000) (F32.of_Z 10000000000000) 8000
  = (ESP_OK, Some (map F32.of_Z [0; 0; 0; 0])) /\
  Audio.audio_frequency_filter Audio.cast_saturating
    (Some (map F32.of_Z [1; 2; 3; 4])) (Some (replicate 4 (F32.of_Z 9)))
    4 (F32.of_Z 1000) (F32.of_Z 10000000000000) 8000
  = (ESP_OK, Some (map F32.of_Z [0; 2; 3; 4])).
Proof. vm_compute. split; reflexivity. Qed.



(** ** Sign of squares, quotients and square roots *)

Section SignBit.

Lemma binary_round_aux_plus m e l :
  0 <= m ->
  F32.not_negative (binary_round_aux F32.prec F32.emax false m e l) = true.
Proof.
  intros H. unfold binary_round_aux.
  pose proof (shr_fexp_nonneg m e l H) as H1.
  destruct (shr_fexp F32.prec F32.emax m e l) as [mrs' e'].
  simpl in H1.
  pose proof (shr_fexp_nonneg
                (round_nearest_even (shr_m mrs') (loc_of_shr_record mrs'))
                e' loc_Exact
                (round_nearest_even_nonneg _ _ H1)) as H2.
  destruct (shr_fexp F32.prec F32.emax _ e' loc_Exact) as [mrs'' e''].
  simpl in H2.
  destruct (shr_m mrs'') as [|p|p]; [reflexivity| |lia].
  destruct (e'' <=? _); reflexivity.
Qed.

Lemma binary_round_plus m e :
  F32.not_negative (binary_round F32.prec F32.emax false m e) = true.
Proof.
  unfold binary_round.
  destruct (shl_align m e _) as [mz ez].
  apply binary_round_aux_plus. lia.
Qed.

Lemma of_Z_not_negative z : 0 <= z -> F32.not_negative (F32.of_Z z) = true.
Proof.
  intros H. unfold F32.of_Z, binary_normalize.
  destruct z as [|p|p]; [reflexivity | apply binary_round_plus | lia].
Qed.

Lemma mul_self_not_negative x : F32.not_negative (F32.mul x x) = true.
Proof.
  unfold F32.mul.
  destruct x as [s|s| |s m e]; simpl; try reflexivity;
    try (destruct s; reflexivity).
  destruct s; cbn [xorb negb]; apply binary_round_aux_plus; lia.
Qed.

Lemma add_not_negative a b :
  F32.not_negative a = true -> F32.not_negative b = true ->
  F32.not_negative (F32.add a b) = true.
Proof.
  unfold F32.add.
  destruct a as [sa|sa| |sa ma ea]; destruct b as [sb|sb| |sb mb eb];
    simpl; intros Ha Hb; try reflexivity;
    try (destruct sa; try discriminate);
    try (destruct sb; try discriminate); try reflexivity.
  unfold binary_normalize. simpl.
  apply binary_round_plus.
Qed.

Lemma div_not_negative a b :
  F32.not_negative a = true -> F32.not_negative b = true ->
  F32.not_negative (F32.div a b) = true.
Proof.
  unfold F32.div.
  destruct a as [sa|sa| |sa ma ea]; destruct b as [sb|sb| |sb mb eb];
    cbn [F32.not_negative SFdiv]; intros Ha Hb; try reflexivity;
    try (destruct sa; try discriminate);
    try (destruct sb; try discriminate); try reflexivity.
  destruct (div_core_spec ma mb ea eb) as (t & Hq & _).
  destruct (SFdiv_core_binary F32.prec F32.emax (Z.pos ma) ea (Z.pos mb) eb)
    as [[mz ez] lz].
  cbn [fst snd xorb] in *. apply binary_round_aux_plus. exact Hq.
Qed.

Lemma sqrtf_not_negative a :
  F32.not_negative a = true -> F32.not_negative (F32.sqrtf a) = true.
Proof.
  unfold F32.sqrtf.
  destruct a as [sa|sa| |sa ma ea]; simpl; intros Ha; try reflexivity;
    try (destruct sa; try discriminate; reflexivity).
  destruct sa; [discriminate|].
  unfold SFsqrt_core_binary.
  match goal with
  | |- context [Z.sqrtrem ?a] =>
      pose proof (Z.sqrtrem_sqrt a) as Hs;
      pose proof (Z.sqrt_nonneg a) as Hn;
      destruct (Z.sqrtrem a) as [q r]
  end.
  simpl in Hs. subst q. apply binary_round_aux_plus. exact Hn.
Qed.

Lemma not_negative_lt y :
  F32.not_negative y = true -> F32.lt y F32.zero = false.
Proof.
  destruct y as [s|s| |s m e]; simpl; intros H;
    try (destruct s; try discriminate); reflexivity.
Qed.

Lemma array_get_not_negative (a : list F32.float) i :
  Forall (fun x => F32.not_negative x = true) a ->
  F32.not_negative (array_get a i) = true.
Proof.
  intros H. destruct (array_get_cases a i) as [E|E]; [rewrite E; reflexivity|].
  rewrite Forall_forall in H. apply H, E.
Qed.

End SignBit.

(** ** Power spectral density *)

Lemma psd_lookup (mag out : list F32.float) size g (j : nat) :
  for_loop 0 size
    (fun i o =>
       array_set o i
         (F32.div (F32.mul (array_get mag i) (array_get mag i))
                  (F32.of_Z (sample_rate (Audio.g_audio_config g)))))
    out !! j =
  if (0 <=? Z.of_nat j) && (Z.of_nat j <? size)
  then (fun _ =>
          F32.div (F32.mul (array_get mag (Z.of_nat j))
                           (array_get mag (Z.of_nat j)))
                  (F32.of_Z (sample_rate (Audio.g_audio_config g))))
       <$> out !! j
  else out !! j.
Proof. apply for_loop_writes. Qed.

(** No entry of a power spectral density is negative, whatever the
    magnitudes are, as long as the configured sample rate is not
    negative: every slot written is a number with a clear sign bit or a
    NaN, so [psd[i] < 0] is never true; the slots from [size] on are left
    alone. *)
Theorem psd_never_negative (mag out : list F32.float) (size : Z)
    (g : Audio.globals) :
  0 <= sample_rate (Audio.g_audio_config g) ->
  exists res,
    Audio.audio_compute_psd (Some mag) (Some out) size g
      = (ESP_OK, Some res) /\
    length res = length out /\
    (forall j : nat, size <= Z.of_nat j -> res !! j = out !! j) /\
    (forall (j : nat) y, Z.of_nat j < size -> res !! j = Some y ->
       F32.not_negative y = true /\ F32.lt y F32.zero = false).
Proof.
  intros Hr. eexists. split; [reflexivity|]. split; [|split].
  - apply for_loop_writes_length.
  - intros j Hj. rewrite psd_lookup.
    destruct (Z.ltb_spec (Z.of_nat j) size); [lia|].
    rewrite andb_false_r. reflexivity.
  - intros j y Hj. rewrite psd_lookup.
    destruct (Z.leb_spec 0 (Z.of_nat j)); [|lia].
    destruct (Z.ltb_spec (Z.of_nat j) size); [|lia]. cbn [andb].
    unfold F32.float in *. destruct (out !! j); [|discriminate].
    intros E. inversion E; subst y; clear E.
    assert (H1 : F32.not_negative
                   (F32.div (F32.mul (array_get mag (Z.of_nat j))
                                     (array_get mag (Z.of_nat j)))
                            (F32.of_Z (sample_rate (Audio.g_audio_config g))))
                 = true).
    { apply div_not_negative;
        [apply mul_self_not_negative | apply of_Z_not_negative, Hr]. }
    split; [exact H1 | apply not_negative_lt, H1].
Qed.

Lemma psd_never_negative_witness :
  exists res,
    Audio.audio_compute_psd (Some (map F32.of_Z [-3; 4]))
                            (Some (replicate 2 F32.zero)) 2 Audio.primed
      = (ESP_OK, Some res) /\
    length res = 2%nat /\
    (forall j : nat, 2 <= Z.of_nat j ->
       res !! j = replicate 2 F32.zero !! j) /\
    (forall (j : nat) y, Z.of_nat j < 2 -> res !! j = Some y ->
       F32.not_negative y = true /\ F32.lt y F32.zero = false).
Proof.
  apply (psd_never_negative (map F32.of_Z [-3; 4]) (replicate 2 F32.zero)
                            2 Audio.primed).
  simpl. lia.
Defined.

(** [audio_compute_psd] does not look at [g_initialized].  Called before
    any [audio_processing_init] it divides by the sample rate 0 of the
    zero-initialised configuration and returns [ESP_OK] with no finite
    number in the slots it wrote: each is an infinity or a NaN. *)
Theorem psd_before_init_has_no_finite_entry (mag out : list F32.float)
    (size : Z) :
  exists res,
    Audio.audio_compute_psd (Some mag) (Some out) size Audio.startup
      = (ESP_OK, Some res) /\
    forall (j : nat) y, Z.of_nat j < size -> res !! j = Some y ->
      F32.is_finite y = false.
Proof.
  eexists. split; [reflexivity|].
  intros j y Hj. rewrite psd_lookup.
  destruct (Z.leb_spec 0 (Z.of_nat j)); [|lia].
  destruct (Z.ltb_spec (Z.of_nat j) size); [|lia]. cbn [andb].
  unfold F32.float in *. destruct (out !! j) as [old|]; [|discriminate].
  intros E. inversion E; subst y; clear E.
  change (F32.of_Z (sample_rate (Audio.g_audio_config Audio.startup)))
    with (S754_zero false).
  unfold F32.div.
  destruct (F32.mul _ _) as [s|s| |s m e]; reflexivity.
Qed.

(** ** Magnitudes and energy *)

Lemma sum_of_squares_not_negative spectrum size :
  F32.not_negative (Audio.sum_of_squares spectrum size) = true.
Proof.
  unfold Audio.sum_of_squares.
  apply (for_loop_invariant (fun acc => F32.not_negative acc = true));
    [reflexivity|].
  intros i acc _ H. apply add_not_negative;
    [exact H | apply mul_self_not_negative].
Qed.

Lemma feature_energy_sign spectrum size :
  F32.not_negative (Audio.feature_energy spectrum size) = true.
Proof.
  unfold Audio.feature_energy.
  apply sqrtf_not_negative, sum_of_squares_not_negative.
Qed.

(** The energy feature is never negative: whatever the spectrum holds
    (negative entries, infinities and NaNs included), the square root of
    the sum of squares has a clear sign bit or is a NaN. *)
Theorem feature_energy_never_negative (spectrum : list F32.float)
    (size : Z) :
  F32.not_negative (Audio.feature_energy spectrum size) = true /\
  F32.lt (Audio.feature_energy spectrum size) F32.zero = false.
Proof.
  pose proof (feature_energy_sign spectrum size) as H.
  split; [exact H | apply not_negative_lt, H].
Qed.

Section FourierTransform.

Variable malloc : Z -> bool.
Variable dsps_fft2r_fc32 : list F32.float -> Z -> esp_err_t * list F32.float.
Variable dsps_bit_rev_fc32 : list F32.float -> Z -> list F32.float.
Variable dsps_cplx2reC_fc32 : list F32.float -> Z -> list F32.float.

Lemma magnitudes_lookup buf size (out : list F32.float) (j : nat) :
  Audio.magnitudes buf size out !! j =
  if (0 <=? Z.of_nat j) && (Z.of_nat j <? Z.quot size 2)
  then (fun _ =>
          F32.sqrtf
            (F32.add (F32.mul (array_get buf (Z.of_nat j * 2))
                              (array_get buf (Z.of_nat j * 2)))
                     (F32.mul (array_get buf (Z.of_nat j * 2 + 1))
                              (array_get buf (Z.of_nat j * 2 + 1)))))
       <$> out !! j
  else out !! j.
Proof.
  unfold Audio.magnitudes.
  apply (for_loop_writes
           (fun i =>
              F32.sqrtf
                (F32.add (F32.mul (array_get buf (i * 2))
                                  (array_get buf (i * 2)))
                         (F32.mul (array_get buf (i * 2 + 1))
                                  (array_get buf (i * 2 + 1)))))).
Qed.

(** [audio_compute_fft] either fails and leaves the output buffer as it
    was (null argument, failed allocation, or the error code of
    [dsps_fft2r_fc32], which it hands on), or returns [ESP_OK] having
    written the first [fft_size / 2] slots, none of them with a negative
    number, whatever the ESP-DSP routines left in the work buffer. *)
Theorem fft_output_on_failure_and_success (inp out : list F32.float)
    (size : Z) (code : esp_err_t) (res : option (list F32.float)) :
  Audio.audio_compute_fft malloc dsps_fft2r_fc32 dsps_bit_rev_fc32
    dsps_cplx2reC_fc32 (Some inp) (Some out) size = (code, res) ->
  (code <> ESP_OK -> res = Some out) /\
  (code = ESP_OK ->
   exists r, res = Some r /\ length r = length out /\
     (forall j : nat, Z.quot size 2 <= Z.of_nat j -> r !! j = out !! j) /\
     (forall (j : nat) y, Z.of_nat j < Z.quot size 2 -> r !! j = Some y ->
        F32.not_negative y = true)).
Proof.
  unfold Audio.audio_compute_fft.
  destruct (malloc _).
  - destruct (dsps_fft2r_fc32 _ _) as [ret buf].
    destruct ret; intros E; inversion E; subst; clear E;
      (split; [intros H; try reflexivity; congruence|]);
      intros H; try discriminate.
    eexists. split; [reflexivity|]. split; [|split].
    + unfold Audio.magnitudes. apply for_loop_writes_length.
    + intros j Hj. rewrite magnitudes_lookup.
      destruct (Z.ltb_spec (Z.of_nat j) (Z.quot size 2)); [lia|].
      rewrite andb_false_r. reflexivity.
    + intros j y Hj. rewrite magnitudes_lookup.
      destruct (Z.leb_spec 0 (Z.of_nat j)); [|lia].
      destruct (Z.ltb_spec (Z.of_nat j) (Z.quot size 2)); [|lia].
      cbn [andb]. unfold F32.float in *.
      destruct (out !! j); [|discriminate].
      intros E. inversion E; subst y; clear E.
      apply sqrtf_not_negative, add_not_negative;
        apply mul_self_not_negative.
  - intros E; inversion E; subst; clear E.
    split; [reflexivity | discriminate].
Qed.

End FourierTransform.

Lemma fft_output_on_failure_and_success_witness :
  (ESP_OK <> ESP_OK ->
   Some (Audio.magnitudes
           (Audio.complex_input (map F32.of_Z [1; -2; 3; -4]) 4) 4
           (replicate 2 F32.zero))
   = Some (replicate 2 F32.zero)) /\
  (ESP_OK = ESP_OK ->
   exists r,
     Some (Audio.magnitudes
             (Audio.complex_input (map F32.of_Z [1; -2; 3; -4]) 4) 4
             (replicate 2 F32.zero)) = Some r /\
     length r = length (replicate 2 F32.zero) /\
     (forall j : nat, Z.quot 4 2 <= Z.of_nat j ->
        r !! j = replicate 2 F32.zero !! j) /\
     (forall (j : nat) y, Z.of_nat j < Z.quot 4 2 -> r !! j = Some y ->
        F32.not_negative y = true)).
Proof.
  apply (fft_output_on_failure_and_success
           Audio.malloc_succeeds (fun buf _ => (ESP_OK, buf))
           (fun buf _ => buf) (fun buf _ => buf)
           (map F32.of_Z [1; -2; 3; -4]) (replicate 2 F32.zero) 4).
  reflexivity.
Defined.

(** ** The window cache *)

Lemma for_loop_ext {St} lo hi (b1 b2 : Z -> St -> St) s :
  (forall i x, lo <= i < hi -> b1 i x = b2 i x) ->
  for_loop lo hi b1 s = for_loop lo hi b2 s.
Proof.
  intros H. destruct (Z_le_gt_dec lo hi) as [Hle|Hgt].
  - apply (for_loop_invariant_indexed
             (fun k x => lo <= k <= hi -> x = for_loop lo k b2 s));
      [exact Hle | | | lia].
    + intros _. rewrite for_loop_empty by lia. reflexivity.
    + intros i x Hi IH _. rewrite for_loop_snoc by lia.
      rewrite H by exact Hi. f_equal. apply IH. lia.
  - rewrite !for_loop_empty by lia. reflexivity.
Qed.

Lemma array_get_map_seqZ (f : Z -> F32.float) len i :
  0 <= i < len -> array_get (map f (seqZ 0 len)) i = f i.
Proof.
  intros H. apply array_get_lookup; [lia|].
  rewrite list_lookup_fmap, lookup_seqZ_lt by lia.
  rewrite Z2Nat.id by lia. reflexivity.
Qed.

Section WindowCache.

Import Audio.

Variable cosf : F32.float -> F32.float.
Variable malloc : Z -> bool.
Variable dsps_fft2r_init_fc32 : Z -> esp_err_t.

Lemma init_ok_globals c g g' :
  audio_processing_init cosf malloc dsps_fft2r_init_fc32 (Some c) g
    = (ESP_OK, g') ->
  g' = {| g_audio_config := c;
          g_initialized := true;
          g_window_coeffs :=
            Some (map (window_coeff cosf (window_type c) (fft_size c))
                      (seqZ 0 (fft_size c))) |}.
Proof.
  intros H. destruct (range_ok c) eqn:Er.
  - rewrite init_accepted in H by exact Er.
    destruct (dsps_fft2r_init_fc32 (fft_size c)); try discriminate.
    destruct (malloc (alloc_size (fft_size c))); [|discriminate].
    inversion H. reflexivity.
  - rewrite init_rejected in H by exact Er. discriminate.
Qed.

End WindowCache.

(** The window cache is transparent.  After a successful
    [audio_processing_init], [audio_apply_window] called with the
    configured length and one of the three cosine window types takes the
    cached coefficients and leaves exactly the buffer that the on-the-fly
    computation of an uninitialised component leaves. *)
Theorem window_cache_is_transparent (cosf : F32.float -> F32.float)
    (malloc : Z -> bool) (dsps_fft2r_init_fc32 : Z -> esp_err_t)
    (c : audio_config_t) (g g' : Audio.globals)
    (src dst : list F32.float) :
  Audio.audio_processing_init cosf malloc dsps_fft2r_init_fc32 (Some c) g
    = (ESP_OK, g') ->
  window_type c = AUDIO_WINDOW_HANN \/
  window_type c = AUDIO_WINDOW_HAMMING \/
  window_type c = AUDIO_WINDOW_BLACKMAN ->
  Audio.cached_coeffs g' (fft_size c) (window_type c) <> None /\
  Audio.audio_apply_window cosf (Some src) (Some dst)
                           (fft_size c) (window_type c) g'
  = Audio.audio_apply_window cosf (Some src) (Some dst)
                             (fft_size c) (window_type c) Audio.startup.
Proof.
  intros Hinit Hw. apply init_ok_globals in Hinit. subst g'.
  unfold Audio.audio_apply_window, Audio.cached_coeffs.
  cbn [Audio.g_window_coeffs Audio.g_audio_config Audio.startup].
  rewrite !Z.eqb_refl. cbn [andb]. split; [discriminate|].
  assert (Ht : (window_type c =? AUDIO_WINDOW_HANN)
               || (window_type c =? AUDIO_WINDOW_HAMMING)
               || (window_type c =? AUDIO_WINDOW_BLACKMAN) = true).
  { destruct Hw as [-> | [-> | ->]]; reflexivity. }
  rewrite Ht. f_equal. f_equal.
  apply for_loop_ext. intros i x Hi.
  rewrite array_get_map_seqZ by exact Hi. reflexivity.
Qed.

Lemma window_cache_is_transparent_witness :
  Audio.cached_coeffs
    {| Audio.g_audio_config := Audio.config_of 44100 64 1;
       Audio.g_initialized := true;
       Audio.g_window_coeffs :=
         Some (map (Audio.window_coeff Audio.cosf_unused 1 64)
                   (seqZ 0 64)) |} 64 1 <> None /\
  Audio.audio_apply_window Audio.cosf_unused
    (Some (replicate 64 (F32.of_Z 3))) (Some (replicate 64 F32.zero)) 64 1
    {| Audio.g_audio_config := Audio.config_of 44100 64 1;
       Audio.g_initialized := true;
       Audio.g_window_coeffs :=
         Some (map (Audio.window_coeff Audio.cosf_unused 1 64)
                   (seqZ 0 64)) |}
  = Audio.audio_apply_window Audio.cosf_unused
      (Some (replicate 64 (F32.of_Z 3))) (Some (replicate 64 F32.zero)) 64 1
      Audio.startup.
Proof.
  apply (window_cache_is_transparent
           Audio.cosf_unused Audio.malloc_succeeds Audio.dsps_accepts
           (Audio.config_of 44100 64 1) Audio.startup _
           (replicate 64 (F32.of_Z 3)) (replicate 64 F32.zero)).
  - reflexivity.
  - right; left; reflexivity.
Defined.

(** ** The chord estimate over a session *)

Section ChordSessions.

Import Chord.

Variable log2f : F32.float -> F32.float.

Lemma match_templates_index chroma :
  0 <= snd (match_templates chroma) < 24.
Proof.
  unfold match_templates, CHORD_TEMPLATES.
  apply (for_loop_invariant (fun best => 0 <= snd best < 24)); [simpl; lia|].
  intros c best Hc Hb. unfold match_step.
  destruct (F32.gt _ _); [simpl; lia | exact Hb].
Qed.

Lemma chroma_bins_length spectrum size rate :
  length (Audio.chroma_bins log2f spectrum size rate) = 12%nat.
Proof.
  unfold Audio.chroma_bins.
  apply (for_loop_invariant (fun c => length c = 12%nat)); [reflexivity|].
  intros i c _ H. destruct (_ && _); [|exact H].
  rewrite array_set_length. exact H.
Qed.

Lemma update_chord_ok best cur :
  0 <= snd best < 24 -> estimate_ok cur -> estimate_ok (update_chord best cur).
Proof.
  intros Hb Hc. unfold update_chord. destruct best as [bm bc].
  simpl in Hb. destruct (F32.gt bm (F32.lit 3 10)) eqn:E; [|exact Hc].
  destruct Hc as (_ & _ & Hl & _).
  unfold estimate_ok. cbn [root_note chord_type confidence chroma].
  split; [|split; [|split]].
  - pose proof (Z.rem_bound_pos bc 12). lia.
  - destruct (12 <=? bc); auto.
  - exact Hl.
  - right. exact E.
Qed.

Lemma analyze_chords_ok spectrum cur :
  estimate_ok cur -> estimate_ok (analyze_chords log2f spectrum cur).
Proof.
  intros Hc. unfold analyze_chords.
  destruct (F32.gt _ F32.zero).
  - apply update_chord_ok; [apply match_templates_index|].
    destruct Hc as (H1 & H2 & _ & H4).
    unfold estimate_ok. cbn [root_note chord_type confidence chroma].
    repeat split; try assumption; try apply H1.
    rewrite length_map. apply chroma_bins_length.
  - apply update_chord_ok; [apply match_templates_index | exact Hc].
Qed.

Lemma chord_index_in_range c :
  estimate_ok c -> 0 <= Sequencer.chord_index c < 24.
Proof.
  intros (H1 & H2 & _). unfold Sequencer.chord_index.
  destruct H2 as [-> | ->].
  - change (Int.wrap32 (0 * 12)) with 0. rewrite wrap32_id; lia.
  - change (Int.wrap32 (1 * 12)) with 12. rewrite wrap32_id; lia.
Qed.

End ChordSessions.

Lemma startup_estimate_ok : Chord.estimate_ok Chord.startup.
Proof.
  split; [split; [apply Z.le_refl | reflexivity]|].
  split; [left; reflexivity|].
  split; [reflexivity | left; reflexivity].
Qed.

Lemma fold_left_invariant {A B} (P : A -> Prop) (f : A -> B -> A) l :
  (forall a b, P a -> P (f a b)) -> forall a, P a -> P (fold_left f l a).
Proof.
  intros Hstep. induction l as [|b l IH]; intros a Ha; [exact Ha|].
  apply IH, Hstep, Ha.
Qed.

(** Whatever spectra the analysis task has fed to [analyze_chords] (and
    whatever [log2f] returns), [current_chord] holds a pitch class
    between 0 and 11, a chord type 0 or 1, twelve chroma entries and a
    confidence that is still the initial zero or exceeds 0.3; so the
    index [root_note + chord_type * 12] with which the visualisation task
    reads [chord_names] is always one of its 24 entries. *)
Theorem chord_estimate_stays_valid (log2f : F32.float -> F32.float)
    (spectra : list (list F32.float)) :
  Chord.estimate_ok (Chord.session log2f spectra) /\
  0 <= Sequencer.chord_index (Chord.session log2f spectra) < 24.
Proof.
  assert (H : Chord.estimate_ok (Chord.session log2f spectra)).
  { unfold Chord.session.
    apply (fold_left_invariant Chord.estimate_ok
             (fun cur spectrum => Chord.analyze_chords log2f spectrum cur));
      [|exact startup_estimate_ok].
    intros cur sp Hc. exact (analyze_chords_ok log2f sp cur Hc). }
  split; [exact H | apply chord_index_in_range, H].
Qed.

(** When a frame's winning correlation exceeds 0.3, the name the
    visualisation task prints for the new estimate is the name
    [analyze_chords] logs for the winning template: splitting the
    template index into [index % 12] and [index >= 12] and recombining it
    as [root_note + chord_type * 12] gives the index back. *)
Theorem displayed_chord_is_logged_chord
    (cur : Chord.chord_info_t) (chroma : list F32.float) :
  F32.gt (fst (Chord.match_templates chroma)) (F32.lit 3 10) = true ->
  Sequencer.chord_index (Chord.recognize chroma cur)
    = snd (Chord.match_templates chroma) /\
  Sequencer.displayed_chord (Chord.recognize chroma cur)
    = Sequencer.logged_chord (snd (Chord.match_templates chroma)).
Proof.
  intros H. pose proof (match_templates_index chroma) as Hi.
  unfold Chord.recognize, Chord.update_chord.
  destruct (Chord.match_templates chroma) as [bm bc]. simpl in H, Hi.
  cbn [snd]. rewrite H.
  assert (E : Sequencer.chord_index
                {| Chord.root_note := Z.rem bc 12;
                   Chord.chord_type := if 12 <=? bc then 1 else 0;
                   Chord.confidence := bm;
                   Chord.chroma := Chord.chroma cur |} = bc).
  { unfold Sequencer.chord_index. cbn [Chord.root_note Chord.chord_type].
    pose proof (Z.rem_bound_pos bc 12).
    assert (Hq : bc = 12 * Z.quot bc 12 + Z.rem bc 12)
      by (apply Z.quot_rem'; lia).
    destruct (Z.leb_spec 12 bc).
    - change (Int.wrap32 (1 * 12)) with 12.
      assert (Z.quot bc 12 = 1)
        by (symmetry; apply Z.quot_unique with (r := bc - 12); lia).
      rewrite wrap32_id; lia.
    - change (Int.wrap32 (0 * 12)) with 0.
      assert (Z.quot bc 12 = 0) by (apply Z.quot_small; lia).
      rewrite wrap32_id; lia. }
  split; [exact E|].
  unfold Sequencer.displayed_chord, Sequencer.logged_chord.
  rewrite E. cbn [Chord.confidence]. rewrite H. reflexivity.
Qed.

Lemma displayed_chord_is_logged_chord_witness :
  Sequencer.chord_index (Chord.recognize Chord.c_major_chroma Chord.startup)
    = snd (Chord.match_templates Chord.c_major_chroma) /\
  Sequencer.displayed_chord
    (Chord.recognize Chord.c_major_chroma Chord.startup)
    = Sequencer.logged_chord (snd (Chord.match_templates Chord.c_major_chroma)).
Proof.
  apply (displayed_chord_is_logged_chord Chord.startup Chord.c_major_chroma).
  vm_compute. reflexivity.
Defined.

(** A silent frame changes nothing: on an all-zero spectrum
    [analyze_chords] leaves [current_chord] exactly as it was, chroma
    snapshot included, because the chroma sum is not positive and no
    template correlates above zero. *)
Theorem silence_keeps_chord (log2f : F32.float -> F32.float)
    (spectrum : list F32.float) (cur : Chord.chord_info_t) :
  Forall (fun x => x = F32.zero) spectrum ->
  Chord.analyze_chords log2f spectrum cur = cur.
Proof.
  intros Hz. unfold Chord.analyze_chords.
  rewrite (chroma_of_silence log2f spectrum _ _ Hz).
  assert (E1 : F32.gt (accumulate (replicate 12 F32.zero)) F32.zero = false)
    by (vm_compute; reflexivity).
  assert (E2 : Chord.match_templates (replicate 12 F32.zero) = (F32.zero, 0))
    by (vm_compute; reflexivity).
  rewrite E1, E2. unfold Chord.update_chord.
  assert (E3 : F32.gt F32.zero (F32.lit 3 10) = false)
    by (vm_compute; reflexivity).
  rewrite E3. reflexivity.
Qed.

Lemma silence_keeps_chord_witness :
  Chord.analyze_chords Chord.log2f_ref (replicate 256 F32.zero)
    (Chord.recognize Chord.c_major_chroma Chord.startup)
  = Chord.recognize Chord.c_major_chroma Chord.startup.
Proof.
  apply (silence_keeps_chord Chord.log2f_ref (replicate 256 F32.zero)).
  apply Forall_replicate. reflexivity.
Defined.

(** ** The application's beat tracker and genre rule *)

Section SequencerBeats.

Import Sequencer.

Lemma detect_beats_quiet f now s :
  snd (detect_beats f now s) = false ->
  beat_tracker (fst (detect_beats f now s)) = beat_tracker s /\
  last_beat_time (fst (detect_beats f now s)) = last_beat_time s.
Proof.
  unfold detect_beats.
  destruct (F32.gt _ _ && _); [destruct (update_tempo _ _)|];
    cbn [fst snd beat_tracker last_beat_time]; [discriminate | auto].
Qed.

Lemma detect_beats_beat f now s :
  snd (detect_beats f now s) = true ->
  let bt := beat_tracker s in
  let bt' := beat_tracker (fst (detect_beats f now s)) in
  beat_index bt' = Int.wrap32 (beat_index bt + 1) /\
  tempo bt' = snd (update_tempo bt now) /\
  beat_intervals bt' = fst (update_tempo bt now) /\
  last_beat bt' = now /\
  last_beat_time (fst (detect_beats f now s)) = now.
Proof.
  unfold detect_beats.
  destruct (F32.gt _ _ && _); [destruct (update_tempo _ _)|];
    cbn [fst snd beat_tracker last_beat_time beat_index tempo
         beat_intervals last_beat]; [auto | discriminate].
Qed.

Lemma detect_beats_gap f now s :
  snd (detect_beats f now s) = true ->
  200000 < Int.wrap64 (now - last_beat_time s).
Proof.
  unfold detect_beats.
  destruct (F32.gt _ _); cbn [andb];
    [|intros H; discriminate].
  destruct (200000 <? _) eqn:E; [|intros H; discriminate].
  intros _. apply Z.ltb_lt. exact E.
Qed.

Lemma seq_run_cons s c calls :
  run s (c :: calls) = run (fst (detect_beats (fst c) (snd c) s)) calls.
Proof. reflexivity. Qed.

Lemma seq_beats_cons s c calls :
  beats s (c :: calls) =
  (if snd (detect_beats (fst c) (snd c) s) then 1 else 0)
  + beats (fst (detect_beats (fst c) (snd c) s)) calls.
Proof.
  cbn [beats]. destruct (detect_beats (fst c) (snd c) s). reflexivity.
Qed.

Lemma seq_beats_nonneg calls : forall s, 0 <= beats s calls.
Proof.
  induction calls as [|c calls IH]; intros s; [simpl; lia|].
  rewrite seq_beats_cons.
  specialize (IH (fst (detect_beats (fst c) (snd c) s))).
  destruct (snd (detect_beats (fst c) (snd c) s)); lia.
Qed.

Lemma seq_run_quiet calls : forall s,
  beats s calls = 0 -> beat_tracker (run s calls) = beat_tracker s.
Proof.
  induction calls as [|c calls IH]; intros s H; [reflexivity|].
  rewrite seq_beats_cons in H. rewrite seq_run_cons.
  pose proof (seq_beats_nonneg calls
                (fst (detect_beats (fst c) (snd c) s))) as Hn.
  destruct (snd (detect_beats (fst c) (snd c) s)) eqn:Eb; [lia|].
  destruct (detect_beats_quiet _ _ _ Eb) as [E _].
  rewrite IH by lia. exact E.
Qed.

Lemma seq_update_tempo_idle bt now :
  beat_index bt = 0 -> update_tempo bt now = (beat_intervals bt, tempo bt).
Proof. intros H. unfold update_tempo. rewrite H. reflexivity. Qed.

Lemma seq_run_first_beat calls : forall s,
  beat_index (beat_tracker s) = 0 -> beats s calls <= 1 ->
  beat_index (beat_tracker (run s calls)) = beats s calls /\
  beat_intervals (beat_tracker (run s calls))
    = beat_intervals (beat_tracker s).
Proof.
  induction calls as [|c calls IH]; intros s H0 H1; [simpl; auto|].
  rewrite seq_beats_cons in *. rewrite seq_run_cons.
  pose proof (seq_beats_nonneg calls
                (fst (detect_beats (fst c) (snd c) s))) as Hn.
  destruct (snd (detect_beats (fst c) (snd c) s)) eqn:Eb.
  - destruct (detect_beats_beat _ _ _ Eb) as (Ec & _ & Ei & _).
    rewrite seq_update_tempo_idle in Ei by exact H0. cbn [fst] in Ei.
    rewrite H0 in Ec. change (Int.wrap32 (0 + 1)) with 1 in Ec.
    rewrite seq_run_quiet by lia. split; [lia | exact Ei].
  - destruct (detect_beats_quiet _ _ _ Eb) as [E _].
    destruct (IH (fst (detect_beats (fst c) (snd c) s))) as (F1 & F2);
      [rewrite E; exact H0 | lia |].
    rewrite E in F2. split; [lia | exact F2].
Qed.

Lemma seq_update_tempo_second bt now :
  beat_index bt = 1 -> beat_intervals bt !! 0%nat = Some F32.zero ->
  snd (update_tempo bt now) = S754_infinity false.
Proof.
  intros Hc Hz. unfold update_tempo, BEAT_HISTORY. rewrite Hc.
  change (0 <? 1) with true. change (1 <? 8) with true.
  change (Z.rem 1 8) with 1. cbn [snd]. change (Z.to_nat 1) with 1%nat.
  assert (E : take 1 (array_set (beat_intervals bt) 1
                (F32.div (F32.of_Z (Int.wrap64 (now - last_beat bt)))
                         (F32.of_Z 1000000))) = [F32.zero]).
  { unfold array_set. destruct (_ && _).
    - destruct (beat_intervals bt) as [|x l]; [discriminate|].
      simpl in Hz. inversion Hz; subst x.
      destruct l; reflexivity.
    - destruct (beat_intervals bt) as [|x l]; [discriminate|].
      simpl in Hz. inversion Hz; subst x. reflexivity. }
  rewrite E. vm_compute. reflexivity.
Qed.

Lemma classify_genre_label f bt g :
  (predicted_genre (classify_genre f bt g) = 4
   \/ predicted_genre (classify_genre f bt g) = 7
   \/ predicted_genre (classify_genre f bt g) = 0)
  \/ (predicted_genre (classify_genre f bt g) = 1
      /\ F32.gt (tempo bt) (F32.of_Z 120) = true
      /\ F32.lt (tempo bt) (F32.of_Z 140) = true).
Proof.
  unfold classify_genre.
  destruct (F32.gt _ _ && F32.gt _ _); [left; left; reflexivity|].
  destruct (F32.lt _ _ && F32.gt _ _); [left; right; left; reflexivity|].
  destruct (F32.gt (tempo bt) _) eqn:E1; cbn [andb];
    [|left; right; right; reflexivity].
  destruct (F32.lt (tempo bt) _) eqn:E2;
    [|left; right; right; reflexivity].
  right. auto.
Qed.

End SequencerBeats.

(** In the application, [detect_beats] keeps two copies of the time of
    the last beat, the static [last_beat_time] and
    [beat_tracker.last_beat]; they are equal after any sequence of
    calls, so the interval stored for the tempo is the very gap the
    200 ms test has just accepted. *)
Theorem last_beat_copies_agree
    (calls : list (Sequencer.audio_features_t * Z)) :
  Sequencer.last_beat_time (Sequencer.run Sequencer.beat_startup calls)
  = Sequencer.last_beat
      (Sequencer.beat_tracker
         (Sequencer.run Sequencer.beat_startup calls)).
Proof.
  unfold Sequencer.run.
  apply (fold_left_invariant
           (fun s => Sequencer.last_beat_time s
                     = Sequencer.last_beat (Sequencer.beat_tracker s))
           (fun s c => fst (Sequencer.detect_beats (fst c) (snd c) s)));
    [|reflexivity].
  intros s c H.
  destruct (snd (Sequencer.detect_beats (fst c) (snd c) s)) eqn:Eb.
  - destruct (detect_beats_beat _ _ _ Eb) as (_ & _ & _ & E1 & E2).
    rewrite E1, E2. reflexivity.
  - destruct (detect_beats_quiet _ _ _ Eb) as [E1 E2].
    rewrite E1, E2. exact H.
Qed.

(** The application's tracker has the tempo flaw of the component: the
    call that takes the beat branch for the second time sets
    [beat_tracker.tempo] to [+Inf], and a genre classified with that
    tracker is never "Pop", since [+Inf < 140] is false. *)
Theorem second_beat_in_application
    (calls : list (Sequencer.audio_features_t * Z))
    (f : Sequencer.audio_features_t) (now : Z) :
  Sequencer.beats Sequencer.beat_startup calls = 1 ->
  snd (Sequencer.detect_beats f now
         (Sequencer.run Sequencer.beat_startup calls)) = true ->
  let bt := Sequencer.beat_tracker
              (fst (Sequencer.detect_beats f now
                      (Sequencer.run Sequencer.beat_startup calls))) in
  Sequencer.tempo bt = S754_infinity false /\
  forall f' g,
    Sequencer.predicted_genre (Sequencer.classify_genre f' bt g) <> 1.
Proof.
  intros H1 Hb bt.
  assert (Et : Sequencer.tempo bt = S754_infinity false).
  { destruct (seq_run_first_beat calls Sequencer.beat_startup)
      as (Ec & Ei); [reflexivity | lia |].
    destruct (detect_beats_beat _ _ _ Hb) as (_ & Et & _).
    subst bt. rewrite Et. apply seq_update_tempo_second; [lia|].
    rewrite Ei. reflexivity. }
  split; [exact Et|].
  intros f' g.
  destruct (classify_genre_label f' bt g) as [[H|[H|H]]|(_ & _ & H)];
    try (rewrite H; discriminate).
  rewrite Et in H. discriminate.
Qed.

Lemma second_beat_in_application_witness :
  Sequencer.tempo
    (Sequencer.beat_tracker
       (Sequencer.run Sequencer.beat_startup
          [Sequencer.call (F32.of_Z 1) 300000;
           Sequencer.call (F32.of_Z 5) 600000]))
  = S754_infinity false.
Proof.
  apply (second_beat_in_application
           [Sequencer.call (F32.of_Z 1) 300000]
           (fst (Sequencer.call (F32.of_Z 5) 600000)) 600000);
    vm_compute; reflexivity.
Defined.

(** [classify_genre] only ever predicts Rock, Pop, Electronic or Blues;
    the name it copies into [genre_name] is the entry of [genre_names] at
    the predicted index and fits the 16-byte field with its terminator;
    the confidence is the constant [0.6f]. *)
Theorem genre_label_matches_table (f : Sequencer.audio_features_t)
    (bt : Sequencer.beat_tracker_t) (g : Sequencer.genre_analysis_t) :
  let r := Sequencer.classify_genre f bt g in
  Sequencer.predicted_genre r ∈ [0; 1; 4; 7] /\
  Sequencer.genre_names !! Z.to_nat (Sequencer.predicted_genre r)
    = Some (Sequencer.genre_name r) /\
  (String.length (Sequencer.genre_name r) < 16)%nat /\
  Sequencer.confidence r = F32.lit 6 10.
Proof.
  cbn zeta. unfold Sequencer.classify_genre.
  destruct (F32.gt _ _ && F32.gt _ _);
    [|destruct (F32.lt _ _ && F32.gt _ _);
      [|destruct (F32.gt _ _ && F32.lt _ _)]];
    cbn [Sequencer.predicted_genre Sequencer.genre_name
         Sequencer.confidence];
    (split; [repeat constructor|]); (split; [reflexivity|]);
    (split; [vm_compute; lia | reflexivity]).
Qed.

(** ** Feature extraction *)

Section FeatureSigns.

Import Audio.

Lemma mul_not_negative a b :
  F32.not_negative a = true -> F32.not_negative b = true ->
  F32.not_negative (F32.mul a b) = true.
Proof.
  unfold F32.mul.
  destruct a as [sa|sa| |sa ma ea]; destruct b as [sb|sb| |sb mb eb];
    cbn [F32.not_negative SFmul]; intros Ha Hb; try reflexivity;
    try (destruct sa; try discriminate);
    try (destruct sb; try discriminate); try reflexivity.
  cbn [xorb]. apply binary_round_aux_plus. lia.
Qed.

Lemma bin_freq_not_negative i size rate :
  0 <= i -> 0 <= size -> 0 <= rate ->
  F32.not_negative (bin_freq i size rate) = true.
Proof.
  intros Hi Hs Hr. unfold bin_freq.
  apply div_not_negative; apply mul_not_negative;
    apply of_Z_not_negative; lia.
Qed.

Lemma rolloff_scan_result spectrum size rate thr bins : forall acc f,
  rolloff_scan spectrum size rate thr acc bins = Some f ->
  exists i, i ∈ bins /\ f = bin_freq i size rate.
Proof.
  induction bins as [|i bins IH]; intros acc f H; [discriminate|].
  cbn [rolloff_scan] in H.
  destruct (F32.ge _ _).
  - inversion H. exists i. split; [left | reflexivity].
  - destruct (IH _ _ H) as (j & Hj & E).
    exists j. split; [right; exact Hj | exact E].
Qed.

Variables (spectrum : list F32.float) (size rate : Z).
Hypothesis magnitudes : Forall (fun x => F32.not_negative x = true) spectrum.
Hypothesis size_nonneg : 0 <= size.
Hypothesis rate_nonneg : 0 <= rate.

Lemma centroid_not_negative :
  F32.not_negative (calculate_spectral_centroid spectrum size rate) = true.
Proof.
  unfold calculate_spectral_centroid.
  assert (H : F32.not_negative (fst (centroid_sums spectrum size rate)) = true
              /\ F32.not_negative (snd (centroid_sums spectrum size rate))
                 = true).
  { unfold centroid_sums.
    apply (for_loop_invariant
             (fun s => F32.not_negative (fst s) = true
                       /\ F32.not_negative (snd s) = true));
      [split; reflexivity|].
    intros i s Hi [H1 H2]. cbn [fst snd]. split.
    - apply add_not_negative; [exact H1|].
      apply mul_not_negative;
        [apply bin_freq_not_negative; lia
        | apply array_get_not_negative, magnitudes].
    - apply add_not_negative;
        [exact H2 | apply array_get_not_negative, magnitudes]. }
  destruct (centroid_sums spectrum size rate) as [w m]. cbn [fst snd] in H.
  destruct H as [Hw Hm].
  destruct (F32.gt m F32.zero); [|reflexivity].
  apply div_not_negative; assumption.
Qed.

Lemma rolloff_not_negative thr :
  F32.not_negative (calculate_spectral_rolloff spectrum size rate thr) = true.
Proof.
  unfold calculate_spectral_rolloff.
  destruct (rolloff_scan _ _ _ _ _ _) as [f|] eqn:E.
  - destruct (rolloff_scan_result _ _ _ _ _ _ _ E) as (i & Hi & ->).
    apply elem_of_seqZ in Hi.
    apply bin_freq_not_negative; lia.
  - apply div_not_negative; apply of_Z_not_negative; lia.
Qed.

Lemma spread_not_negative centroid :
  F32.not_negative (feature_spread spectrum size rate centroid) = true.
Proof.
  unfold feature_spread.
  assert (H : F32.not_negative
                (fst (spread_sums spectrum size rate centroid)) = true
              /\ F32.not_negative
                   (snd (spread_sums spectrum size rate centroid)) = true).
  { unfold spread_sums.
    apply (for_loop_invariant
             (fun s => F32.not_negative (fst s) = true
                       /\ F32.not_negative (snd s) = true));
      [split; reflexivity|].
    intros i s Hi [H1 H2]. cbn [fst snd]. split.
    - apply add_not_negative; [exact H1|].
      apply mul_not_negative;
        [apply mul_self_not_negative
        | apply array_get_not_negative, magnitudes].
    - apply add_not_negative;
        [exact H2 | apply array_get_not_negative, magnitudes]. }
  destruct (spread_sums spectrum size rate centroid) as [w m].
  cbn [fst snd] in H. destruct H as [Hw Hm].
  destruct (F32.gt m F32.zero); [|reflexivity].
  apply sqrtf_not_negative, div_not_negative; assumption.
Qed.

End FeatureSigns.

(** On a spectrum without negative entries, [audio_extract_features]
    returns [ESP_OK] with an energy, a centroid, a roll-off and a spread
    none of which is negative.  The fields [spectral_skewness],
    [spectral_kurtosis], [zero_crossing_rate] and [tempo] are never
    computed: they are the zeros of the initial [memset].  The timestamp
    is the clock reading, and the two vectors have 13 and 12 entries. *)
Theorem extracted_features_of_magnitudes
    (cast : F32.float -> Z) (log10f : F32.float -> F32.float)
    (powf : F32.float -> F32.float -> F32.float)
    (cosf log2f : F32.float -> F32.float)
    (spectrum : list F32.float) (size rate : Z)
    (old : audio_features_t) (now : Z) :
  Forall (fun x => F32.not_negative x = true) spectrum ->
  0 <= size -> 0 <= rate ->
  exists r,
    Audio.audio_extract_features cast log10f powf cosf log2f (Some spectrum)
      size rate (Some old) now = (ESP_OK, Some r) /\
    F32.not_negative (energy r) = true /\
    F32.not_negative (spectral_centroid r) = true /\
    F32.not_negative (spectral_rolloff r) = true /\
    F32.not_negative (spectral_spread r) = true /\
    spectral_skewness r = F32.zero /\
    spectral_kurtosis r = F32.zero /\
    zero_crossing_rate r = F32.zero /\
    feat_tempo r = F32.zero /\
    timestamp r = now /\
    length (mfcc r) = 13%nat /\ length (chroma r) = 12%nat.
Proof.
  intros Hm Hs Hr. eexists. split; [reflexivity|].
  cbn [energy spectral_centroid spectral_rolloff spectral_spread
       spectral_skewness spectral_kurtosis zero_crossing_rate feat_tempo
       timestamp mfcc chroma].
  split; [apply feature_energy_sign|].
  split; [apply centroid_not_negative; assumption|].
  split; [apply rolloff_not_negative; assumption|].
  split; [apply spread_not_negative; assumption|].
  do 5 (split; [reflexivity|]).
  split.
  - cbn [Audio.audio_compute_mfcc snd default from_option id].
    apply for_loop_writes_length.
  - cbn [Audio.audio_compute_chroma snd default from_option id].
    unfold Audio.normalize_chroma.
    destruct (F32.gt _ _); rewrite ?length_map;
      apply chroma_bins_length.
Qed.

Lemma extracted_features_of_magnitudes_witness :
  exists r,
    Audio.audio_extract_features F32.to_int (fun x => x) (fun x _ => x)
      (fun x => x)
      Chord.log2f_ref (Some (map F32.of_Z [0; 3; 4])) 3 8000
      (Some (Beat.frame F32.zero 0)) 42 = (ESP_OK, Some r) /\
    F32.not_negative (energy r) = true /\
    F32.not_negative (spectral_centroid r) = true /\
    F32.not_negative (spectral_rolloff r) = true /\
    F32.not_negative (spectral_spread r) = true /\
    spectral_skewness r = F32.zero /\
    spectral_kurtosis r = F32.zero /\
    zero_crossing_rate r = F32.zero /\
    feat_tempo r = F32.zero /\
    timestamp r = 42 /\
    length (mfcc r) = 13%nat /\ length (chroma r) = 12%nat.
Proof.
  apply (extracted_features_of_magnitudes
           F32.to_int (fun x => x) (fun x _ => x) (fun x => x) Chord.log2f_ref
           (map F32.of_Z [0; 3; 4]) 3 8000 (Beat.frame F32.zero 0) 42);
    [repeat constructor | lia | lia].
Defined.

Section Silence.

Import Audio.

Variable spectrum : list F32.float.
Hypothesis silent : Forall (fun x => x = F32.zero) spectrum.

Lemma silent_bin i : array_get spectrum i = F32.zero.
Proof.
  destruct (array_get_cases spectrum i) as [H|H]; [exact H|].
  rewrite Forall_forall in silent. apply silent, H.
Qed.

Lemma silent_sum_of_squares size : sum_of_squares spectrum size = F32.zero.
Proof.
  unfold sum_of_squares.
  apply (for_loop_invariant (fun acc => acc = F32.zero)); [reflexivity|].
  intros i acc _ ->. rewrite silent_bin. reflexivity.
Qed.

Lemma silent_centroid_sums size rate :
  snd (centroid_sums spectrum size rate) = F32.zero.
Proof.
  unfold centroid_sums.
  apply (for_loop_invariant (fun s => snd s = F32.zero)); [reflexivity|].
  intros i s _ H. cbn [snd]. rewrite H, silent_bin. reflexivity.
Qed.

Lemma silent_spread_sums size rate c :
  snd (spread_sums spectrum size rate c) = F32.zero.
Proof.
  unfold spread_sums.
  apply (for_loop_invariant (fun s => snd s = F32.zero)); [reflexivity|].
  intros i s _ H. cbn [snd]. rewrite H, silent_bin. reflexivity.
Qed.

End Silence.

(** The features of silence.  On an all-zero spectrum
    [audio_extract_features] gives energy 0, centroid 0, spread 0 and an
    all-zero chroma vector; the roll-off is not 0 but the frequency of
    bin 1, where the empty running sum first reaches the empty
    threshold. *)
Theorem features_of_silence
    (cast : F32.float -> Z) (log10f : F32.float -> F32.float)
    (powf : F32.float -> F32.float -> F32.float)
    (cosf log2f : F32.float -> F32.float)
    (spectrum : list F32.float) (size rate : Z)
    (old : audio_features_t) (now : Z) :
  Forall (fun x => x = F32.zero) spectrum -> 2 <= size ->
  exists r,
    Audio.audio_extract_features cast log10f powf cosf log2f (Some spectrum)
      size rate (Some old) now = (ESP_OK, Some r) /\
    energy r = F32.zero /\
    spectral_centroid r = F32.zero /\
    spectral_spread r = F32.zero /\
    spectral_rolloff r = Audio.bin_freq 1 size rate /\
    chroma r = replicate 12 F32.zero.
Proof.
  intros Hz Hs. eexists. split; [reflexivity|].
  cbn [energy spectral_centroid spectral_rolloff spectral_spread chroma].
  split; [|split; [|split; [|split]]].
  - unfold Audio.feature_energy.
    rewrite silent_sum_of_squares by exact Hz. reflexivity.
  - unfold Audio.calculate_spectral_centroid.
    pose proof (silent_centroid_sums spectrum Hz size rate) as H.
    destruct (Audio.centroid_sums spectrum size rate) as [w m].
    cbn [snd] in H. subst m. reflexivity.
  - unfold Audio.feature_spread.
    pose proof (silent_spread_sums spectrum Hz size rate
                  (Audio.calculate_spectral_centroid spectrum size rate))
      as H.
    destruct (Audio.spread_sums spectrum size rate _) as [w m].
    cbn [snd] in H. subst m. reflexivity.
  - apply (rolloff_of_silence size rate spectrum Hs Hz).
  - cbn [Audio.audio_compute_chroma snd default from_option id].
    rewrite (chroma_of_silence log2f spectrum size rate Hz).
    reflexivity.
Qed.

Lemma features_of_silence_witness :
  exists r,
    Audio.audio_extract_features F32.to_int (fun x => x) (fun x _ => x)
      (fun x => x)
      Chord.log2f_ref (Some (replicate 4 F32.zero)) 4 8000
      (Some (Beat.frame F32.zero 0)) 42 = (ESP_OK, Some r) /\
    energy r = F32.zero /\
    spectral_centroid r = F32.zero /\
    spectral_spread r = F32.zero /\
    spectral_rolloff r = Audio.bin_freq 1 4 8000 /\
    chroma r = replicate 12 F32.zero.
Proof.
  apply (features_of_silence
           F32.to_int (fun x => x) (fun x _ => x) (fun x => x) Chord.log2f_ref
           (replicate 4 F32.zero) 4 8000 (Beat.frame F32.zero 0) 42);
    [apply Forall_replicate; reflexivity | lia].
Defined.

(** ** Silent frames and the beat detector *)

Section SilentFrames.

Import Beat.

Lemma accumulate_not_negative l :
  Forall (fun x => F32.not_negative x = true) l ->
  F32.not_negative (accumulate l) = true.
Proof.
  unfold accumulate.
  assert (H : forall acc, F32.not_negative acc = true ->
              Forall (fun x => F32.not_negative x = true) l ->
              F32.not_negative (fold_left F32.add l acc) = true).
  { induction l as [|x l IH]; intros acc Ha Hl; [exact Ha|].
    inversion Hl; subst. cbn [fold_left].
    apply IH; [apply add_not_negative|]; assumption. }
  apply H. reflexivity.
Qed.

Lemma ring_mean_not_negative hist :
  Forall (fun x => F32.not_negative x = true) hist ->
  F32.not_negative (ring_mean hist) = true.
Proof.
  intros H. unfold ring_mean. apply div_not_negative; [|reflexivity].
  apply accumulate_not_negative, Forall_take, H.
Qed.

Lemma run_history_not_negative fs : forall d,
  Forall (fun x => F32.not_negative x = true) (energy_history d) ->
  Forall (fun g => F32.not_negative (energy g) = true) fs ->
  Forall (fun x => F32.not_negative x = true) (energy_history (run d fs)).
Proof.
  induction fs as [|f fs IH]; intros d Hd Hfs; [exact Hd|].
  inversion Hfs; subst. rewrite run_cons. apply IH; [|assumption].
  rewrite process_history. apply array_set_Forall; assumption.
Qed.

End SilentFrames.

(** A frame without energy is never a beat.  In a session started by
    [audio_beat_detector_init] in which no frame has a negative energy
    (as is the case for the energies [audio_extract_features] produces),
    a call whose frame has energy zero leaves [*beat_detected] false,
    whatever its timestamp. *)
Theorem silent_frame_is_no_beat (fs : list audio_features_t)
    (f : audio_features_t) :
  Forall (fun g => F32.not_negative (energy g) = true) fs ->
  energy f = F32.zero ->
  snd (Beat.process (Beat.run Beat.init_state fs) f) = false.
Proof.
  intros Hfs Hf. rewrite process_fired, Hf.
  apply andb_false_iff. left.
  assert (Hh : Forall (fun x => F32.not_negative x = true)
                 (array_set (energy_history (Beat.run Beat.init_state fs))
                            (history_index (Beat.run Beat.init_state fs))
                            F32.zero)).
  { apply array_set_Forall; [|reflexivity].
    apply run_history_not_negative; [|exact Hfs].
    apply Forall_replicate. reflexivity. }
  pose proof (mul_not_negative (F32.lit 13 10) _ eq_refl
                (ring_mean_not_negative _ Hh)) as Ht.
  exact (not_negative_lt _ Ht).
Qed.

Lemma silent_frame_is_no_beat_witness :
  snd (Beat.process (Beat.run Beat.init_state Beat.sample_session)
                    (Beat.frame F32.zero 900000)) = false.
Proof.
  apply (silent_frame_is_no_beat Beat.sample_session
                                 (Beat.frame F32.zero 900000));
    [repeat constructor | reflexivity].
Defined.

(** ** Exact results *)

Section Representable.

(** When the number given to [binary_round_aux] is a multiple of the unit
    in the last place it will have, nothing is rounded: the mantissa is
    that multiple. *)
Lemma round_core_representable (mx ex : Z) (lx : location) (t : Q) (k : Z) :
  0 <= mx -> F32.repr (shr_record_of_loc mx lx) t ->
  let e' := Z.max ex (fexp F32.prec F32.emax (Zdigits2 mx + ex)) in
  (t * F32.pow2 (ex - e') == inject_Z k)%Q ->
  F32.round_core mx ex lx = (k, e').
Proof.
  intros Hmx Hrep. cbn zeta.
  set (d := Zdigits2 mx). set (fe := fexp F32.prec F32.emax (d + ex)).
  set (n := Z.max (fe - ex) 0).
  assert (Hfe : fe = Z.max (d + ex - 24) (-149)) by apply fexp_eq.
  assert (He' : Z.max ex fe = ex + n) by (unfold n; lia).
  rewrite He'. replace (ex - (ex + n)) with (- n) by lia. intros Hk.
  assert (Hm0 : 0 <= shr_m (shr_record_of_loc mx lx))
    by (rewrite shr_record_of_loc_m; exact Hmx).
  destruct (shr_repr (shr_record_of_loc mx lx) ex (fe - ex) t Hm0 Hrep)
    as [Hs1 Hr1].
  fold n in Hs1, Hr1.
  unfold F32.round_core.
  change (shr_fexp F32.prec F32.emax mx ex lx)
    with (shr (shr_record_of_loc mx lx) ex (fe - ex)).
  destruct (shr (shr_record_of_loc mx lx) ex (fe - ex)) as [mrs' e1] eqn:E1.
  cbn [fst snd] in Hs1, Hr1. subst e1.
  assert (Hm' : 0 <= shr_m mrs').
  { pose proof (shr_nonneg (shr_record_of_loc mx lx) ex (fe - ex) Hm0) as H.
    rewrite E1 in H. exact H. }
  (* the scaled number is below 2^24 *)
  assert (Ht : (t < F32.pow2 d)%Q).
  { destruct (repr_of_loc_bounds _ _ _ Hrep) as [_ Hlt].
    assert (Hd : mx + 1 <= 2 ^ d).
    { destruct (Z.eq_dec mx 0) as [->|Hne]; [reflexivity|].
      pose proof (Zdigits2_bounds mx ltac:(lia)). fold d in H. lia. }
    pose proof (pow2_Z d (Zdigits2_nonneg mx)) as Ed.
    assert (Hq : (inject_Z (mx + 1) <= inject_Z (2 ^ d))%Q)
      by (rewrite <- Zle_Qle; exact Hd).
    rewrite inject_Z_plus in Hq. change (inject_Z 1) with 1%Q in Hq. lra. }
  assert (Ht' : (t * F32.pow2 (- n) < F32.pow2 24)%Q).
  { pose proof (pow2_pos (- n)) as Hp.
    pose proof (pow2_add d (- n)) as Ea.
    pose proof (pow2_le (d + - n) 24 ltac:(unfold n; lia)) as Hle.
    nra. }
  destruct (repr_bounds _ _ Hr1) as [Hlo Hhi].
  assert (Hkm : shr_m mrs' = k).
  { assert (shr_m mrs' <= k) by (rewrite Zle_Qle; lra).
    assert (k < shr_m mrs' + 1).
    { apply inject_Z_lt_inv. rewrite inject_Z_plus.
      change (inject_Z 1) with 1%Q. lra. }
    lia. }
  assert (Hk24 : k < 2 ^ 24).
  { apply inject_Z_lt_inv. pose proof (pow2_Z 24 ltac:(lia)) as E24. lra. }
  assert (Hexact : shr_r mrs' = false /\ shr_s mrs' = false).
  { unfold F32.repr in Hr1. rewrite Hkm in Hr1.
    destruct (shr_r mrs'), (shr_s mrs'); unfold F32.frac_ok in Hr1;
      try (split; reflexivity); exfalso; lra. }
  destruct mrs' as [m' r' s']. cbn [shr_m shr_r shr_s] in *.
  destruct Hexact as [-> ->]. subst m'.
  cbn [loc_of_shr_record round_nearest_even].
  unfold shr_fexp. rewrite fexp_eq.
  assert (Hd : Zdigits2 k <= 24) by (apply Zdigits2_le; lia).
  rewrite shr_nonpos by (unfold n in *; lia).
  cbn [shr_record_of_loc shr_m fst snd]. reflexivity.
Qed.

Lemma Zdigits2_unique m d :
  0 < m -> 2 ^ (d - 1) <= m < 2 ^ d -> Zdigits2 m = d.
Proof.
  intros Hm [Hlo Hhi]. pose proof (Zdigits2_bounds m Hm) as [Blo Bhi].
  pose proof (Zdigits2_nonneg m) as Hn.
  assert (Hd : 0 < d).
  { destruct (Z_lt_le_dec 0 d) as [|Hle]; [assumption|].
    assert (2 ^ d <= 2 ^ 0) by (apply Z.pow_le_mono_r; lia).
    change (2 ^ 0) with 1 in *. lia. }
  destruct (Z.lt_trichotomy (Zdigits2 m) d) as [H|[H|H]]; [|exact H|].
  - assert (2 ^ Zdigits2 m <= 2 ^ (d - 1)) by (apply Z.pow_le_mono_r; lia).
    lia.
  - assert (2 ^ d <= 2 ^ (Zdigits2 m - 1)) by (apply Z.pow_le_mono_r; lia).
    lia.
Qed.

Lemma Zdigits2_shift m k :
  0 < m -> 0 <= k -> Zdigits2 (m * 2 ^ k) = Zdigits2 m + k.
Proof.
  intros Hm Hk. pose proof (Zdigits2_bounds m Hm) as [Blo Bhi].
  pose proof (Zdigits2_nonneg m) as Hn.
  assert (Hd : 0 < Zdigits2 m).
  { destruct (Z.eq_dec (Zdigits2 m) 0) as [E|]; [|lia].
    rewrite E in Bhi. change (2 ^ 0) with 1 in Bhi. lia. }
  assert (Hp : 0 < 2 ^ k) by (apply Z.pow_pos_nonneg; lia).
  apply Zdigits2_unique; [nia|].
  replace (Zdigits2 m + k - 1) with ((Zdigits2 m - 1) + k) by lia.
  rewrite !Z.pow_add_r by lia. nia.
Qed.

Lemma canonical_exponent m e :
  valid_binary F32.prec F32.emax (S754_finite false m e) = true ->
  fexp F32.prec F32.emax (Zdigits2 (Zpos m) + e) = e /\ e <= 104.
Proof.
  cbn [valid_binary]. unfold bounded, canonical_mantissa.
  intros H. apply andb_true_iff in H. destruct H as [H1 H2].
  apply Z.eqb_eq in H1. apply Z.leb_le in H2.
  split; [exact H1 | exact H2].
Qed.

(** Multiplying by [1.0f] gives back the number. *)
Lemma mul_one x : F32.well_formed x -> F32.mul x (F32.of_Z 1) = x.
Proof.
  unfold F32.well_formed.
  change (F32.of_Z 1) with (S754_finite false 8388608 (-23)).
  destruct x as [s|s| |s m e]; intros Hv; unfold F32.mul; cbn [SFmul];
    rewrite ?xorb_false_r; try reflexivity.
  destruct (canonical_exponent m e Hv) as [Hc He].
  assert (Hd : Zdigits2 (Zpos (m * 8388608)) = Zdigits2 (Zpos m) + 23).
  { change (Zpos (m * 8388608)) with (Zpos m * 2 ^ 23).
    apply Zdigits2_shift; lia. }
  assert (E : F32.round_core (Zpos (m * 8388608)) (e + -23) loc_Exact
              = (Zpos m, e)).
  { pose proof (round_core_representable
                  (Zpos (m * 8388608)) (e + -23) loc_Exact
                  (inject_Z (Zpos (m * 8388608))) (Zpos m)) as H.
    cbn zeta in H. rewrite Hd in H.
    replace (Zdigits2 (Zpos m) + 23 + (e + -23))
      with (Zdigits2 (Zpos m) + e) in H by lia.
    rewrite Hc in H.
    replace (Z.max (e + -23) e) with e in H by lia.
    apply H; [lia | |].
    - unfold F32.repr. cbn [shr_record_of_loc shr_m shr_r shr_s].
      unfold F32.frac_ok. ring.
    - replace (e + -23 - e) with (-23) by lia.
      change (Zpos (m * 8388608)) with (Zpos m * 8388608).
      rewrite inject_Z_mult.
      change (F32.pow2 (-23)) with (1 # 8388608)%Q.
      change (inject_Z 8388608) with (8388608 # 1)%Q.
      field. }
  rewrite binary_round_aux_core, E. cbn [fst snd].
  destruct (Z.leb_spec e 104); [reflexivity | lia].
Qed.

End Representable.

(** With any other window type the cache holds the coefficient [1.0f]
    in every slot, and the cached path multiplies where the uncached path
    copies.  On well-formed samples the two agree: the
    product of a sample with [1.0f] is the sample, bit for bit. *)
Theorem rectangular_cache_is_a_copy (cosf : F32.float -> F32.float)
    (malloc : Z -> bool) (dsps_fft2r_init_fc32 : Z -> esp_err_t)
    (c : audio_config_t) (g g' : Audio.globals)
    (src dst : list F32.float) :
  Audio.audio_processing_init cosf malloc dsps_fft2r_init_fc32 (Some c) g
    = (ESP_OK, g') ->
  window_type c <> AUDIO_WINDOW_HANN ->
  window_type c <> AUDIO_WINDOW_HAMMING ->
  window_type c <> AUDIO_WINDOW_BLACKMAN ->
  Forall F32.well_formed src ->
  Audio.cached_coeffs g' (fft_size c) (window_type c) <> None /\
  Audio.audio_apply_window cosf (Some src) (Some dst)
                           (fft_size c) (window_type c) g'
  = Audio.audio_apply_window cosf (Some src) (Some dst)
                             (fft_size c) (window_type c) Audio.startup.
Proof.
  intros Hinit H0 H1 H2 Hsrc.
  assert (Hr : 64 <= fft_size c <= 4096).
  { destruct (Audio.range_ok c) eqn:Er.
    - unfold Audio.range_ok in Er.
      rewrite !andb_true_iff, !Z.leb_le in Er. lia.
    - rewrite init_rejected in Hinit by exact Er. discriminate. }
  apply init_ok_globals in Hinit. subst g'.
  unfold Audio.audio_apply_window, Audio.cached_coeffs.
  cbn [Audio.g_window_coeffs Audio.g_audio_config Audio.startup].
  rewrite !Z.eqb_refl. cbn [andb]. split; [discriminate|].
  apply Z.eqb_neq in H0, H1, H2. rewrite H0, H1, H2. cbn [orb].
  rewrite memcpy_floats_small by lia.
  f_equal. f_equal.
  apply for_loop_ext. intros i x Hi.
  rewrite array_get_map_seqZ by exact Hi.
  unfold Audio.window_coeff. rewrite H0, H1, H2.
  rewrite mul_one; [reflexivity|].
  destruct (array_get_cases src i) as [E|E]; [rewrite E; reflexivity|].
  rewrite Forall_forall in Hsrc. apply Hsrc, E.
Qed.

Lemma rectangular_cache_is_a_copy_witness :
  Audio.cached_coeffs
    {| Audio.g_audio_config := Audio.config_of 44100 64 3;
       Audio.g_initialized := true;
       Audio.g_window_coeffs :=
         Some (map (Audio.window_coeff Audio.cosf_unused 3 64)
                   (seqZ 0 64)) |} 64 3 <> None /\
  Audio.audio_apply_window Audio.cosf_unused
    (Some (replicate 64 (F32.of_Z 3))) (Some (replicate 64 F32.zero)) 64 3
    {| Audio.g_audio_config := Audio.config_of 44100 64 3;
       Audio.g_initialized := true;
       Audio.g_window_coeffs :=
         Some (map (Audio.window_coeff Audio.cosf_unused 3 64)
                   (seqZ 0 64)) |}
  = Audio.audio_apply_window Audio.cosf_unused
      (Some (replicate 64 (F32.of_Z 3))) (Some (replicate 64 F32.zero)) 64 3
      Audio.startup.
Proof.
  apply (rectangular_cache_is_a_copy
           Audio.cosf_unused Audio.malloc_succeeds Audio.dsps_accepts
           (Audio.config_of 44100 64 3) Audio.startup _
           (replicate 64 (F32.of_Z 3)) (replicate 64 F32.zero));
    try reflexivity; try discriminate.
  apply Forall_replicate. reflexivity.
Defined.

(** ** Conversion of the I2S samples *)

Section SampleConversion.

(** Dividing a normal number by [131072.0f] lowers its exponent by 17
    and keeps its mantissa. *)
Lemma div_by_131072 s m e :
  Zdigits2 (Zpos m) = 24 -> -131 <= e <= 121 ->
  F32.div (S754_finite s m e) (S754_finite false 8388608 (-6))
  = S754_finite s m (e - 17).
Proof.
  intros Hd He. unfold F32.div. cbn [SFdiv]. unfold SFdiv_core_binary.
  change (Zdigits2 (Z.pos 8388608)) with 24. rewrite Hd, fexp_eq.
  replace (Z.min (Z.max (24 + e - (24 + -6) - 24) (-149)) (e - -6))
    with (e - 18) by lia.
  replace (e - -6 - (e - 18)) with 24 by lia.
  cbn match. rewrite Z.shiftl_mul_pow2 by lia.
  pose proof (Z_div_mod (Z.pos m * 2 ^ 24) (Z.pos 8388608) ltac:(lia))
    as Hdiv.
  destruct (Z.div_eucl (Z.pos m * 2 ^ 24) (Z.pos 8388608)) as [q r].
  destruct Hdiv as [Hqr Hr].
  change (2 ^ 24) with 16777216 in Hqr.
  assert (Eq : q = 2 * Z.pos m) by lia.
  assert (Er : r = 0) by lia.
  subst q r.
  change (new_location (Z.pos 8388608) 0) with loc_Exact.
  rewrite xorb_false_r.
  assert (D : Zdigits2 (2 * Z.pos m) = 25).
  { replace (2 * Z.pos m) with (Z.pos m * 2 ^ 1) by lia.
    rewrite Zdigits2_shift by lia. lia. }
  assert (E : F32.round_core (2 * Z.pos m) (e - 18) loc_Exact
              = (Z.pos m, e - 17)).
  { pose proof (round_core_representable
                  (2 * Z.pos m) (e - 18) loc_Exact
                  (inject_Z (2 * Z.pos m)) (Z.pos m)) as H.
    cbn zeta in H. rewrite D, fexp_eq in H.
    replace (Z.max (e - 18) (Z.max (25 + (e - 18) - 24) (-149)))
      with (e - 17) in H by lia.
    apply H; [lia | |].
    - unfold F32.repr. cbn [shr_record_of_loc shr_m shr_r shr_s].
      unfold F32.frac_ok. ring.
    - replace (e - 18 - (e - 17)) with (-1) by lia.
      rewrite inject_Z_mult.
      change (F32.pow2 (-1)) with (1 # 2)%Q.
      change (inject_Z 2) with 2%Q. field. }
  rewrite binary_round_aux_core, E. cbn [fst snd].
  destruct (Z.leb_spec (e - 17) 104); [reflexivity | lia].
Qed.

Lemma shl_align_Z m e e0 :
  e0 <= e ->
  Zpos (fst (shl_align m e e0)) = Zpos m * 2 ^ (e - e0) /\
  snd (shl_align m e e0) = e0.
Proof.
  intros H. unfold shl_align.
  destruct (e0 - e) as [|p|p] eqn:E; cbn [fst snd]; [| lia |].
  - replace (e - e0) with 0 by lia. split; lia.
  - rewrite iter_xO_value. replace (e - e0) with (Zpos p) by lia.
    split; reflexivity.
Qed.

(** The conversion of a small integer: a normal number whose 24-bit
    mantissa is the integer shifted left. *)
Lemma binary_round_small s p :
  Zpos p < 2 ^ 24 ->
  exists m,
    binary_round F32.prec F32.emax s p 0
      = S754_finite s m (Zdigits2 (Zpos p) - 24) /\
    Zdigits2 (Zpos m) = 24 /\
    Zpos m = Zpos p * 2 ^ (24 - Zdigits2 (Zpos p)).
Proof.
  intros Hp. set (d := Zdigits2 (Zpos p)).
  assert (Hd : 1 <= d <= 24).
  { split; [|apply Zdigits2_le; lia].
    pose proof (Zdigits2_bounds (Zpos p) ltac:(lia)) as [_ B].
    fold d in B. pose proof (Zdigits2_nonneg (Zpos p)) as Hn. fold d in Hn.
    destruct (Z.eq_dec d 0) as [E|]; [|lia].
    rewrite E in B. change (2 ^ 0) with 1 in B. lia. }
  unfold binary_round.
  change (Zpos (digits2_pos p)) with d. rewrite fexp_eq.
  replace (Z.max (d + 0 - 24) (-149)) with (d - 24) by lia.
  destruct (shl_align_Z p 0 (d - 24) ltac:(lia)) as [Hm He].
  destruct (shl_align p 0 (d - 24)) as [mz ez]. cbn [fst snd] in Hm, He.
  subst ez. replace (0 - (d - 24)) with (24 - d) in Hm by lia.
  assert (D : Zdigits2 (Zpos mz) = 24).
  { rewrite Hm, Zdigits2_shift by lia. fold d. lia. }
  exists mz. split; [|split; [exact D | exact Hm]].
  assert (E : F32.round_core (Zpos mz) (d - 24) loc_Exact
              = (Zpos mz, d - 24)).
  { pose proof (round_core_representable
                  (Zpos mz) (d - 24) loc_Exact
                  (inject_Z (Zpos mz)) (Zpos mz)) as H.
    cbn zeta in H. rewrite D, fexp_eq in H.
    replace (Z.max (d - 24) (Z.max (24 + (d - 24) - 24) (-149)))
      with (d - 24) in H by lia.
    apply H; [lia | |].
    - unfold F32.repr. cbn [shr_record_of_loc shr_m shr_r shr_s].
      unfold F32.frac_ok. ring.
    - rewrite Z.sub_diag. change (F32.pow2 0) with 1%Q. ring. }
  rewrite binary_round_aux_core, E. cbn [fst snd].
  destruct (Z.leb_spec (d - 24) 104); [reflexivity | lia].
Qed.

Lemma scaled_sample_value s (n : Z) m :
  0 < n ->
  Zpos m = n * 2 ^ (24 - Zdigits2 n) -> 1 <= Zdigits2 n <= 24 ->
  (F32.value (S754_finite s m (Zdigits2 n - 24 - 17))
   == (if s then -1 else 1) * inject_Z n / 131072)%Q.
Proof.
  intros Hn Hm Hd. cbn [F32.value]. rewrite Hm, inject_Z_mult.
  pose proof (pow2_Z (24 - Zdigits2 n) ltac:(lia)) as E1.
  pose proof (pow2_add (24 - Zdigits2 n) (Zdigits2 n - 24 - 17)) as E2.
  replace (24 - Zdigits2 n + (Zdigits2 n - 24 - 17)) with (-17) in E2
    by lia.
  change (F32.pow2 (-17)) with (1 # 131072)%Q in E2.
  rewrite <- E1.
  transitivity ((if s then -1 else 1) * inject_Z n
                * (F32.pow2 (24 - Zdigits2 n)
                   * F32.pow2 (Zdigits2 n - 24 - 17)))%Q; [ring|].
  rewrite <- E2. field.
Qed.

Lemma small_digits n : 0 < n < 2 ^ 24 -> 1 <= Zdigits2 n <= 24.
Proof.
  intros H. split; [|apply Zdigits2_le; lia].
  pose proof (Zdigits2_bounds n ltac:(lia)) as [_ B].
  pose proof (Zdigits2_nonneg n) as Hn.
  destruct (Z.eq_dec (Zdigits2 n) 0) as [E|]; [|lia].
  rewrite E in B. change (2 ^ 0) with 1 in B. lia.
Qed.

(** A small integer divided by [131072.0f]: the quotient is exact. *)
Lemma scaled_integer_exact n :
  - 2 ^ 24 < n < 2 ^ 24 ->
  F32.is_finite (F32.div (F32.of_Z n) (F32.of_Z 131072)) = true /\
  (F32.value (F32.div (F32.of_Z n) (F32.of_Z 131072))
   == inject_Z n / 131072)%Q.
Proof.
  intros Hn.
  change (F32.of_Z 131072) with (S754_finite false 8388608 (-6)).
  unfold F32.of_Z, binary_normalize.
  destruct n as [|p|p].
  - split; [reflexivity|]. vm_compute. reflexivity.
  - destruct (binary_round_small false p ltac:(lia)) as (m & E & D & Hm).
    pose proof (small_digits (Zpos p) ltac:(lia)) as Hd.
    rewrite E, div_by_131072 by (try exact D; lia).
    split; [reflexivity|].
    rewrite (scaled_sample_value false (Zpos p) m) by (try exact Hm; lia).
    field.
  - destruct (binary_round_small true p ltac:(lia)) as (m & E & D & Hm).
    pose proof (small_digits (Zpos p) ltac:(lia)) as Hd.
    rewrite E, div_by_131072 by (try exact D; lia).
    split; [reflexivity|].
    rewrite (scaled_sample_value true (Zpos p) m) by (try exact Hm; lia).
    change (inject_Z (Zneg p)) with (- inject_Z (Zpos p))%Q. field.
Qed.

End SampleConversion.

(** The conversion of an I2S sample is exact.  For every 32-bit sample,
    [(float)(sample >> 14) / 131072.0f] is a finite number, it is the
    rational [(sample >> 14) / 2^17] with no rounding error, and it lies
    in the interval from -1 (included) to 1 (excluded). *)
Theorem sample_conversion_is_exact (sample : Z) :
  - 2 ^ 31 <= sample < 2 ^ 31 ->
  F32.is_finite (Sequencer.sample_to_float sample) = true /\
  (F32.value (Sequencer.sample_to_float sample)
   == inject_Z (Z.shiftr sample 14) / 131072)%Q /\
  (-1 <= F32.value (Sequencer.sample_to_float sample))%Q /\
  (F32.value (Sequencer.sample_to_float sample) < 1)%Q.
Proof.
  intros Hs. unfold Sequencer.sample_to_float.
  assert (Hn : - 2 ^ 17 <= Z.shiftr sample 14 < 2 ^ 17).
  { rewrite Z.shiftr_div_pow2 by lia.
    change (2 ^ 31) with (2 ^ 17 * 2 ^ 14) in Hs.
    split.
    - apply Z.div_le_lower_bound; lia.
    - apply Z.div_lt_upper_bound; lia. }
  destruct (scaled_integer_exact (Z.shiftr sample 14)) as [Hf Hv]; [lia|].
  split; [exact Hf|]. split; [exact Hv|].
  rewrite Hv.
  assert (H1 : (inject_Z (- 2 ^ 17) <= inject_Z (Z.shiftr sample 14))%Q)
    by (rewrite <- Zle_Qle; lia).
  assert (H2 : (inject_Z (Z.shiftr sample 14) < inject_Z (2 ^ 17))%Q)
    by (rewrite <- Zlt_Qlt; lia).
  change (inject_Z (- 2 ^ 17)) with (- (131072 # 1))%Q in H1.
  change (inject_Z (2 ^ 17)) with (131072 # 1)%Q in H2.
  split.
  - apply Qle_shift_div_l; [reflexivity | lra].
  - apply Qlt_shift_div_r; [reflexivity | lra].
Qed.

Lemma sample_conversion_is_exact_witness :
  F32.is_finite (Sequencer.sample_to_float (-1000000)) = true /\
  (F32.value (Sequencer.sample_to_float (-1000000))
   == inject_Z (Z.shiftr (-1000000) 14) / 131072)%Q /\
  (-1 <= F32.value (Sequencer.sample_to_float (-1000000)))%Q /\
  (F32.value (Sequencer.sample_to_float (-1000000)) < 1)%Q.
Proof.
  apply (sample_conversion_is_exact (-1000000)). lia.
Defined.

(** ** The application's private feature code *)

Lemma rolloff_crossing_is_scan spectrum thr bins : forall acc,
  Sequencer.rolloff_crossing spectrum thr acc bins
  = Audio.rolloff_scan spectrum Chord.FREQ_BINS Chord.I2S_SAMPLE_RATE
                       thr acc bins.
Proof.
  induction bins as [|i bins IH]; intros acc; [reflexivity|].
  cbn [Sequencer.rolloff_crossing Audio.rolloff_scan].
  rewrite IH. reflexivity.
Qed.

(** The application does not call the audio component; it carries its
    own copies of the energy, centroid and roll-off computations.  They
    compute exactly what the component's functions compute for 256 bins
    at 44100 Hz, so energy, centroid and roll-off of
    [extract_audio_features] are those of [audio_extract_features]; the
    zero-crossing rate is the constant [0.1f] and the timestamp is the
    clock reading. *)
Theorem private_features_agree_with_component
    (cast : F32.float -> Z) (log10f log10f' : F32.float -> F32.float)
    (powf : F32.float -> F32.float -> F32.float)
    (cosf log2f : F32.float -> F32.float)
    (spec : list F32.float) (old : Sequencer.audio_features_t)
    (old' : audio_features_t) (now : Z) :
  let r := Sequencer.extract_audio_features log10f spec old now in
  exists r',
    Audio.audio_extract_features cast log10f' powf cosf log2f (Some spec)
      Chord.FREQ_BINS Chord.I2S_SAMPLE_RATE (Some old') now
      = (ESP_OK, Some r') /\
    Sequencer.energy r = energy r' /\
    Sequencer.spectral_centroid r = spectral_centroid r' /\
    Sequencer.spectral_rolloff r = spectral_rolloff r' /\
    Sequencer.timestamp r = timestamp r' /\
    Sequencer.zero_crossing_rate r = F32.lit 1 10 /\
    length (Sequencer.mfcc r) = length (Sequencer.mfcc old).
Proof.
  cbn zeta. eexists. split; [reflexivity|].
  cbn [Sequencer.extract_audio_features Sequencer.energy
       Sequencer.spectral_centroid Sequencer.spectral_rolloff
       Sequencer.timestamp Sequencer.zero_crossing_rate Sequencer.mfcc
       energy spectral_centroid spectral_rolloff timestamp].
  split; [unfold Audio.feature_energy, Audio.sum_of_squares; reflexivity|].
  split; [|split; [|split; [|split]]].
  - unfold Sequencer.calculate_spectral_centroid,
      Audio.calculate_spectral_centroid, Audio.centroid_sums,
      Audio.bin_freq.
    match goal with
    | |- context [for_loop ?a ?b ?f ?x] => destruct (for_loop a b f x)
    end. reflexivity.
  - unfold Sequencer.calculate_spectral_rolloff,
      Audio.calculate_spectral_rolloff, Audio.total_energy.
    rewrite rolloff_crossing_is_scan. reflexivity.
  - reflexivity.
  - reflexivity.
  - apply for_loop_writes_length.
Qed.

(** ** Re-initialisation *)

(** A successful [audio_processing_init] leaves a state that depends on
    the configuration alone, not on what the globals held before: the
    configuration is stored, [g_initialized] is set and the cache holds
    exactly [fft_size] coefficients.  Initialising again with the same
    configuration therefore changes nothing. *)
Theorem init_state_depends_on_config_only
    (cosf : F32.float -> F32.float) (malloc malloc' : Z -> bool)
    (dsps dsps' : Z -> esp_err_t)
    (c : audio_config_t) (g h g1 h1 : Audio.globals) :
  Audio.audio_processing_init cosf malloc dsps (Some c) g = (ESP_OK, g1) ->
  Audio.audio_processing_init cosf malloc' dsps' (Some c) h = (ESP_OK, h1) ->
  g1 = h1 /\
  Audio.g_audio_config g1 = c /\ Audio.g_initialized g1 = true /\
  exists coeffs,
    Audio.g_window_coeffs g1 = Some coeffs /\
    Z.of_nat (length coeffs) = fft_size c.
Proof.
  intros Hg Hh.
  pose proof Hg as Hrange.
  apply init_ok_globals in Hg. apply init_ok_globals in Hh.
  subst g1 h1. split; [reflexivity|].
  split; [reflexivity|]. split; [reflexivity|].
  eexists. split; [reflexivity|].
  rewrite length_map, length_seqZ.
  destruct (Audio.range_ok c) eqn:Er.
  - unfold Audio.range_ok in Er.
    repeat (apply andb_true_iff in Er; destruct Er as [Er ?]).
    apply Z.leb_le in Er. lia.
  - rewrite init_rejected in Hrange by exact Er. discriminate.
Qed.

Lemma init_state_depends_on_config_only_witness :
  Audio.primed = Audio.primed /\
  Audio.g_audio_config Audio.primed = Audio.config_of 44100 64 3 /\
  Audio.g_initialized Audio.primed = true /\
  exists coeffs,
    Audio.g_window_coeffs Audio.primed = Some coeffs /\
    Z.of_nat (length coeffs) = fft_size (Audio.config_of 44100 64 3).
Proof.
  apply (init_state_depends_on_config_only
           Audio.cosf_unused Audio.malloc_succeeds Audio.malloc_succeeds
           Audio.dsps_accepts Audio.dsps_accepts
           (Audio.config_of 44100 64 3) Audio.startup Audio.primed);
    vm_compute; reflexivity.
Defined.

(** ** The tempo of the first eight beats *)

Lemma update_tempo_early d now :
  0 < beat_count d < 8 ->
  snd (Beat.update_tempo d now) =
  F32.div (F32.of_Z 60)
    (F32.div (accumulate (take (Z.to_nat (beat_count d)) (beat_intervals d)))
             (F32.of_Z (beat_count d))).
Proof.
  intros H. unfold Beat.update_tempo.
  destruct (Z.ltb_spec 0 (beat_count d)); [|lia].
  destruct (Z.ltb_spec (beat_count d) 8); [|lia].
  cbn [snd]. rewrite Z.rem_small by lia.
  unfold array_set. destruct (_ && _); [|reflexivity].
  rewrite take_insert_ge by lia. reflexivity.
Qed.

(** While fewer than eight beats have been counted, the tempo a beat
    sets does not depend on when that beat occurs.  The interval just
    measured is stored in slot [beat_count], and the mean is taken over
    the slots below it; so two frames that both trigger a beat on the
    same detector give the same tempo, however far apart their
    timestamps are. *)
Theorem early_tempo_ignores_beat_time (d : beat_detector_t)
    (f f' : audio_features_t) :
  0 < beat_count d < 8 ->
  snd (Beat.process d f) = true -> snd (Beat.process d f') = true ->
  tempo (fst (Beat.process d f)) = tempo (fst (Beat.process d f')) /\
  tempo (fst (Beat.process d f)) =
  F32.div (F32.of_Z 60)
    (F32.div (accumulate (take (Z.to_nat (beat_count d)) (beat_intervals d)))
             (F32.of_Z (beat_count d))).
Proof.
  intros Hc Hf Hf'.
  destruct (process_beat d f Hf) as (_ & Et & _).
  destruct (process_beat d f' Hf') as (_ & Et' & _).
  rewrite Et, Et', !update_tempo_early by exact Hc.
  split; reflexivity.
Qed.

Lemma early_tempo_ignores_beat_time_witness :
  tempo (fst (Beat.process
                (Beat.run Beat.init_state [Beat.frame (F32.of_Z 1) 300000])
                (Beat.frame (F32.of_Z 5) 600000)))
  = tempo (fst (Beat.process
                  (Beat.run Beat.init_state [Beat.frame (F32.of_Z 1) 300000])
                  (Beat.frame (F32.of_Z 5) 90000000))) /\
  tempo (fst (Beat.process
                (Beat.run Beat.init_state [Beat.frame (F32.of_Z 1) 300000])
                (Beat.frame (F32.of_Z 5) 600000)))
  = F32.div (F32.of_Z 60)
      (F32.div
         (accumulate
            (take (Z.to_nat
                     (beat_count
                        (Beat.run Beat.init_state
                                  [Beat.frame (F32.of_Z 1) 300000])))
                  (beat_intervals
                     (Beat.run Beat.init_state
                               [Beat.frame (F32.of_Z 1) 300000]))))
         (F32.of_Z
            (beat_count
               (Beat.run Beat.init_state
                         [Beat.frame (F32.of_Z 1) 300000])))).
Proof.
  apply (early_tempo_ignores_beat_time
           (Beat.run Beat.init_state [Beat.frame (F32.of_Z 1) 300000])
           (Beat.frame (F32.of_Z 5) 600000)
           (Beat.frame (F32.of_Z 5) 90000000)).
  - vm_compute. split; reflexivity.
  - vm_compute. reflexivity.
  - vm_compute. reflexivity.
Defined.

(** ** Window length *)

Section WindowCopy.

Import Audio.

Variable cosf : F32.float -> F32.float.

(** The copy branch with a negative length. *)
Lemma apply_window_negative_copy src dst len wtype g :
  - 2 ^ 30 <= len < 0 ->
  cached_coeffs g len wtype = None ->
  window_type_is_cosine wtype = false ->
  exists res,
    audio_apply_window cosf (Some src) (Some dst) len wtype g
      = (ESP_OK, Some res) /\
    length res = length dst /\
    forall j : nat, Z.of_nat j < 2 ^ 30 + len -> (j < length dst)%nat ->
      res !! j = Some (array_get src (Z.of_nat j)).
Proof.
  intros Hlen Hc Ht. unfold audio_apply_window. rewrite Hc.
  unfold window_type_is_cosine in Ht. rewrite Ht.
  rewrite memcpy_floats_negative by exact Hlen.
  eexists. split; [reflexivity|]. split; [apply for_loop_writes_length|].
  intros j Hj Hd.
  rewrite (for_loop_writes (fun i => array_get src i)).
  destruct (Z.leb_spec 0 (Z.of_nat j)); [|lia].
  destruct (Z.ltb_spec (Z.of_nat j) (2 ^ 30 + len)); [|lia].
  cbn [andb]. unfold F32.float in *.
  destruct (lookup_lt_is_Some_2 dst j Hd) as [x Hx].
  rewrite Hx. reflexivity.
Qed.

Lemma init_reads_malloc_in_range (malloc malloc' : Z -> bool)
    (dsps : Z -> esp_err_t) config g :
  (forall len, 64 <= len <= 4096 ->
     malloc (alloc_size len) = malloc' (alloc_size len)) ->
  audio_processing_init cosf malloc dsps config g
  = audio_processing_init cosf malloc' dsps config g.
Proof.
  intros H. destruct config as [c|]; [|reflexivity].
  destruct (range_ok c) eqn:Er.
  - rewrite !init_accepted by exact Er.
    unfold range_ok in Er. rewrite !andb_true_iff, !Z.leb_le in Er.
    rewrite (H (fft_size c)) by lia. reflexivity.
  - rewrite !init_rejected by exact Er. reflexivity.
Qed.

Lemma init_rejects_length malloc dsps c g :
  ~ 64 <= fft_size c <= 4096 ->
  audio_processing_init cosf malloc dsps (Some c) g
  = (ESP_ERR_INVALID_ARG, g).
Proof.
  intros H. apply init_rejected. apply range_ok_spec. lia.
Qed.

End WindowCopy.




(** ** Bin frequencies *)

Section BinFrequency.

(** A non-zero integer below [2^24] in magnitude converts exactly. *)
Lemma of_Z_small n :
  0 < n < 2 ^ 24 ->
  exists m,
    F32.of_Z n = S754_finite false m (Zdigits2 n - 24) /\
    Zdigits2 (Zpos m) = 24 /\
    Zpos m = n * 2 ^ (24 - Zdigits2 n).
Proof.
  intros H. destruct n as [|p|p]; try lia.
  unfold F32.of_Z, binary_normalize.
  apply binary_round_small. lia.
Qed.

Lemma small_digits_pos n : 0 < n -> 1 <= Zdigits2 n.
Proof.
  intros H. pose proof (Zdigits2_bounds n H) as [_ B].
  pose proof (Zdigits2_nonneg n) as Hn.
  destruct (Z.eq_dec (Zdigits2 n) 0) as [E|]; [|lia].
  rewrite E in B. change (2 ^ 0) with 1 in B. lia.
Qed.

Lemma digits_of_product a b :
  0 < a -> 0 < b -> Zdigits2 a + Zdigits2 b - 1 <= Zdigits2 (a * b).
Proof.
  intros Ha Hb.
  pose proof (Zdigits2_bounds a Ha) as [La _].
  pose proof (Zdigits2_bounds b Hb) as [Lb _].
  pose proof (Zdigits2_bounds (a * b) ltac:(nia)) as [_ Up].
  pose proof (small_digits_pos a Ha) as Da.
  pose proof (small_digits_pos b Hb) as Db.
  assert (Hp : 2 ^ (Zdigits2 a - 1 + (Zdigits2 b - 1)) <= a * b).
  { rewrite Z.pow_add_r by lia.
    apply Z.mul_le_mono_nonneg; try assumption;
      apply Z.pow_nonneg; lia. }
  apply Z.lt_succ_r.
  destruct (Z_lt_le_dec (Zdigits2 a + Zdigits2 b - 1)
                        (Z.succ (Zdigits2 (a * b)))) as [|Hge];
    [assumption|].
  assert (2 ^ Zdigits2 (a * b)
          <= 2 ^ (Zdigits2 a - 1 + (Zdigits2 b - 1)))
    by (apply Z.pow_le_mono_r; lia).
  lia.
Qed.

(** The product of two positive integers is exact when it is below
    [2^24]. *)
Lemma mul_small_ints a b :
  0 < a -> 0 < b -> a * b < 2 ^ 24 ->
  F32.mul (F32.of_Z a) (F32.of_Z b) = F32.of_Z (a * b).
Proof.
  intros Ha Hb Hab.
  assert (Ha24 : a < 2 ^ 24) by nia.
  assert (Hb24 : b < 2 ^ 24) by nia.
  destruct (of_Z_small a ltac:(lia)) as (ma & Ea & Da & Ma).
  destruct (of_Z_small b ltac:(lia)) as (mb & Eb & Db & Mb).
  destruct (of_Z_small (a * b) ltac:(nia)) as (mp & Ep & Dp & Mp).
  rewrite Ea, Eb, Ep. unfold F32.mul. cbn [SFmul xorb].
  set (da := Zdigits2 a) in *. set (db := Zdigits2 b) in *.
  set (dp := Zdigits2 (a * b)) in *.
  pose proof (digits_of_product a b Ha Hb) as Hdp. fold da db dp in Hdp.
  pose proof (small_digits a ltac:(lia)) as Hda. fold da in Hda.
  pose proof (small_digits b ltac:(lia)) as Hdb. fold db in Hdb.
  pose proof (small_digits (a * b) ltac:(nia)) as Hdp2. fold dp in Hdp2.
  assert (Mx : Zpos (ma * mb) = a * b * 2 ^ (48 - da - db)).
  { rewrite Pos2Z.inj_mul, Ma, Mb.
    replace (48 - da - db) with ((24 - da) + (24 - db)) by lia.
    rewrite Z.pow_add_r by lia. ring. }
  assert (Dx : Zdigits2 (Zpos (ma * mb)) = dp + (48 - da - db)).
  { rewrite Mx. apply Zdigits2_shift; [nia | lia]. }
  assert (E : F32.round_core (Zpos (ma * mb)) (da - 24 + (db - 24)) loc_Exact
              = (Zpos mp, dp - 24)).
  { pose proof (round_core_representable
                  (Zpos (ma * mb)) (da - 24 + (db - 24)) loc_Exact
                  (inject_Z (Zpos (ma * mb))) (Zpos mp)) as H.
    cbn zeta in H. rewrite Dx, fexp_eq in H.
    replace (Z.max (da - 24 + (db - 24))
               (Z.max (dp + (48 - da - db) + (da - 24 + (db - 24)) - 24)
                      (-149)))
      with (dp - 24) in H by lia.
    apply H; [lia | |].
    - unfold F32.repr. cbn [shr_record_of_loc shr_m shr_r shr_s].
      unfold F32.frac_ok. ring.
    - replace (da - 24 + (db - 24) - (dp - 24)) with (da + db - 24 - dp)
        by lia.
      rewrite Mx, Mp, !inject_Z_mult.
      pose proof (pow2_Z (48 - da - db) ltac:(lia)) as E1.
      pose proof (pow2_Z (24 - dp) ltac:(lia)) as E2.
      pose proof (pow2_add (48 - da - db) (da + db - 24 - dp)) as E3.
      replace (48 - da - db + (da + db - 24 - dp)) with (24 - dp) in E3
        by lia.
      rewrite <- E1, <- E2, E3. ring. }
  rewrite binary_round_aux_core, E. cbn [fst snd].
  destruct (Z.leb_spec (dp - 24) 104); [reflexivity | lia].
Qed.

(** A power of two converts to the mantissa [2^23]. *)
Lemma of_Z_pow2 k :
  0 <= k <= 23 ->
  F32.of_Z (2 ^ k) = S754_finite false 8388608 (k - 23).
Proof.
  intros Hk.
  assert (Hp : 0 < 2 ^ k) by (apply Z.pow_pos_nonneg; lia).
  assert (Hlt : 2 ^ k < 2 ^ 24) by (apply Z.pow_lt_mono_r; lia).
  assert (Hd : Zdigits2 (2 ^ k) = k + 1).
  { apply Zdigits2_unique; [exact Hp|].
    replace (k + 1 - 1) with k by lia. split; [lia|].
    apply Z.pow_lt_mono_r; lia. }
  destruct (of_Z_small (2 ^ k) ltac:(lia)) as (m & E & _ & M).
  rewrite E, Hd. rewrite Hd in M.
  replace (24 - (k + 1)) with (23 - k) in M by lia.
  rewrite <- Z.pow_add_r in M by lia.
  replace (k + (23 - k)) with 23 in M by lia.
  change (2 ^ 23) with (Zpos 8388608) in M. inversion M.
  f_equal. lia.
Qed.

(** Dividing a normal number by [2^k] lowers its exponent by [k] and
    keeps its mantissa. *)
Lemma div_by_pow2 s m e k :
  Zdigits2 (Zpos m) = 24 -> -148 <= e - k <= 104 ->
  F32.div (S754_finite s m e) (S754_finite false 8388608 (k - 23))
  = S754_finite s m (e - k).
Proof.
  intros Hd He. unfold F32.div. cbn [SFdiv]. unfold SFdiv_core_binary.
  change (Zdigits2 (Z.pos 8388608)) with 24. rewrite Hd, fexp_eq.
  replace (Z.min (Z.max (24 + e - (24 + (k - 23)) - 24) (-149))
                 (e - (k - 23)))
    with (e - k - 1) by lia.
  replace (e - (k - 23) - (e - k - 1)) with 24 by lia.
  cbn match. rewrite Z.shiftl_mul_pow2 by lia.
  pose proof (Z_div_mod (Z.pos m * 2 ^ 24) (Z.pos 8388608) ltac:(lia))
    as Hdiv.
  destruct (Z.div_eucl (Z.pos m * 2 ^ 24) (Z.pos 8388608)) as [q r].
  destruct Hdiv as [Hqr Hr].
  change (2 ^ 24) with 16777216 in Hqr.
  assert (Eq : q = 2 * Z.pos m) by lia.
  assert (Er : r = 0) by lia.
  subst q r.
  change (new_location (Z.pos 8388608) 0) with loc_Exact.
  rewrite xorb_false_r.
  assert (D : Zdigits2 (2 * Z.pos m) = 25).
  { replace (2 * Z.pos m) with (Z.pos m * 2 ^ 1) by lia.
    rewrite Zdigits2_shift by lia. lia. }
  assert (E : F32.round_core (2 * Z.pos m) (e - k - 1) loc_Exact
              = (Z.pos m, e - k)).
  { pose proof (round_core_representable
                  (2 * Z.pos m) (e - k - 1) loc_Exact
                  (inject_Z (2 * Z.pos m)) (Z.pos m)) as H.
    cbn zeta in H. rewrite D, fexp_eq in H.
    replace (Z.max (e - k - 1) (Z.max (25 + (e - k - 1) - 24) (-149)))
      with (e - k) in H by lia.
    apply H; [lia | |].
    - unfold F32.repr. cbn [shr_record_of_loc shr_m shr_r shr_s].
      unfold F32.frac_ok. ring.
    - replace (e - k - 1 - (e - k)) with (-1) by lia.
      rewrite inject_Z_mult.
      change (F32.pow2 (-1)) with (1 # 2)%Q.
      change (inject_Z 2) with 2%Q. field. }
  rewrite binary_round_aux_core, E. cbn [fst snd].
  destruct (Z.leb_spec (e - k) 104); [reflexivity | lia].
Qed.

(** For a power-of-two number of bins, and as long as [i * sample_rate]
    is below [2^24], the frequency of bin [i] is computed without any
    rounding: it is the rational [i * sample_rate / (2 * size)]. *)
Lemma bin_freq_exact i j rate :
  0 <= j <= 22 -> 0 < i -> 0 < rate -> i * rate < 2 ^ 24 ->
  F32.is_finite (Audio.bin_freq i (2 ^ j) rate) = true /\
  (F32.value (Audio.bin_freq i (2 ^ j) rate)
   == inject_Z (i * rate) / inject_Z (2 * 2 ^ j))%Q.
Proof.
  intros Hj Hi Hr Hir. unfold Audio.bin_freq.
  assert (Hp : 0 < 2 ^ j) by (apply Z.pow_pos_nonneg; lia).
  assert (Hp2 : 2 * 2 ^ j = 2 ^ (j + 1))
    by (rewrite Z.pow_add_r by lia; change (2 ^ 1) with 2; ring).
  assert (Hlt : 2 ^ (j + 1) < 2 ^ 24) by (apply Z.pow_lt_mono_r; lia).
  rewrite (mul_small_ints i rate Hi Hr Hir).
  rewrite (mul_small_ints 2 (2 ^ j)) by lia.
  rewrite Hp2, of_Z_pow2 by lia.
  destruct (of_Z_small (i * rate) ltac:(nia)) as (m & E & D & M).
  pose proof (small_digits (i * rate) ltac:(nia)) as Hd.
  rewrite E, div_by_pow2 by (try exact D; lia).
  split; [reflexivity|].
  replace (Zdigits2 (i * rate) - 24 - (j + 1))
    with ((Zdigits2 (i * rate) - 24) + - (j + 1)) by lia.
  cbn [F32.value]. rewrite M, inject_Z_mult.
  pose proof (pow2_Z (24 - Zdigits2 (i * rate)) ltac:(lia)) as E1.
  pose proof (pow2_Z (j + 1) ltac:(lia)) as E2.
  pose proof (pow2_add (24 - Zdigits2 (i * rate))
                       (Zdigits2 (i * rate) - 24 + - (j + 1))) as E3.
  replace (24 - Zdigits2 (i * rate)
           + (Zdigits2 (i * rate) - 24 + - (j + 1)))
    with (- (j + 1)) in E3 by lia.
  pose proof (pow2_add (j + 1) (- (j + 1))) as E4.
  replace (j + 1 + - (j + 1)) with 0 in E4 by lia.
  change (F32.pow2 0) with 1%Q in E4.
  pose proof (pow2_pos (j + 1)) as P1.
  rewrite <- E1, <- E2.
  transitivity (inject_Z (i * rate)
                * (F32.pow2 (24 - Zdigits2 (i * rate))
                   * F32.pow2 (Zdigits2 (i * rate) - 24 + - (j + 1))))%Q;
    [ring|].
  rewrite <- E3.
  apply (Qmult_inj_r _ _ (F32.pow2 (j + 1))); [lra|].
  transitivity (inject_Z (i * rate)
                * (F32.pow2 (j + 1) * F32.pow2 (- (j + 1))))%Q; [ring|].
  rewrite <- E4. field. lra.
Qed.

(** The Nyquist frequency is half the sample rate, exactly. *)
Lemma nyquist_exact rate :
  0 < rate < 2 ^ 24 ->
  F32.is_finite (Audio.nyquist rate) = true /\
  (F32.value (Audio.nyquist rate) == inject_Z rate / 2)%Q.
Proof.
  intros Hr. unfold Audio.nyquist.
  rewrite (of_Z_pow2 1 ltac:(lia) : F32.of_Z 2 = _).
  destruct (of_Z_small rate Hr) as (m & E & D & M).
  pose proof (small_digits rate ltac:(lia)) as Hd.
  pose proof (small_digits_pos rate ltac:(lia)) as Hd1.
  rewrite E, div_by_pow2 by (try exact D; lia).
  split; [reflexivity|].
  cbn [F32.value]. rewrite M, inject_Z_mult.
  pose proof (pow2_Z (24 - Zdigits2 rate) ltac:(lia)) as E1.
  pose proof (pow2_add (24 - Zdigits2 rate) (Zdigits2 rate - 24 - 1)) as E3.
  replace (24 - Zdigits2 rate + (Zdigits2 rate - 24 - 1)) with (-1) in E3
    by lia.
  change (F32.pow2 (-1)) with (1 # 2)%Q in E3.
  rewrite <- E1.
  transitivity (inject_Z rate
                * (F32.pow2 (24 - Zdigits2 rate)
                   * F32.pow2 (Zdigits2 rate - 24 - 1)))%Q; [ring|].
  rewrite <- E3. field.
Qed.

End BinFrequency.

Section RolloffBin.

Import Audio.

(** The frequency the scan returns is the frequency of the bin at which
    it stops. *)
Lemma rolloff_scan_bin spectrum size sample_rate threshold bins :
  forall cumulative,
  rolloff_scan spectrum size sample_rate threshold cumulative bins
  = match rolloff_bin spectrum threshold cumulative bins with
    | Some i => Some (bin_freq i size sample_rate)
    | None => None
    end.
Proof.
  induction bins as [|i rest IH]; intros cumulative; [reflexivity|].
  simpl. destruct (F32.ge _ _); [reflexivity | apply IH].
Qed.

(** With the bin of the scan known, so is the rolloff. *)
Lemma rolloff_at_bin spectrum size sample_rate i :
  rolloff_bin spectrum
    (F32.mul (F32.lit 85 100) (total_energy spectrum size)) F32.zero
    (seqZ 1 (size - 1)) = Some i ->
  spectral_rolloff_85 spectrum size sample_rate
  = bin_freq i size sample_rate.
Proof.
  intros H. unfold spectral_rolloff_85, calculate_spectral_rolloff.
  rewrite rolloff_scan_bin, H. reflexivity.
Qed.

(** The bin at which a flat spectrum of [2^j] ones crosses the
    threshold. *)
Lemma flat_rolloff_bin j :
  1 <= j <= 11 ->
  exists i,
    rolloff_bin (replicate (Z.to_nat (2 ^ j)) (F32.of_Z 1))
      (F32.mul (F32.lit 85 100)
         (total_energy (replicate (Z.to_nat (2 ^ j)) (F32.of_Z 1)) (2 ^ j)))
      F32.zero (seqZ 1 (2 ^ j - 1)) = Some i /\
    0 < i < 2 ^ j /\ 85 * 2 ^ j - 100 < 100 * i < 85 * 2 ^ j.
Proof.
  intros Hj.
  assert (C : j = 1 \/ j = 2 \/ j = 3 \/ j = 4 \/ j = 5 \/ j = 6 \/ j = 7
              \/ j = 8 \/ j = 9 \/ j = 10 \/ j = 11) by lia.
  repeat (destruct C as [->|C]); [ .. | subst j];
    match goal with
    | |- exists i, ?b = _ /\ _ =>
        let r := eval vm_compute in b in
        match r with
        | Some ?i => exists i; split;
                     [vm_compute; reflexivity | vm_compute; intuition congruence]
        end
    end.
Qed.

End RolloffBin.






